(** * q2-moshpit, [kraken2/select.py]: Kraken2 reports to a merged NCBI tree

    A shallow embedding of [q2_moshpit/kraken2/select.py] and of the few
    [skbio.TreeNode] methods it calls, followed by the properties of the
    row filter, the single-sample tree builder, the tree merger and the
    rank padding of taxonomy strings. *)

From Stdlib Require Import ZArith Lia Floats.PrimFloat.
From Stdlib Require Import Floats.SpecFloat Floats.FloatOps Floats.FloatAxioms.
From Stdlib Require Import Ascii String.
From stdpp Require Import base option list strings gmap pretty.

Open Scope Z_scope.
Set Warnings "-register-all".

(** ** Python run-time: exceptions and the values the module handles *)

Module Py.

(** The exceptions that can leave the functions of [select.py].
    [MissingNodeError] and [DuplicateNodeError] are skbio's,
    [InvalidIndexError] is pandas'. *)
Inductive exn : Set :=
| IndexError
| ValueError
| AttributeError
| UnboundLocalError
| MissingNodeError
| DuplicateNodeError
| InvalidIndexError.

Inductive result (A : Type) : Type :=
| Ok (a : A)
| Raise (e : exn).
Global Arguments Ok {A} a.
Global Arguments Raise {A} e.

Global Instance result_ret : MRet result := fun _ a => Ok a.
Global Instance result_bind : MBind result := fun _ _ f m =>
  match m with
  | Ok a => f a
  | Raise e => Raise e
  end.

Definition returns {A} (m : result A) : Prop := exists a, m = Ok a.
Definition raises {A} (m : result A) : Prop := exists e, m = Raise e.

(** *** [str] methods, on 7-bit text

    A [string] stands for a Python [str] whose characters are all below
    U+0080, one [ascii] for each character; on such text the methods
    below are Python's. *)

Definition len (s : string) : Z := Z.of_nat (String.length s).

(** [s.lstrip(' ')] *)
Fixpoint lstrip_space (s : string) : string :=
  match s with
  | String " "%char s' => lstrip_space s'
  | _ => s
  end.

(** The characters [str.strip()] removes: TAB, LF, VT, FF, CR, the four
    separators FS, GS, RS, US, and the space. *)
Definition isspace (c : ascii) : bool :=
  let n := nat_of_ascii c in
  ((9 <=? n) && (n <=? 13) || (28 <=? n) && (n <=? 32))%nat.

Fixpoint lstrip (s : string) : string :=
  match s with
  | String c s' => if isspace c then lstrip s' else s
  | EmptyString => EmptyString
  end.

Fixpoint rstrip (s : string) : string :=
  match s with
  | String c s' =>
      match rstrip s' with
      | EmptyString => if isspace c then EmptyString else String c EmptyString
      | r => String c r
      end
  | EmptyString => EmptyString
  end.

(** [s.strip()] *)
Definition strip (s : string) : string := rstrip (lstrip s).

Definition lower_char (c : ascii) : ascii :=
  let n := nat_of_ascii c in
  if ((65 <=? n) && (n <=? 90))%nat then ascii_of_nat (n + 32) else c.

(** [s.lower()] *)
Fixpoint lower (s : string) : string :=
  match s with
  | String c s' => String (lower_char c) (lower s')
  | EmptyString => EmptyString
  end.

(** [s.startswith(p)] *)
Definition startswith (p s : string) : bool := String.prefix p s.

(** [s.split('__', 1)]: [Some (a, b)] for the two-element list [[a, b]]
    cut at the first ["__"], [None] for the one-element list [[s]]. *)
Fixpoint split_dunder (s : string) : option (string * string) :=
  match s with
  | String "_"%char (String "_"%char rest) => Some (EmptyString, rest)
  | String c s' =>
      match split_dunder s' with
      | Some (a, b) => Some (String c a, b)
      | None => None
      end
  | EmptyString => None
  end.

(** [sep.join(l)] *)
Fixpoint join (sep : string) (l : list string) : string :=
  match l with
  | [] => EmptyString
  | [x] => x
  | x :: l' => x +:+ sep +:+ join sep l'
  end.

(** [str(n)] of an [int] *)
Definition str (n : Z) : string := pretty n.

End Py.
Import Py.

(** ** Report rows and the coverage filter *)

(** One row of a sample's report data frame. *)
Record Row : Set := mkRow {
  rank : string;
  name : string;
  ncbi_tax_id : Z;
  perc_frags_covered : float
}.

(** [df[df['perc_frags_covered'] >= coverage_threshold]] (line 29) *)
Definition coverage_filter (coverage_threshold : float) (df : list Row) : list Row :=
  filter (fun row => PrimFloat.leb coverage_threshold (perc_frags_covered row) = true) df.

(** The negation of the guard of line 61:
    [r in ('U', 'R') or (len(r) > 1 and not r.startswith('S'))]. *)
Definition rank_skipped (r : string) : bool :=
  (String.eqb r "U" || String.eqb r "R")
  || ((1 <? len r) && negb (startswith "S" r)).

(** [_get_indentation(string, indent=2)] *)
Definition _get_indentation (s : string) (indent : Z) : Z :=
  (len s - len (lstrip_space s)) / indent.

(** ** [_pad_ranks] *)

Definition order : list string := ["d"; "k"; "p"; "c"; "o"; "f"; "g"; "s"].

(** The first loop: fill [available] and collect the strain entries. *)
Definition collect_step (st : gmap string string * list string) (rank : string)
  : result (gmap string string * list string) :=
  let '(available, taxonomy) := st in
  match split_dunder rank with
  | None => Raise ValueError
  | Some (r, label) =>
      let available := <[r := label]> available in
      if (1 <? len r) && startswith "s" r
      then Ok (available, taxonomy ++ [rank])
      else Ok (available, taxonomy)
  end.

Fixpoint collect (st : gmap string string * list string) (ranks : list string)
  : result (gmap string string * list string) :=
  match ranks with
  | [] => Ok st
  | rank :: ranks' => st' ← collect_step st rank; collect st' ranks'
  end.

(** The body of the second loop.  [last_good_label] is [None] while the
    local variable is unbound. *)
Definition pad_step (available : gmap string string)
    (st : list string * option string) (r : string)
  : result (list string * option string) :=
  let '(taxonomy, last_good_label) := st in
  match available !! r with
  | Some label =>
      Ok (taxonomy ++ [r +:+ "__" +:+ label], Some (r +:+ "__" +:+ label))
  | None =>
      match taxonomy with
      | _ :: _ =>
          if String.eqb r "k" &&
             bool_decide (available !! "d" = Some "Bacteria"
                          \/ available !! "d" = Some "Archaea")
          then Ok (taxonomy ++ ["k__" +:+ default "" (available !! "d")],
                   last_good_label)
          else
            match last_good_label with
            | Some lgl =>
                Ok (taxonomy ++ [r +:+ "__containing " +:+ lgl], last_good_label)
            | None => Raise UnboundLocalError
            end
      | [] => Ok st
      end
  end.

Fixpoint pad_loop (available : gmap string string)
    (st : list string * option string) (rs : list string)
  : result (list string * option string) :=
  match rs with
  | [] => Ok st
  | r :: rs' => st' ← pad_step available st r; pad_loop available st' rs'
  end.

(** The list [reversed(taxonomy)] that [_pad_ranks] joins. *)
Definition _pad_ranks_entries (ranks : list string) : result (list string) :=
  '(available, taxonomy) ← collect (∅, []) (reverse ranks);
  '(taxonomy, _) ← pad_loop available (taxonomy, None) (reverse order);
  Ok (reverse taxonomy).

Definition _pad_ranks (ranks : list string) : result string :=
  entries ← _pad_ranks_entries ranks;
  Ok (join ";" entries).


(** ** [skbio.TreeNode]

    A node is a Python object: [oid] is its identity, the other fields are
    its attributes.  [is_actual_tip] is the attribute [select.py] adds to
    identifier nodes; it is [None] on a node that never received it.  A
    tree is the value of its root; a reference to a node is its [oid], and
    the methods that mutate a node rewrite the tree it hangs in. *)

Module TreeNode.

Inductive t : Type :=
| Node (oid : nat) (name : option string) (length : option Z)
       (is_actual_tip : option bool) (children : list t).

Definition oid (n : t) : nat := let 'Node i _ _ _ _ := n in i.
Definition name (n : t) : option string := let 'Node _ s _ _ _ := n in s.
Definition length (n : t) : option Z := let 'Node _ _ l _ _ := n in l.
Definition is_actual_tip (n : t) : option bool := let 'Node _ _ _ b _ := n in b.
Definition children (n : t) : list t := let 'Node _ _ _ _ cs := n in cs.

(** [n.is_tip()] *)
Definition is_tip (n : t) : bool :=
  match children n with [] => true | _ => false end.

(** [n.children.append(c)], the list update inside [append] *)
Definition add_child (c : t) (n : t) : t :=
  let 'Node i s l b cs := n in Node i s l b (cs ++ [c]).

(** [n.is_actual_tip = b] *)
Definition set_is_actual_tip (b : bool) (n : t) : t :=
  let 'Node i s l _ cs := n in Node i s l (Some b) cs.

(** The object [i] of the tree, if it hangs there. *)
Fixpoint get (i : nat) (n : t) : option t :=
  if decide (oid n = i) then Some n
  else
    (fix get_first (cs : list t) : option t :=
       match cs with
       | [] => None
       | c :: cs' =>
           match get i c with
           | Some r => Some r
           | None => get_first cs'
           end
       end) (children n).

(** Mutation of the object [i]: the tree in which it is replaced by
    [f] of itself. *)
Fixpoint update (i : nat) (f : t -> t) (n : t) : t :=
  let 'Node j s l b cs := n in
  let n' := Node j s l b (map (update i f) cs) in
  if decide (j = i) then f n' else n'.

(** [parent.remove(node)] for the parent of the object [i]: the tree
    without the subtree of [i]. *)
Fixpoint remove (i : nat) (n : t) : t :=
  let 'Node j s l b cs := n in
  Node j s l b
    ((fix remove_in (cs : list t) : list t :=
        match cs with
        | [] => []
        | c :: cs' =>
            if decide (oid c = i) then remove_in cs'
            else remove i c :: remove_in cs'
        end) cs).

(** [n.postorder(include_self=True)] *)
Fixpoint postorder (n : t) : list t :=
  concat (map postorder (children n)) ++ [n].

(** [n.tips()]: the tips below [n], in postorder. *)
Definition tips (n : t) : list t :=
  filter (fun x => is_tip x = true) (concat (map postorder (children n))).

(** The objects from the root down to the parent of [i]. *)
Fixpoint path_to (i : nat) (n : t) : option (list t) :=
  if decide (oid n = i) then Some []
  else
    (fix path_first (cs : list t) : option (list t) :=
       match cs with
       | [] => None
       | c :: cs' =>
           match path_to i c with
           | Some p => Some (n :: p)
           | None => path_first cs'
           end
       end) (children n).

(** [list(node.ancestors())] for the object [i]: its parent first, the
    root of its tree last.  [heap] lists the roots of the trees alive. *)
Fixpoint ancestors (heap : list t) (i : nat) : list t :=
  match heap with
  | [] => []
  | root :: heap' =>
      match path_to i root with
      | Some p => reverse p
      | None => ancestors heap' i
      end
  end.

(** [root.create_caches()]: the tip cache maps a name to the tip that
    bears it and refuses a second tip of the same name; the non-tip
    cache maps a name to the internal nodes that bear it, in postorder.
    Unnamed nodes are left out. *)
Definition cache_step (caches : gmap string t * gmap string (list t)) (node : t)
  : result (gmap string t * gmap string (list t)) :=
  let '(tip_cache, non_tip_cache) := caches in
  match name node with
  | None => Ok caches
  | Some s =>
      if is_tip node then
        match tip_cache !! s with
        | Some _ => Raise DuplicateNodeError
        | None => Ok (<[s := node]> tip_cache, non_tip_cache)
        end
      else
        Ok (tip_cache,
            <[s := default [] (non_tip_cache !! s) ++ [node]]> non_tip_cache)
  end.

Fixpoint fill_caches (caches : gmap string t * gmap string (list t))
    (nodes : list t) : result (gmap string t * gmap string (list t)) :=
  match nodes with
  | [] => Ok caches
  | node :: nodes' => c ← cache_step caches node; fill_caches c nodes'
  end.

Definition create_caches (root : t)
  : result (gmap string t * gmap string (list t)) :=
  fill_caches (∅, ∅) (postorder root).

(** [node.find(name)], for a node of the tree [root]: the caches are
    those of the root of the node's tree. *)
Definition find (root : t) (s : option string) : result t :=
  '(tip_cache, non_tip_cache) ← create_caches root;
  match s with
  | None => Raise MissingNodeError
  | Some s =>
      match tip_cache !! s with
      | Some node => Ok node
      | None =>
          match non_tip_cache !! s with
          | Some (node :: _) => Ok node
          | _ => Raise MissingNodeError
          end
      end
  end.

(** [root.to_taxonomy()]: every tip with the names of the named
    internal nodes above it, the root's side first. *)
Fixpoint to_taxonomy_from (lineage : list string) (n : t)
  : list (t * list string) :=
  match children n with
  | [] => [(n, lineage)]
  | cs =>
      let lineage' :=
        match name n with
        | Some s => if String.eqb s "" then lineage else lineage ++ [s]
        | None => lineage
        end in
      concat (map (to_taxonomy_from lineage') cs)
  end.

Definition to_taxonomy (root : t) : list (t * list string) :=
  to_taxonomy_from [] root.

(** The number of objects of a tree. *)
Definition size (root : t) : nat := List.length (postorder root).

End TreeNode.

(** ** [_kraken_to_ncbi_tree] *)

(** The local state of the loop: the tree under [tree], the deque [stack]
    with its right end first, and the identity the next new object gets. *)
Record Builder : Type := mkBuilder {
  tree : TreeNode.t;
  stack : list (Z * nat);
  next_oid : nat
}.

(** [tree = skbio.TreeNode()] and [stack = deque([(0, tree)])].  [fresh]
    is the first identity no object has yet; the objects of one call get
    the identities from [fresh] on, in the order they are created. *)
Definition builder_init (fresh : nat) : Builder :=
  mkBuilder (TreeNode.Node fresh None None None []) [(0, fresh)] (S fresh).

(** [parent_node.children], for a reference [parent_node] into [tree] *)
Definition children_of (parent_node : nat) (tree : TreeNode.t) : list TreeNode.t :=
  match TreeNode.get parent_node tree with
  | Some n => TreeNode.children n
  | None => []
  end.

(** [parent_node.children[0].is_actual_tip = True] *)
Definition mark_first_child (parent_node : nat) (tree : TreeNode.t)
  : result TreeNode.t :=
  match children_of parent_node tree with
  | [] => Raise IndexError
  | c :: _ =>
      Ok (TreeNode.update (TreeNode.oid c) (TreeNode.set_is_actual_tip true) tree)
  end.

(** [parent_node.append(node)] *)
Definition append (parent_node : nat) (node : TreeNode.t) (tree : TreeNode.t)
  : TreeNode.t :=
  TreeNode.update parent_node (TreeNode.add_child node) tree.

(** [stack[-1]] *)
Definition stack_top (stack : list (Z * nat)) : result (Z * nat) :=
  match stack with
  | [] => Raise IndexError
  | top :: _ => Ok top
  end.

(** The [while parent_indent >= indent] loop (lines 75 to 77): the stack
    it leaves, whose top is the final [(parent_indent, parent_node)]. *)
Fixpoint unwind (indent : Z) (stack : list (Z * nat)) : result (list (Z * nat)) :=
  match stack with
  | [] => Raise IndexError
  | (parent_indent, parent_node) :: below =>
      if indent <=? parent_indent then unwind indent below else Ok stack
  end.

(** The rank node of a row, with its identifier child (lines 65 to 69). *)
Definition new_node (i : nat) (row : Row) : TreeNode.t :=
  let r := rank row in
  let label := name row in
  let otu := str (ncbi_tax_id row) in
  let name := lower r +:+ "__" +:+ strip label in
  let id_node := TreeNode.Node (S i) (Some otu) (Some 0) (Some false) [] in
  TreeNode.Node i (Some name) (Some 1) None [id_node].

(** The part of the loop body after the [continue] guard (lines 64 to 80). *)
Definition attach_row (st : Builder) (row : Row) : result Builder :=
  let indent := _get_indentation (name row) 2 in
  let node := new_node (next_oid st) row in
  '(parent_indent, parent_node) ← stack_top (stack st);
  tree ← (if indent <=? parent_indent
          then mark_first_child parent_node (tree st)
          else Ok (tree st));
  stack ← unwind indent (stack st);
  '(_, parent_node) ← stack_top stack;
  Ok (mkBuilder (append parent_node node tree)
                ((indent, next_oid st) :: stack)
                (2 + next_oid st)).

(** One turn of [for _, row in df.iterrows()]. *)
Definition builder_step (st : Builder) (row : Row) : result Builder :=
  if rank_skipped (rank row) then Ok st else attach_row st row.

Fixpoint builder_loop (st : Builder) (df : list Row) : result Builder :=
  match df with
  | [] => Ok st
  | row :: df' => st' ← builder_step st row; builder_loop st' df'
  end.

(** Lines 82 to 85: the last entry is always a tip. *)
Definition mark_last (st : Builder) : result TreeNode.t :=
  '(_, parent_node) ← stack_top (stack st);
  match children_of parent_node (tree st) with
  | [] => Ok (tree st)
  | _ :: _ => mark_first_child parent_node (tree st)
  end.

Definition _kraken_to_ncbi_tree (fresh : nat) (df : list Row) : result TreeNode.t :=
  st ← builder_loop (builder_init fresh) df;
  mark_last st.

(** ** [_combine_ncbi_trees] *)

(** [matching.append(node)] while [full_tree] and [tree] are the trees
    alive: skbio takes [node] out of the children of its parent
    ([node.parent.remove(node)]) and makes it the last child of
    [matching]. *)
Definition graft (matching node : nat) (heap : TreeNode.t * TreeNode.t)
  : TreeNode.t * TreeNode.t :=
  let '(full_tree, tree) := heap in
  let obj := match TreeNode.get node tree with
             | Some n => Some n
             | None => TreeNode.get node full_tree
             end in
  match obj with
  | None => heap
  | Some n =>
      (append matching n (TreeNode.remove node full_tree),
       append matching n (TreeNode.remove node tree))
  end.

(** The [while parents] loop (lines 101 to 106).  [parents] is in the
    order [parents.pop()] yields; [matching] is a node of [full_tree], so
    [matching.find] searches [full_tree]. *)
Fixpoint walk (heap : TreeNode.t * TreeNode.t) (matching : nat)
    (parents : list TreeNode.t) : result (TreeNode.t * TreeNode.t) :=
  match parents with
  | [] => Ok heap
  | node :: parents' =>
      match TreeNode.find (fst heap) (TreeNode.name node) with
      | Ok m => walk heap (TreeNode.oid m) parents'
      | Raise MissingNodeError =>
          walk (graft matching (TreeNode.oid node) heap) matching parents'
      | Raise e => Raise e
      end
  end.

(** The body of [for tip in list(tree.tips())] (lines 94 to 106). *)
Definition merge_tip (heap : TreeNode.t * TreeNode.t) (tip : TreeNode.t)
  : result (TreeNode.t * TreeNode.t) :=
  let '(full_tree, tree) := heap in
  match TreeNode.find full_tree (TreeNode.name tip) with
  | Ok _ => Ok heap
  | Raise MissingNodeError =>
      let parents :=
        removelast (TreeNode.ancestors [tree; full_tree] (TreeNode.oid tip)) in
      walk heap (TreeNode.oid full_tree) (reverse parents)
  | Raise e => Raise e
  end.

Fixpoint merge_tips (heap : TreeNode.t * TreeNode.t) (tips : list TreeNode.t)
  : result (TreeNode.t * TreeNode.t) :=
  match tips with
  | [] => Ok heap
  | tip :: tips' => heap' ← merge_tip heap tip; merge_tips heap' tips'
  end.

(** One turn of [for tree in trees[1:]]. *)
Definition merge_tree (full_tree tree : TreeNode.t) : result TreeNode.t :=
  heap ← merge_tips (full_tree, tree) (TreeNode.tips tree);
  Ok (fst heap).

Fixpoint merge_trees (full_tree : TreeNode.t) (trees : list TreeNode.t)
  : result TreeNode.t :=
  match trees with
  | [] => Ok full_tree
  | tree :: trees' => full ← merge_tree full_tree tree; merge_trees full trees'
  end.

Definition _combine_ncbi_trees (trees : list TreeNode.t) : result TreeNode.t :=
  match trees with
  | [] => Raise IndexError
  | full_tree :: rest => merge_trees full_tree rest
  end.

(** ** [_ncbi_tree_to_tips], [_to_taxonomy] and [select_kraken_features] *)

Fixpoint actual_tips (tips : list TreeNode.t) : result (list (option string)) :=
  match tips with
  | [] => Ok []
  | n :: tips' =>
      match TreeNode.is_actual_tip n with
      | None => Raise AttributeError
      | Some b =>
          rest ← actual_tips tips';
          Ok (if b then TreeNode.name n :: rest else rest)
      end
  end.

Definition _ncbi_tree_to_tips (tree : TreeNode.t) : result (list (option string)) :=
  actual_tips (TreeNode.tips tree).

Fixpoint taxonomy_rows (l : list (TreeNode.t * list string))
  : result (list (option string * string)) :=
  match l with
  | [] => Ok []
  | (node, ranks) :: l' =>
      taxon ← _pad_ranks ranks;
      rest ← taxonomy_rows l';
      Ok ((TreeNode.name node, taxon) :: rest)
  end.

(** The rows [(Feature ID, Taxon)] of the taxonomy data frame. *)
Definition _to_taxonomy (tree : TreeNode.t) : result (list (option string * string)) :=
  taxonomy_rows (TreeNode.to_taxonomy tree).

(** The loop of [select_kraken_features] over the reports (lines 26 to
    36).  A report is its sample identifier and its data frame; a table
    row is a sample identifier with the tips it has.  [fresh] is the next
    free object identity. *)
Fixpoint per_sample (coverage_threshold : float) (fresh : nat)
    (reports : list (string * list Row))
  : result (list (string * list (option string)) * list TreeNode.t) :=
  match reports with
  | [] => Ok ([], [])
  | (sample_id, df) :: reports' =>
      let filtered := coverage_filter coverage_threshold df in
      tree ← _kraken_to_ncbi_tree fresh filtered;
      tips ← _ncbi_tree_to_tips tree;
      '(rows, trees) ← per_sample coverage_threshold
                         (fresh + TreeNode.size tree)%nat reports';
      Ok (match tips with
          | [] => rows
          | _ :: _ => (sample_id, tips) :: rows
          end, tree :: trees)
  end.

(** [pd.DataFrame(rows).fillna(False)] of line 40.  The columns of the
    frame are the union of the indexes of the rows, and each row is
    aligned on them with [Index.get_indexer], which raises
    [InvalidIndexError] for an index that holds a label twice.  The frame
    is kept as its rows: a cell is [True] where the label is in the index
    of the row, and [False], filled in for the missing value, elsewhere. *)
Definition DataFrame (rows : list (string * list (option string)))
  : result (list (string * list (option string))) :=
  if forallb (fun table_row => bool_decide (NoDup table_row.2)) rows
  then Ok rows
  else Raise InvalidIndexError.

(** [select_kraken_features]: the table rows, the taxonomy rows and the
    tree that is written out in Newick format. *)
Definition select_kraken_features (reports : list (string * list Row))
    (coverage_threshold : float)
  : result (list (string * list (option string))
            * list (option string * string) * TreeNode.t) :=
  '(rows, trees) ← per_sample coverage_threshold 0 reports;
  full_tree ← _combine_ncbi_trees trees;
  table ← DataFrame rows;
  taxonomy ← _to_taxonomy full_tree;
  Ok (table, taxonomy, full_tree).

(** * Properties *)

(** ** The exception monad *)

Lemma bind_Ok {A B} (f : A -> result B) (a : A) : (Ok a ≫= f) = f a.
Proof. reflexivity. Qed.

Lemma bind_Raise {A B} (f : A -> result B) (e : exn) : (Raise e ≫= f) = Raise e.
Proof. reflexivity. Qed.

Lemma bind_Ok_inv {A B} (m : result A) (f : A -> result B) (b : B) :
  (m ≫= f) = Ok b -> exists a, m = Ok a /\ f a = Ok b.
Proof. destruct m as [a|e]; [eauto | discriminate]. Qed.

Ltac inv_bind H :=
  let a := fresh "a" in
  let Ha := fresh "Ha" in
  apply bind_Ok_inv in H; destruct H as (a & Ha & H).

(** ** [_pad_ranks] *)

Section PadRanks.

Variable available : gmap string string.

Lemma pad_loop_app st rs1 rs2 :
  pad_loop available st (rs1 ++ rs2)
  = (st' ← pad_loop available st rs1; pad_loop available st' rs2).
Proof.
  revert st; induction rs1 as [|r rs1 IH]; intros st; [reflexivity|].
  cbn [app pad_loop].
  destruct (pad_step available st r) as [st'|e]; [|reflexivity].
  rewrite !bind_Ok. apply IH.
Qed.

(** A step only appends to [taxonomy]; it appends when the rank is
    available or when something was emitted before. *)
Lemma pad_step_extends taxonomy lgl r taxonomy' lgl' :
  pad_step available (taxonomy, lgl) r = Ok (taxonomy', lgl') ->
  exists ext, taxonomy' = taxonomy ++ ext
              /\ (is_Some (available !! r) \/ taxonomy <> [] -> ext <> []).
Proof.
  unfold pad_step. destruct (available !! r) as [label|] eqn:Hr.
  - intros [= <- <-]. eexists; split; [reflexivity|]. discriminate.
  - destruct taxonomy as [|x taxonomy].
    + intros [= <- <-]. exists []. split; [reflexivity|].
      intros [[? [=]]|H]; congruence.
    + destruct (_ && _).
      * intros [= <- <-]. eexists; split; [reflexivity|]. discriminate.
      * destruct lgl as [l|]; [|discriminate].
        intros [= <- <-]. eexists; split; [reflexivity|]. discriminate.
Qed.

Lemma pad_loop_extends rs : forall taxonomy lgl taxonomy' lgl',
  pad_loop available (taxonomy, lgl) rs = Ok (taxonomy', lgl') ->
  exists ext, taxonomy' = taxonomy ++ ext
              /\ ((exists r, r ∈ rs /\ is_Some (available !! r))
                  \/ (taxonomy <> [] /\ rs <> []) -> ext <> []).
Proof.
  induction rs as [|r rs IH]; intros taxonomy lgl taxonomy' lgl' H.
  - injection H as <- <-. exists []. rewrite app_nil_r. split; [done|].
    intros [(r & Hr & _)|[_ ?]]; [by apply elem_of_nil in Hr | done].
  - cbn [pad_loop] in H. inv_bind H. destruct a as [tax1 lgl1].
    apply pad_step_extends in Ha as (ext1 & -> & Hext1).
    apply IH in H as (ext2 & -> & Hext2).
    exists (ext1 ++ ext2). rewrite app_assoc. split; [done|].
    intros Hsome Happ. apply app_eq_nil in Happ as [-> ->].
    rewrite app_nil_r in Hext2.
    destruct Hsome as [(r' & Hr' & Hav)|[Hne _]].
    + apply elem_of_cons in Hr' as [->|Hr'].
      * apply Hext1; auto.
      * apply Hext2; eauto.
    + apply Hext1; auto.
Qed.

(** Where [last_good_label] comes from: it is bound exactly by a rank of
    the ontology that is available. *)
Lemma pad_loop_last_good_label rs : forall taxonomy lgl taxonomy' x,
  pad_loop available (taxonomy, lgl) rs = Ok (taxonomy', Some x) ->
  lgl = Some x
  \/ exists r label, r ∈ rs /\ available !! r = Some label
                     /\ x = r +:+ "__" +:+ label.
Proof.
  induction rs as [|r rs IH]; intros taxonomy lgl taxonomy' x H.
  - injection H as <- <-. by left.
  - cbn [pad_loop] in H. inv_bind H. destruct a as [tax1 lgl1].
    apply IH in H as [->|(r' & label & Hr' & Hav & ->)].
    + unfold pad_step in Ha.
      destruct (available !! r) as [label|] eqn:Hr.
      * injection Ha as _ <-. right. exists r, label.
        split; [apply elem_of_cons; by left | done].
      * left. destruct taxonomy; [congruence|].
        destruct (_ && _); [congruence|].
        destruct lgl; [congruence | discriminate].
    + right. exists r', label. split; [apply elem_of_cons; by right | done].
Qed.

End PadRanks.

(** A strain entry of a rank path: [s1__...], [s2__...] and the like. *)
Definition strain_entry (rank : string) : Prop :=
  exists r label, split_dunder rank = Some (r, label)
                  /\ 1 < len r /\ startswith "s" r = true.

(** The ['containing'] branch (line 137) is the one taken for the rank [r]
    when [taxonomy] is what has been emitted so far. *)
Definition takes_containing (available : gmap string string)
    (taxonomy : list string) (r : string) : Prop :=
  available !! r = None /\ taxonomy <> []
  /\ ~ (r = "k" /\ (available !! "d" = Some "Bacteria"
                    \/ available !! "d" = Some "Archaea")).

Lemma collect_strain_entries ranks : forall available taxonomy,
  Forall strain_entry ranks ->
  (forall k, is_Some (available !! k) -> 1 < len k) ->
  exists available' taxonomy',
    collect (available, taxonomy) ranks = Ok (available', taxonomy')
    /\ (forall k, is_Some (available' !! k) -> 1 < len k)
    /\ (ranks <> [] \/ taxonomy <> [] -> taxonomy' <> []).
Proof.
  induction ranks as [|rank ranks IH]; intros available taxonomy Hall Hkeys.
  - exists available, taxonomy. split; [done|]. split; [done|]. intros [?|?]; done.
  - apply Forall_cons in Hall as [(r & label & Hsplit & Hlen & Hs) Hall].
    cbn [collect]. unfold collect_step. rewrite Hsplit.
    apply Z.ltb_lt in Hlen as Hlenb. rewrite Hlenb, Hs. cbn [andb]. rewrite bind_Ok.
    destruct (IH (<[r:=label]> available) (taxonomy ++ [rank]) Hall)
      as (av' & tax' & Hc & Hk & Hne).
    + intros k. destruct (decide (k = r)) as [->|Hkr]; [done|].
      rewrite lookup_insert_ne by done. apply Hkeys.
    + exists av', tax'. split; [done|]. split; [done|].
      intros _. apply Hne. right. by destruct taxonomy.
Qed.

(** C10. [_pad_ranks] returns only if, at each rank of the ontology for
    which the ['containing'] padding is emitted, a rank scanned before it
    was available and bound [last_good_label]; and on a non-empty path
    made of strain entries only, such as [['s1__X']], it raises the
    unbound-local error. *)
Theorem pad_ranks_last_good_label_unbound (ranks : list string) :
  (forall s available strains pre r post taxonomy lgl,
      _pad_ranks ranks = Ok s ->
      collect (∅, []) (reverse ranks) = Ok (available, strains) ->
      reverse order = pre ++ r :: post ->
      pad_loop available (strains, None) pre = Ok (taxonomy, lgl) ->
      takes_containing available taxonomy r ->
      exists r' label, r' ∈ pre /\ available !! r' = Some label
                       /\ lgl = Some (r' +:+ "__" +:+ label))
  /\ (ranks <> [] -> Forall strain_entry ranks ->
      _pad_ranks ranks = Raise UnboundLocalError).
Proof.
  split.
  - intros s available strains pre r post taxonomy lgl Hret Hcol Horder Hpre
      (Hr & Hne & Hnotk).
    unfold _pad_ranks, _pad_ranks_entries in Hret.
    rewrite Hcol, bind_Ok, Horder, pad_loop_app, Hpre, bind_Ok in Hret.
    cbn [pad_loop] in Hret.
    destruct (pad_step available (taxonomy, lgl) r) as [st|e] eqn:Hstep;
      [|discriminate].
    unfold pad_step in Hstep. rewrite Hr in Hstep.
    destruct taxonomy as [|x taxonomy]; [done|].
    destruct (String.eqb_spec r "k") as [->|Hrk].
    + rewrite bool_decide_eq_false_2 in Hstep by tauto. cbn [andb] in Hstep.
      destruct lgl as [l|]; [|discriminate].
      apply pad_loop_last_good_label in Hpre as [[=]|(r' & label & ? & ? & ->)].
      eauto.
    + cbn [andb] in Hstep. destruct lgl as [l|]; [|discriminate].
      apply pad_loop_last_good_label in Hpre as [[=]|(r' & label & ? & ? & ->)].
      eauto.
  - intros Hne Hall.
    destruct (collect_strain_entries (reverse ranks) ∅ []) as (av & tax & Hc & Hk & Htax).
    + by apply Forall_reverse.
    + intros k [? Hk]. by rewrite lookup_empty in Hk.
    + unfold _pad_ranks, _pad_ranks_entries. rewrite Hc, bind_Ok.
      assert (av !! "s" = None) as Hs.
      { destruct (av !! "s") eqn:E; [|done].
        assert (1 < len "s") as Hl by (apply Hk; eauto). by compute in Hl. }
      assert (tax <> []) as Hnil.
      { apply Htax. left. intros Hrev. apply Hne.
        apply (f_equal reverse) in Hrev. by rewrite reverse_involutive in Hrev. }
      change (reverse order) with ["s"; "g"; "f"; "o"; "c"; "p"; "k"; "d"].
      assert (pad_step av (tax, None) "s" = Raise UnboundLocalError) as Hstep.
      { unfold pad_step. rewrite Hs. by destruct tax. }
      cbn [pad_loop]. by rewrite Hstep.
Qed.

Lemma pad_ranks_last_good_label_unbound_witness :
  _pad_ranks ["s1__X"] = Raise UnboundLocalError.
Proof.
  apply (pad_ranks_last_good_label_unbound ["s1__X"]); [done|].
  repeat constructor. exists "s1", "X". by vm_compute.
Defined.

Lemma join_cons2 sep x y l :
  join sep (x :: y :: l) = x +:+ sep +:+ join sep (y :: l).
Proof. reflexivity. Qed.

(** C7. When [k] is absent, [d] is [Bacteria] or [Archaea] and a strain
    entry or a rank below the kingdom has produced output, the taxonomy
    string that [_pad_ranks] returns has [k__] followed by the label of
    the domain in the kingdom slot, right after the domain entry. *)
Theorem pad_ranks_kingdom_mirrors_domain
    (ranks : list string) (available : gmap string string)
    (strains : list string) (domain s : string) :
  collect (∅, []) (reverse ranks) = Ok (available, strains) ->
  available !! "k" = None ->
  available !! "d" = Some domain ->
  domain = "Bacteria" \/ domain = "Archaea" ->
  strains <> []
  \/ (exists r, r ∈ ["s"; "g"; "f"; "o"; "c"; "p"] /\ is_Some (available !! r)) ->
  _pad_ranks ranks = Ok s ->
  exists deeper,
    deeper <> []
    /\ _pad_ranks_entries ranks
       = Ok (("d" +:+ "__" +:+ domain) :: ("k__" +:+ domain) :: deeper)
    /\ s = ("d" +:+ "__" +:+ domain) +:+ ";"
           +:+ ("k__" +:+ domain) +:+ ";" +:+ join ";" deeper.
Proof.
  intros Hcol Hk Hd Hdom Hout Hret.
  unfold _pad_ranks in Hret. inv_bind Hret. injection Hret as <-.
  rename a into entries, Ha into Hent.
  assert (exists deeper, deeper <> [] /\
            entries = ("d" +:+ "__" +:+ domain) :: ("k__" +:+ domain) :: deeper)
    as (deeper & Hne & ->).
  { unfold _pad_ranks_entries in Hent. rewrite Hcol, bind_Ok in Hent.
    change (reverse order) with (["s"; "g"; "f"; "o"; "c"; "p"] ++ ["k"; "d"]) in Hent.
    rewrite pad_loop_app in Hent. inv_bind Hent. destruct a as [taxonomy lgl].
    injection Hent as <-. rename Ha into Hent.
    inv_bind Hent. destruct a as [tax6 lgl6].
    apply pad_loop_extends in Ha as (ext & -> & Hext).
    assert (strains ++ ext <> []) as Hne.
    { intros Happ. apply app_eq_nil in Happ as [-> ->].
      apply Hext; [|done]. destruct Hout as [?|?]; [done | by left]. }
    destruct (strains ++ ext) as [|x tax] eqn:Htax; [done|].
    assert (pad_step available (x :: tax, lgl6) "k"
            = Ok ((x :: tax) ++ ["k__" +:+ domain], lgl6)) as Hstepk.
    { unfold pad_step. rewrite Hk, Hd.
      rewrite bool_decide_eq_true_2
        by (destruct Hdom as [-> | ->]; [by left | by right]).
      reflexivity. }
    assert (forall t l, pad_step available (t, l) "d"
            = Ok (t ++ ["d" +:+ "__" +:+ domain], Some ("d" +:+ "__" +:+ domain)))
      as Hstepd.
    { intros t l. unfold pad_step. by rewrite Hd. }
    cbn [pad_loop] in Hent. rewrite Hstepk, bind_Ok, Hstepd, bind_Ok in Hent.
    injection Hent as <- _. exists (reverse (x :: tax)). split.
    - intros Hrev. apply (f_equal reverse) in Hrev.
      by rewrite reverse_involutive in Hrev.
    - change (x :: (tax ++ ["k__" +:+ domain]) ++ ["d" +:+ "__" +:+ domain])
        with (((x :: tax) ++ ["k__" +:+ domain]) ++ ["d" +:+ "__" +:+ domain]).
      by rewrite !reverse_app. }
  exists deeper. split; [done|]. split; [done|].
  destruct deeper as [|z deeper]; [done|]. by rewrite !join_cons2.
Qed.

Lemma pad_ranks_kingdom_mirrors_domain_witness :
  exists deeper,
    deeper <> []
    /\ _pad_ranks_entries ["d__Archaea"; "p__Euryarchaeota"; "s__Mb"]
       = Ok (("d" +:+ "__" +:+ "Archaea") :: ("k__" +:+ "Archaea") :: deeper)
    /\ "d__Archaea;k__Archaea;p__Euryarchaeota;c__containing s__Mb;o__containing s__Mb;f__containing s__Mb;g__containing s__Mb;s__Mb"
       = ("d" +:+ "__" +:+ "Archaea") +:+ ";"
           +:+ ("k__" +:+ "Archaea") +:+ ";" +:+ join ";" deeper.
Proof.
  apply (pad_ranks_kingdom_mirrors_domain
           ["d__Archaea"; "p__Euryarchaeota"; "s__Mb"]
           (<["d" := "Archaea"]> (<["p" := "Euryarchaeota"]> (<["s" := "Mb"]> ∅)))
           [] "Archaea").
  - by vm_compute.
  - by vm_compute.
  - by vm_compute.
  - by right.
  - right. exists "s". split; [apply elem_of_cons; by left | exists "Mb"; by vm_compute].
  - by vm_compute.
Defined.

(** ** [_pad_ranks]: the split at the first double underscore *)

Lemma split_dunder_cons c s :
  split_dunder (String c s)
  = match (if Ascii.eqb c "_"
           then match s with
                | String c' rest => if Ascii.eqb c' "_" then Some rest else None
                | EmptyString => None
                end
           else None) with
    | Some rest => Some (EmptyString, rest)
    | None =>
        match split_dunder s with
        | Some (a, b) => Some (String c a, b)
        | None => None
        end
    end.
Proof.
  destruct c as [[] [] [] [] [] [] [] []]; try reflexivity;
    destruct s as [|[[] [] [] [] [] [] [] []] rest]; reflexivity.
Qed.

Lemma append_String c a b : String c a +:+ b = String c (a +:+ b).
Proof. reflexivity. Qed.

Lemma split_dunder_Some s : forall a b,
  split_dunder s = Some (a, b) -> s = a +:+ "__" +:+ b.
Proof.
  induction s as [|c s IH]; intros a b; [done|].
  rewrite split_dunder_cons.
  destruct (Ascii.eqb_spec c "_") as [->|Hc].
  - destruct s as [|c' rest].
    + cbn. done.
    + destruct (Ascii.eqb_spec c' "_") as [->|Hc'].
      * by intros [= <- <-].
      * destruct (split_dunder (String c' rest)) as [[a' b']|]; [|done].
        intros [= <- <-]. rewrite append_String. f_equal. by apply IH.
  - destruct (split_dunder s) as [[a' b']|]; [|done].
    intros [= <- <-]. rewrite append_String. f_equal. by apply IH.
Qed.

Lemma split_dunder_is_Some a b : is_Some (split_dunder (a +:+ "__" +:+ b)).
Proof.
  induction a as [|c a IH]; [by eexists|].
  rewrite append_String, split_dunder_cons. destruct IH as [[a' b'] ->].
  destruct (if Ascii.eqb c "_" then _ else _); by eexists.
Qed.

Lemma split_dunder_None s :
  split_dunder s = None <-> ~ exists a b, s = a +:+ "__" +:+ b.
Proof.
  split.
  - intros H (a & b & ->). destruct (split_dunder_is_Some a b) as [? ?]. congruence.
  - intros H. destruct (split_dunder s) as [[a b]|] eqn:E; [|done].
    destruct H. exists a, b. by apply split_dunder_Some.
Qed.

(** A key of the ontology is one letter, so the split of [r__label] at
    the first double underscore gives back [r] and [label]. *)
Lemma split_dunder_order r label :
  r ∈ order -> split_dunder (r +:+ "__" +:+ label) = Some (r, label).
Proof.
  unfold order. intros H.
  repeat (apply elem_of_cons in H as [->|H]; [reflexivity|]).
  by apply elem_of_nil in H.
Qed.

(** ** [_pad_ranks]: the errors *)

Lemma collect_app ranks1 ranks2 : forall st,
  collect st (ranks1 ++ ranks2) = (st' ← collect st ranks1; collect st' ranks2).
Proof.
  induction ranks1 as [|rank ranks1 IH]; intros st; [reflexivity|].
  cbn [app collect]. destruct (collect_step st rank) as [st'|e]; [|reflexivity].
  rewrite !bind_Ok. apply IH.
Qed.

Lemma collect_step_Ok available taxonomy rank st :
  collect_step (available, taxonomy) rank = Ok st ->
  exists r label, split_dunder rank = Some (r, label)
    /\ st = (<[r := label]> available,
             if (1 <? len r) && startswith "s" r then taxonomy ++ [rank]
             else taxonomy).
Proof.
  unfold collect_step. destruct (split_dunder rank) as [[r label]|]; [|done].
  exists r, label. split; [done|].
  destruct (_ && _); by injection H as <-.
Qed.

Lemma collect_step_Raise st rank e :
  collect_step st rank = Raise e -> e = ValueError /\ split_dunder rank = None.
Proof.
  destruct st as [available taxonomy]. unfold collect_step.
  destruct (split_dunder rank) as [[r label]|].
  - by destruct (_ && _).
  - by intros [= <-].
Qed.

Lemma collect_Raise ranks : forall st e,
  collect st ranks = Raise e ->
  e = ValueError /\ exists rank, rank ∈ ranks /\ split_dunder rank = None.
Proof.
  induction ranks as [|rank ranks IH]; intros st e; [done|].
  cbn [collect]. destruct (collect_step st rank) as [st'|e'] eqn:E.
  - rewrite bind_Ok. intros H. apply IH in H as (-> & rank' & Hin & Hnone).
    split; [done|]. exists rank'. split; [by apply elem_of_cons; right | done].
  - rewrite bind_Raise. intros [= <-].
    apply collect_step_Raise in E as [-> Hnone].
    split; [done|]. exists rank. split; [by apply elem_of_cons; left | done].
Qed.

Lemma collect_ValueError ranks rank : forall st,
  rank ∈ ranks -> split_dunder rank = None ->
  collect st ranks = Raise ValueError.
Proof.
  induction ranks as [|x ranks IH]; intros st Hin Hnone.
  - by apply elem_of_nil in Hin.
  - cbn [collect]. destruct (collect_step st x) as [st'|e] eqn:E.
    + rewrite bind_Ok. apply IH; [|done].
      apply elem_of_cons in Hin as [->|Hin]; [|done].
      destruct st as [av tax]. apply collect_step_Ok in E as (r & l & E & _).
      congruence.
    + apply collect_step_Raise in E as [-> _]. reflexivity.
Qed.

Lemma pad_step_Raise available st r e :
  pad_step available st r = Raise e -> e = UnboundLocalError.
Proof.
  destruct st as [taxonomy lgl]. unfold pad_step.
  destruct (available !! r); [done|]. destruct taxonomy; [done|].
  destruct (_ && _); [done|]. destruct lgl; [done|]. by intros [= <-].
Qed.

Lemma pad_loop_Raise available rs : forall st e,
  pad_loop available st rs = Raise e -> e = UnboundLocalError.
Proof.
  induction rs as [|r rs IH]; intros st e; [done|].
  cbn [pad_loop]. destruct (pad_step available st r) as [st'|e'] eqn:E.
  - rewrite bind_Ok. apply IH.
  - rewrite bind_Raise. intros [= <-]. by apply pad_step_Raise in E.
Qed.

(** [_pad_ranks] raises nothing but these two errors. *)
Lemma pad_ranks_raises ranks e :
  _pad_ranks ranks = Raise e ->
  e = UnboundLocalError
  \/ (e = ValueError /\ exists rank, rank ∈ ranks /\ split_dunder rank = None).
Proof.
  unfold _pad_ranks, _pad_ranks_entries.
  destruct (collect (∅, []) (reverse ranks)) as [[available taxonomy]|e1] eqn:E1.
  - rewrite bind_Ok.
    destruct (pad_loop available (taxonomy, None) (reverse order))
      as [[taxonomy' lgl]|e2] eqn:E2; [done|].
    apply pad_loop_Raise in E2 as ->. rewrite !bind_Raise. intros [= <-]. by left.
  - rewrite !bind_Raise. intros [= <-].
    apply collect_Raise in E1 as (-> & rank & Hin & Hnone).
    right. split; [done|]. exists rank. by rewrite elem_of_reverse in Hin.
Qed.

(** X1. [_pad_ranks] raises [ValueError] exactly when one of the entries of
    the path has no double underscore: the unpacking of the split of
    line 120 fails, before anything is padded. *)
Theorem pad_ranks_ValueError (ranks : list string) :
  _pad_ranks ranks = Raise ValueError
  <-> exists rank, rank ∈ ranks /\ ~ exists r label, rank = r +:+ "__" +:+ label.
Proof.
  unfold _pad_ranks, _pad_ranks_entries. split.
  - destruct (collect (∅, []) (reverse ranks)) as [[available taxonomy]|e] eqn:E.
    + rewrite bind_Ok.
      destruct (pad_loop available (taxonomy, None) (reverse order))
        as [[taxonomy' lgl]|e] eqn:E'; [done|].
      apply pad_loop_Raise in E' as ->. done.
    + intros _. apply collect_Raise in E as (_ & rank & Hin & Hnone).
      exists rank. split; [by rewrite elem_of_reverse in Hin|].
      by apply split_dunder_None.
  - intros (rank & Hin & Hnone).
    rewrite (collect_ValueError (reverse ranks) rank); [done| |].
    + by rewrite elem_of_reverse.
    + by apply split_dunder_None.
Qed.

(** ** [_pad_ranks]: what the first loop collects *)

(** The test of line 122 on an entry of the path. *)
Definition is_strain (rank : string) : bool :=
  match split_dunder rank with
  | Some (r, _) => (1 <? len r) && startswith "s" r
  | None => false
  end.

Lemma collect_taxonomy ranks : forall available taxonomy available' taxonomy',
  collect (available, taxonomy) ranks = Ok (available', taxonomy') ->
  taxonomy' = taxonomy ++ filter (fun rank => is_strain rank = true) ranks.
Proof.
  induction ranks as [|rank ranks IH]; intros av tax av' tax' H.
  - injection H as <- <-. by rewrite app_nil_r.
  - cbn [collect] in H. inv_bind H.
    apply collect_step_Ok in Ha as (r & label & Hsplit & ->).
    apply IH in H as ->. rewrite filter_cons.
    assert (is_strain rank = (1 <? len r) && startswith "s" r) as ->
      by (unfold is_strain; by rewrite Hsplit).
    destruct (_ && _).
    + rewrite decide_True by done. by rewrite <- app_assoc.
    + by rewrite decide_False by done.
Qed.

Lemma collect_lookup_None ranks r : forall available taxonomy available' taxonomy',
  collect (available, taxonomy) ranks = Ok (available', taxonomy') ->
  available' !! r = None
  <-> available !! r = None
      /\ forall rank label, rank ∈ ranks -> split_dunder rank <> Some (r, label).
Proof.
  induction ranks as [|rank ranks IH]; intros av tax av' tax' H.
  - injection H as <- <-. split; [|tauto].
    intros Hr. split; [done|]. intros rank label Hin. by apply elem_of_nil in Hin.
  - cbn [collect] in H. inv_bind H.
    apply collect_step_Ok in Ha as (r0 & label0 & Hsplit & ->).
    apply IH in H. rewrite H. clear H. rewrite lookup_insert_None. split.
    + intros [[Hav Hne] Hrest]. split; [done|].
      intros rank' label Hin. apply elem_of_cons in Hin as [->|Hin]; [|by apply Hrest].
      rewrite Hsplit. congruence.
    + intros [Hav Hall]. split; [split; [done|]|].
      * intros ->. apply (Hall rank label0); [by apply elem_of_cons; left | done].
      * intros rank' label Hin. apply Hall. by apply elem_of_cons; right.
Qed.

Lemma collect_lookup_ne ranks r : forall available taxonomy available' taxonomy',
  collect (available, taxonomy) ranks = Ok (available', taxonomy') ->
  (forall rank label, rank ∈ ranks -> split_dunder rank <> Some (r, label)) ->
  available' !! r = available !! r.
Proof.
  induction ranks as [|rank ranks IH]; intros av tax av' tax' H Hall.
  - by injection H as <- <-.
  - cbn [collect] in H. inv_bind H.
    apply collect_step_Ok in Ha as (r0 & label0 & Hsplit & ->).
    apply IH in H.
    2:{ intros rank' label Hin. apply Hall. by apply elem_of_cons; right. }
    rewrite H. apply lookup_insert_ne. intros ->.
    apply (Hall rank label0); [by apply elem_of_cons; left | done].
Qed.

(** X2. The dictionary [available] and the list of strain entries after the
    first loop.  The loop scans the path from its end, so of two entries
    with one key the label of the entry nearer the root is kept; the
    strain entries are collected from the end of the path backwards. *)
Theorem pad_ranks_first_label_wins (ranks : list string)
    (available : gmap string string) (strains : list string) :
  collect (∅, []) (reverse ranks) = Ok (available, strains) ->
  strains = reverse (filter (fun rank => is_strain rank = true) ranks)
  /\ (forall r, available !! r = None
                <-> forall rank label, rank ∈ ranks ->
                                       split_dunder rank <> Some (r, label))
  /\ (forall pre rank post r label,
        ranks = pre ++ rank :: post ->
        split_dunder rank = Some (r, label) ->
        (forall x l, x ∈ pre -> split_dunder x <> Some (r, l)) ->
        available !! r = Some label).
Proof.
  intros H. split; [|split].
  - apply collect_taxonomy in H as ->. by rewrite filter_reverse.
  - intros r. rewrite (collect_lookup_None _ r _ _ _ _ H), lookup_empty.
    split.
    + intros [_ Hall] rank label Hin. apply Hall. by rewrite elem_of_reverse.
    + intros Hall. split; [done|]. intros rank label Hin. apply Hall.
      by rewrite elem_of_reverse in Hin.
  - intros pre rank post r label -> Hsplit Hpre.
    rewrite reverse_app, reverse_cons, <- app_assoc, collect_app in H.
    inv_bind H. destruct a as [av1 tax1].
    cbn [app collect] in H. inv_bind H.
    apply collect_step_Ok in Ha0 as (r' & label' & Hsplit' & ->).
    rewrite Hsplit in Hsplit'. injection Hsplit' as <- <-.
    apply (collect_lookup_ne _ r) in H.
    + rewrite H. apply lookup_insert_eq.
    + intros x l Hin. apply Hpre. by rewrite elem_of_reverse in Hin.
Qed.

Lemma pad_ranks_first_label_wins_witness :
  [] = reverse (filter (fun rank => is_strain rank = true) ["g__Homo"; "g__Pan"])
  /\ (forall r, (<["g" := "Homo"]> (<["g" := "Pan"]> ∅) : gmap string string) !! r = None
                <-> forall rank label, rank ∈ ["g__Homo"; "g__Pan"] ->
                                       split_dunder rank <> Some (r, label))
  /\ (forall pre rank post r label,
        ["g__Homo"; "g__Pan"] = pre ++ rank :: post ->
        split_dunder rank = Some (r, label) ->
        (forall x l, x ∈ pre -> split_dunder x <> Some (r, l)) ->
        (<["g" := "Homo"]> (<["g" := "Pan"]> ∅) : gmap string string) !! r
        = Some label).
Proof.
  apply (pad_ranks_first_label_wins ["g__Homo"; "g__Pan"]).
  by vm_compute.
Defined.

(** ** [_pad_ranks]: what the second loop emits *)

Section PadEntries.

Variable available : gmap string string.

(** The entries the loop over [rs] appends: nothing for the ranks scanned
    while nothing is available and nothing was emitted, then one entry
    [r__...] per rank. *)
Lemma pad_loop_shape rs : forall taxonomy lgl taxonomy' lgl',
  pad_loop available (taxonomy, lgl) rs = Ok (taxonomy', lgl') ->
  exists skipped emitted new,
    rs = skipped ++ emitted
    /\ taxonomy' = taxonomy ++ new
    /\ Forall2 (fun r entry => exists label, entry = r +:+ "__" +:+ label)
         emitted new
    /\ (taxonomy <> [] -> skipped = []).
Proof.
  induction rs as [|r rs IH]; intros taxonomy lgl taxonomy' lgl' H.
  - injection H as <- <-. exists [], [], [].
    split; [done|]. split; [by rewrite app_nil_r|]. split; [constructor | done].
  - cbn [pad_loop] in H. inv_bind H. destruct a as [tax1 lgl1].
    apply IH in H as (skipped & emitted & new & -> & -> & Hall & Hskip).
    unfold pad_step in Ha.
    assert (forall e, (exists label, e = r +:+ "__" +:+ label) ->
              tax1 = taxonomy ++ [e] ->
              exists skipped0 emitted0 new0,
                r :: skipped ++ emitted = skipped0 ++ emitted0
                /\ tax1 ++ new = taxonomy ++ new0
                /\ Forall2 (fun r entry => exists label, entry = r +:+ "__" +:+ label)
                     emitted0 new0
                /\ (taxonomy <> [] -> skipped0 = [])) as Hemit.
    { intros e He ->. rewrite Hskip by (by destruct taxonomy).
      exists [], (r :: emitted), (e :: new). rewrite <- app_assoc.
      split; [done|]. split; [done|]. split; [by constructor | done]. }
    destruct (available !! r) as [label|].
    + injection Ha as <- <-. apply (Hemit (r +:+ "__" +:+ label)); eauto.
    + destruct taxonomy as [|x taxonomy].
      * injection Ha as <- <-.
        exists (r :: skipped), emitted, new.
        split; [done|]. split; [done|]. split; done.
      * destruct (String.eqb_spec r "k") as [->|Hrk]; cbn [andb] in Ha.
        -- destruct (bool_decide _).
           ++ injection Ha as <- <-.
              apply (Hemit ("k__" +:+ default "" (available !! "d"))); [|done].
              by exists (default "" (available !! "d")).
           ++ destruct lgl as [l|]; [|done]. injection Ha as <- <-.
              apply (Hemit ("k" +:+ "__containing " +:+ l)); [|done].
              by exists ("containing " +:+ l).
        -- destruct lgl as [l|]; [|done]. injection Ha as <- <-.
           apply (Hemit (r +:+ "__containing " +:+ l)); [|done].
           exists ("containing " +:+ l). clear.
           induction r as [|c r IHr]; [reflexivity|].
           rewrite !append_String. by f_equal.
Qed.

(** Once something was emitted, every rank scanned appends one entry. *)
Lemma pad_loop_length rs : forall taxonomy lgl taxonomy' lgl',
  taxonomy <> [] ->
  pad_loop available (taxonomy, lgl) rs = Ok (taxonomy', lgl') ->
  exists ext, taxonomy' = taxonomy ++ ext /\ List.length ext = List.length rs.
Proof.
  induction rs as [|r rs IH]; intros taxonomy lgl taxonomy' lgl' Hne H.
  - injection H as <- <-. exists []. by rewrite app_nil_r.
  - cbn [pad_loop] in H. inv_bind H. destruct a as [tax1 lgl1].
    assert (exists e, tax1 = taxonomy ++ [e]) as [e ->].
    { unfold pad_step in Ha. destruct (available !! r).
      - injection Ha as <- _. eauto.
      - destruct taxonomy as [|x taxonomy]; [done|].
        destruct (_ && _); [injection Ha as <- _; eauto|].
        destruct lgl; [|done]. injection Ha as <- _. eauto. }
    apply IH in H as (ext & -> & Hlen); [|by destruct taxonomy].
    exists (e :: ext). rewrite <- app_assoc. split; [done|]. cbn. by rewrite Hlen.
Qed.

(** Unavailable ranks leave [last_good_label] as it is. *)
Lemma pad_loop_gap rs : forall taxonomy lgl taxonomy' lgl',
  Forall (fun r => available !! r = None) rs ->
  pad_loop available (taxonomy, lgl) rs = Ok (taxonomy', lgl') ->
  lgl' = lgl /\ (taxonomy <> [] -> taxonomy' <> []).
Proof.
  induction rs as [|r rs IH]; intros taxonomy lgl taxonomy' lgl' Hall H.
  - by injection H as <- <-.
  - apply Forall_cons in Hall as [Hr Hall].
    cbn [pad_loop] in H. inv_bind H. destruct a as [tax1 lgl1].
    apply IH in H as [-> Hne]; [|done].
    unfold pad_step in Ha. rewrite Hr in Ha.
    destruct taxonomy as [|x taxonomy]; [by injection Ha as <- <-|].
    destruct (_ && _).
    + injection Ha as <- <-. split; [done|]. intros _. apply Hne.
      by destruct taxonomy.
    + destruct lgl; [|done]. injection Ha as <- <-. split; [done|].
      intros _. apply Hne. by destruct taxonomy.
Qed.

End PadEntries.

Lemma lookup_reverse_middle {A} (t ext : list A) (e : A) (n : nat) :
  List.length ext = n -> reverse ((t ++ [e]) ++ ext) !! n = Some e.
Proof.
  intros <-. rewrite 2!reverse_app. change (reverse [e]) with [e]. cbn [app].
  rewrite <- (length_reverse ext). by apply list_lookup_middle.
Qed.

(** X3. The entries [_pad_ranks] joins are in the order of the ontology: one
    entry [r__...] for each rank from [d] down to the most specific rank
    that has output, then the strain entries of the path, in the order
    of the path.  With a strain entry all eight ranks have an entry. *)
Theorem pad_ranks_entries_in_order (ranks entries : list string) :
  _pad_ranks_entries ranks = Ok entries ->
  exists padded,
    entries = padded ++ filter (fun rank => is_strain rank = true) ranks
    /\ Forall2 (fun r entry => exists label, entry = r +:+ "__" +:+ label)
         (take (List.length padded) order) padded
    /\ (filter (fun rank => is_strain rank = true) ranks <> [] ->
        List.length padded = 8%nat).
Proof.
  unfold _pad_ranks_entries. intros H. inv_bind H. destruct a as [available strains].
  inv_bind H. destruct a as [taxonomy lgl]. injection H as <-.
  apply collect_taxonomy in Ha. cbn [app] in Ha. rewrite filter_reverse in Ha.
  apply pad_loop_shape in Ha0 as (skipped & emitted & new & Horder & -> & Hall & Hskip).
  assert (order = reverse emitted ++ reverse skipped) as Horder'.
  { by rewrite <- reverse_app, <- Horder, reverse_involutive. }
  exists (reverse new). rewrite reverse_app, Ha, reverse_involutive.
  split; [done|]. split.
  - rewrite Horder', take_app_length'.
    + by apply Forall2_reverse.
    + rewrite !length_reverse. symmetry. by apply Forall2_length in Hall.
  - intros Hne. rewrite length_reverse, <- (Forall2_length _ _ _ Hall).
    rewrite Hskip in Horder.
    + cbn [app] in Horder. by rewrite <- Horder.
    + rewrite Ha. intros Hrev. apply Hne.
      apply (f_equal reverse) in Hrev. by rewrite reverse_involutive in Hrev.
Qed.

Lemma pad_ranks_entries_in_order_witness :
  exists padded,
    ["d__Eukaryota"; "k__Fungi"; "p__containing g__Candida";
     "c__containing g__Candida"; "o__containing g__Candida";
     "f__containing g__Candida"; "g__Candida"]
    = padded ++ filter (fun rank => is_strain rank = true)
                  ["d__Eukaryota"; "k__Fungi"; "g__Candida"]
    /\ Forall2 (fun r entry => exists label, entry = r +:+ "__" +:+ label)
         (take (List.length padded) order) padded
    /\ (filter (fun rank => is_strain rank = true)
          ["d__Eukaryota"; "k__Fungi"; "g__Candida"] <> [] ->
        List.length padded = 8%nat).
Proof.
  apply (pad_ranks_entries_in_order ["d__Eukaryota"; "k__Fungi"; "g__Candida"]).
  by vm_compute.
Defined.

(** X4. A rank of the ontology that the path names is emitted as it is,
    [r__label], at the place of the rank in the ontology. *)
Theorem pad_ranks_available_rank_kept (ranks : list string)
    (available : gmap string string) (strains entries above below : list string)
    (r label : string) :
  collect (∅, []) (reverse ranks) = Ok (available, strains) ->
  _pad_ranks_entries ranks = Ok entries ->
  order = above ++ r :: below ->
  available !! r = Some label ->
  entries !! List.length above = Some (r +:+ "__" +:+ label).
Proof.
  intros Hcol H Horder Hr. unfold _pad_ranks_entries in H.
  rewrite Hcol, bind_Ok, Horder, reverse_app, reverse_cons, <- app_assoc in H.
  rewrite pad_loop_app in H. inv_bind H. destruct a as [taxonomy lgl].
  injection H as <-. inv_bind Ha. destruct a as [tax1 lgl1].
  cbn [app pad_loop] in Ha. inv_bind Ha. destruct a as [tax2 lgl2].
  unfold pad_step in Ha1. rewrite Hr in Ha1. injection Ha1 as <- <-.
  apply pad_loop_length in Ha as (ext & -> & Hlen); [|by destruct tax1].
  apply lookup_reverse_middle. by rewrite Hlen, length_reverse.
Qed.

Lemma pad_ranks_available_rank_kept_witness :
  ["d__Eukaryota"; "k__Fungi"; "p__containing g__Candida";
   "c__containing g__Candida"; "o__containing g__Candida";
   "f__containing g__Candida"; "g__Candida"] !! List.length ["d"]
  = Some ("k" +:+ "__" +:+ "Fungi").
Proof.
  apply (pad_ranks_available_rank_kept
           ["d__Eukaryota"; "k__Fungi"; "g__Candida"]
           (<["d" := "Eukaryota"]> (<["k" := "Fungi"]> (<["g" := "Candida"]> ∅)))
           [] _ ["d"] ["p"; "c"; "o"; "f"; "g"; "s"] "k" "Fungi");
    by vm_compute.
Defined.

(** X5. A rank of the ontology that the path lacks, above a rank it names,
    is emitted as [r__containing ] followed by the entry of the nearest
    more specific rank the path names; the kingdom below a bacterial or
    archaeal domain is the exception. *)
Theorem pad_ranks_gap_filled_from_below (ranks : list string)
    (available : gmap string string)
    (strains entries above gap below : list string) (r r' label : string) :
  collect (∅, []) (reverse ranks) = Ok (available, strains) ->
  _pad_ranks_entries ranks = Ok entries ->
  order = above ++ r :: gap ++ r' :: below ->
  available !! r = None ->
  Forall (fun x => available !! x = None) gap ->
  available !! r' = Some label ->
  ~ (r = "k" /\ (available !! "d" = Some "Bacteria"
                 \/ available !! "d" = Some "Archaea")) ->
  entries !! List.length above
  = Some (r +:+ "__containing " +:+ r' +:+ "__" +:+ label).
Proof.
  intros Hcol H Horder Hr Hgap Hr' Hnotk. unfold _pad_ranks_entries in H.
  rewrite Hcol, bind_Ok, Horder in H.
  rewrite reverse_app, reverse_cons, reverse_app, reverse_cons in H.
  rewrite <- !app_assoc, pad_loop_app in H.
  inv_bind H. destruct a as [taxonomy lgl]. injection H as <-.
  inv_bind Ha. destruct a as [tax1 lgl1].
  cbn [app pad_loop] in Ha. inv_bind Ha. destruct a as [tax2 lgl2].
  unfold pad_step in Ha1. rewrite Hr' in Ha1. injection Ha1 as <- <-.
  rewrite pad_loop_app in Ha. inv_bind Ha. destruct a as [tax3 lgl3].
  apply pad_loop_gap in Ha1 as [-> Hne]; [|by apply Forall_reverse].
  cbn [app pad_loop] in Ha. inv_bind Ha. destruct a as [tax4 lgl4].
  unfold pad_step in Ha1. rewrite Hr in Ha1.
  destruct tax3 as [|x tax3]; [destruct Hne; [by destruct tax1 | done]|].
  assert (String.eqb r "k" &&
          bool_decide (available !! "d" = Some "Bacteria"
                       \/ available !! "d" = Some "Archaea") = false) as Hb.
  { destruct (String.eqb_spec r "k") as [->|]; [|done]. cbn [andb].
    apply bool_decide_eq_false_2. tauto. }
  rewrite Hb in Ha1. injection Ha1 as <- <-.
  apply pad_loop_length in Ha as (ext & -> & Hlen); [|done].
  apply (lookup_reverse_middle (x :: tax3)). by rewrite Hlen, length_reverse.
Qed.

Lemma pad_ranks_gap_filled_from_below_witness :
  ["d__Eukaryota"; "k__Fungi"; "p__containing g__Candida";
   "c__containing g__Candida"; "o__containing g__Candida";
   "f__containing g__Candida"; "g__Candida"] !! List.length ["d"; "k"; "p"]
  = Some ("c" +:+ "__containing " +:+ "g" +:+ "__" +:+ "Candida").
Proof.
  apply (pad_ranks_gap_filled_from_below
           ["d__Eukaryota"; "k__Fungi"; "g__Candida"]
           (<["d" := "Eukaryota"]> (<["k" := "Fungi"]> (<["g" := "Candida"]> ∅)))
           [] _ ["d"; "k"; "p"] ["o"; "f"] ["s"] "c" "g" "Candida");
    try by vm_compute.
  - repeat constructor.
  - by intros [[=] _].
Defined.

(** X6. A path that names the ranks of the ontology from the domain down,
    in order and without a gap, is returned as it is, joined by [;]. *)
Theorem pad_ranks_complete_path (labels : list string) :
  _pad_ranks (zip_with (fun r label => r +:+ "__" +:+ label) order labels)
  = Ok (join ";" (zip_with (fun r label => r +:+ "__" +:+ label) order labels)).
Proof.
  destruct labels as [|l0 [|l1 [|l2 [|l3 [|l4 [|l5 [|l6 [|l7 rest]]]]]]]];
    by vm_compute.
Qed.

(** ** Trees as heaps of objects *)

Module TreeFacts.
Import TreeNode.

(** Induction on a tree with the hypothesis on all children. *)
Lemma t_ind' (P : t -> Prop) :
  (forall i s l b cs, Forall P cs -> P (Node i s l b cs)) ->
  forall n, P n.
Proof.
  intros H. fix IH 1. intros [i s l b cs]. apply H.
  induction cs as [|c cs IHcs]; constructor; [apply IH | apply IHcs].
Qed.

(** The identities of the objects of a tree. *)
Definition oids (n : t) : list nat := oid <$> postorder n.

Definition oids_in (cs : list t) : list nat := oid <$> concat (map postorder cs).

(** The first object [i] among the trees [cs]. *)
Fixpoint get_in (i : nat) (cs : list t) : option t :=
  match cs with
  | [] => None
  | c :: cs' =>
      match get i c with
      | Some r => Some r
      | None => get_in i cs'
      end
  end.

Lemma get_unfold i n :
  get i n = if decide (oid n = i) then Some n else get_in i (children n).
Proof.
  destruct n as [j s l b cs]. cbn [get oid children].
  destruct (decide (j = i)); [done|]. by induction cs as [|c cs ->].
Qed.

Lemma update_unfold i f j s l b cs :
  update i f (Node j s l b cs)
  = if decide (j = i) then f (Node j s l b (map (update i f) cs))
    else Node j s l b (map (update i f) cs).
Proof. reflexivity. Qed.

Lemma oids_unfold n : oids n = oids_in (children n) ++ [oid n].
Proof.
  destruct n as [j s l b cs]. unfold oids, oids_in. cbn [postorder children oid].
  by rewrite fmap_app.
Qed.

Lemma oids_in_cons c cs : oids_in (c :: cs) = oids c ++ oids_in cs.
Proof. unfold oids_in, oids. cbn [map concat]. by rewrite fmap_app. Qed.

Lemma oids_in_app cs1 cs2 : oids_in (cs1 ++ cs2) = oids_in cs1 ++ oids_in cs2.
Proof.
  induction cs1 as [|c cs1 IH]; [done|].
  cbn [app]. by rewrite !oids_in_cons, IH, app_assoc.
Qed.

Lemma elem_of_oids n x :
  x ∈ oids n <-> x = oid n \/ x ∈ oids_in (children n).
Proof.
  rewrite oids_unfold, elem_of_app, list_elem_of_singleton. tauto.
Qed.

Lemma elem_of_oids_in cs x :
  x ∈ oids_in cs <-> exists c, c ∈ cs /\ x ∈ oids c.
Proof.
  induction cs as [|c cs IH].
  - split; [intros H; by apply elem_of_nil in H|].
    intros (c & H & _). by apply elem_of_nil in H.
  - rewrite oids_in_cons, elem_of_app, IH. split.
    + intros [H|(c' & Hc' & H)]; [exists c | exists c'];
        (split; [|done]); apply elem_of_cons; auto.
    + intros (c' & Hc' & H). apply elem_of_cons in Hc' as [->|Hc']; eauto.
Qed.

Lemma get_oid i n m : get i n = Some m -> oid m = i.
Proof.
  revert m. induction n as [j s l b cs IH] using t_ind'. intros m.
  rewrite get_unfold. cbn [oid children].
  destruct (decide (j = i)) as [->|Hne]; [by intros [= <-]|].
  induction IH as [|c cs Hc _ IHcs]; [done|].
  cbn [get_in]. destruct (get i c) eqn:E; [intros [= <-]; by apply Hc | done].
Qed.

Lemma get_None i n : get i n = None <-> i ∉ oids n.
Proof.
  induction n as [j s l b cs IH] using t_ind'.
  rewrite get_unfold, elem_of_oids. cbn [oid children].
  destruct (decide (j = i)) as [->|Hne].
  - split; [done|]. intros H. destruct H. by left.
  - assert (get_in i cs = None <-> i ∉ oids_in cs) as ->.
    { induction IH as [|c cs Hc _ IHcs].
      - split; [intros _ H; by apply elem_of_nil in H | done].
      - cbn [get_in]. rewrite oids_in_cons, not_elem_of_app, <- Hc, <- IHcs.
        destruct (get i c); split; try done; intros [? ?]; done. }
    split; [intros H [?|?]; [congruence | done] | tauto].
Qed.

Lemma get_is_Some i n : is_Some (get i n) <-> i ∈ oids n.
Proof.
  destruct (get i n) eqn:E.
  - split; [|eauto]. intros _. destruct (decide (i ∈ oids n)); [done|].
    apply get_None in n0. congruence.
  - apply get_None in E. split; [intros [? [=]] | done].
Qed.

Lemma get_in_None i cs : get_in i cs = None <-> i ∉ oids_in cs.
Proof.
  induction cs as [|c cs IH].
  - split; [intros _ H; by apply elem_of_nil in H | done].
  - cbn [get_in]. rewrite oids_in_cons, not_elem_of_app, <- get_None, <- IH.
    destruct (get i c); split; try done; intros [? ?]; done.
Qed.

Lemma get_in_app i cs1 cs2 :
  get_in i (cs1 ++ cs2)
  = match get_in i cs1 with Some r => Some r | None => get_in i cs2 end.
Proof.
  induction cs1 as [|c cs1 IH]; [done|].
  cbn [app get_in]. by destruct (get i c).
Qed.

(** The mutations [select.py] applies to an object keep its identity and
    its name, and add the children [extra] after those it has. *)
Definition extends_with (f : t -> t) (extra : list t) : Prop :=
  forall n, oid (f n) = oid n /\ name (f n) = name n
            /\ children (f n) = children n ++ extra.

Lemma set_is_actual_tip_extends b : extends_with (set_is_actual_tip b) [].
Proof. intros [j s l b' cs]. by rewrite app_nil_r. Qed.

Lemma add_child_extends c : extends_with (add_child c) [c].
Proof. by intros [j s l b' cs]. Qed.

Section Update.

Variables (y : nat) (f : t -> t) (extra : list t).
Hypothesis f_extends : extends_with f extra.

Lemma oid_update n : oid (update y f n) = oid n.
Proof.
  destruct n as [j s l b cs]. rewrite update_unfold.
  destruct (decide (j = y)); [|done]. by rewrite (proj1 (f_extends _)).
Qed.

Lemma name_update n : name (update y f n) = name n.
Proof.
  destruct n as [j s l b cs]. rewrite update_unfold.
  destruct (decide (j = y)); [|done].
  by rewrite (proj1 (proj2 (f_extends _))).
Qed.

Lemma children_update n :
  children (update y f n)
  = map (update y f) (children n) ++ (if decide (oid n = y) then extra else []).
Proof.
  destruct n as [j s l b cs]. rewrite update_unfold. cbn [oid].
  destruct (decide (j = y)).
  - by rewrite (proj2 (proj2 (f_extends _))).
  - by rewrite app_nil_r.
Qed.

Lemma elem_of_oids_update x n :
  x ∈ oids (update y f n)
  <-> x ∈ oids n \/ (y ∈ oids n /\ x ∈ oids_in extra).
Proof.
  induction n as [j s l b cs IH] using t_ind'.
  rewrite (elem_of_oids (update _ _ _)), oid_update, children_update.
  rewrite oids_in_app, elem_of_app. cbn [oid children].
  rewrite !(elem_of_oids (Node j s l b cs)). cbn [oid children].
  assert (x ∈ oids_in (map (update y f) cs)
          <-> x ∈ oids_in cs \/ (y ∈ oids_in cs /\ x ∈ oids_in extra)) as ->.
  { induction IH as [|c cs Hc _ IHcs].
    - cbn [map]. rewrite !elem_of_nil. tauto.
    - cbn [map]. rewrite !oids_in_cons, !elem_of_app, Hc, IHcs. tauto. }
  destruct (decide (j = y)) as [->|Hne].
  - tauto.
  - unfold oids_in at 3. cbn [map concat fmap list_fmap].
    rewrite elem_of_nil. intuition congruence.
Qed.

Lemma get_update x n :
  x ∉ oids_in extra ->
  get x (update y f n) = update y f <$> get x n.
Proof.
  intros Hx. induction n as [j s l b cs IH] using t_ind'.
  rewrite (get_unfold x (update _ _ _)), oid_update, children_update.
  rewrite (get_unfold x (Node j s l b cs)). cbn [oid children].
  destruct (decide (j = x)) as [->|Hne]; [done|].
  rewrite get_in_app.
  assert (get_in x (map (update y f) cs) = update y f <$> get_in x cs) as ->.
  { induction IH as [|c cs Hc _ IHcs]; [done|].
    cbn [map get_in]. rewrite Hc. destruct (get x c); [done|]. apply IHcs. }
  destruct (get_in x cs); [done|]. cbn [fmap option_fmap option_map].
  destruct (decide (j = y)); [by apply get_in_None | done].
Qed.

End Update.

(** The identities after a mutation, when no identity occurs twice. *)
Lemma oids_update_perm y f extra n :
  extends_with f extra ->
  NoDup (oids n) ->
  oids (update y f n)
  ≡ₚ oids n ++ (if decide (y ∈ oids n) then oids_in extra else []).
Proof.
  intros Hf. induction n as [j s l b cs IH] using t_ind'. intros Hnd.
  rewrite (oids_unfold (update _ _ _)), (oid_update _ _ _ Hf).
  rewrite (children_update _ _ _ Hf), oids_in_app.
  rewrite (oids_unfold (Node j s l b cs)) in Hnd |- *. cbn [oid children] in *.
  apply NoDup_app in Hnd as (Hcs & Hj & _).
  assert (j ∉ oids_in cs) as Hj'.
  { intros H. apply (Hj j H). by apply list_elem_of_singleton. }
  assert (oids_in (map (update y f) cs)
          ≡ₚ oids_in cs ++ (if decide (y ∈ oids_in cs) then oids_in extra else []))
    as ->.
  { clear Hj Hj'. induction IH as [|ch cs Hch _ IHcs].
    - rewrite decide_False by (intros H; by apply elem_of_nil in H). done.
    - rewrite oids_in_cons in Hcs. apply NoDup_app in Hcs as (Hnch & Hdisj & Hncs).
      cbn [map]. rewrite !oids_in_cons, (Hch Hnch), (IHcs Hncs).
      destruct (decide (y ∈ oids ch)) as [H1|H1],
        (decide (y ∈ oids_in cs)) as [H2|H2],
        (decide (y ∈ oids ch ++ oids_in cs)) as [H3|H3];
        rewrite elem_of_app in H3; try tauto;
        try (by destruct (Hdisj y));
        rewrite ?app_nil_r, <- ?app_assoc; try done.
      f_equiv. apply Permutation_app_comm. }
  destruct (decide (j = y)) as [->|Hne].
  - rewrite decide_False by done.
    rewrite decide_True by (rewrite elem_of_app, list_elem_of_singleton; auto).
    rewrite app_nil_r, <- !app_assoc. f_equiv. apply Permutation_app_comm.
  - destruct (decide (y ∈ oids_in cs)) as [H1|H1],
      (decide (y ∈ oids_in cs ++ [j])) as [H2|H2];
      rewrite elem_of_app, list_elem_of_singleton in H2;
      try (intuition congruence).
    + change (oids_in []) with (@nil nat). rewrite app_nil_r, <- !app_assoc.
      f_equiv. apply Permutation_app_comm.
    + change (oids_in []) with (@nil nat). by rewrite !app_nil_r.
Qed.

(** A new object appended below [p] is found where it was put. *)
Lemma get_append_new p c x n :
  x ∉ oids n ->
  get x (update p (add_child c) n)
  = if decide (p ∈ oids n) then get x c else None.
Proof.
  induction n as [j s l b cs IH] using t_ind'. intros Hx.
  rewrite (get_unfold x (update _ _ _)).
  rewrite (oid_update _ _ _ (add_child_extends c)).
  rewrite (children_update _ _ _ (add_child_extends c)).
  rewrite oids_unfold in Hx.
  apply not_elem_of_app in Hx as [Hcs Hj]. cbn [oid children] in *.
  rewrite list_elem_of_singleton in Hj.
  destruct (decide (j = x)) as [->|_]; [done|].
  rewrite get_in_app.
  assert (get_in x (map (update p (add_child c)) cs)
          = if decide (p ∈ oids_in cs) then get x c else None) as ->.
  { induction IH as [|ch cs Hc _ IHcs].
    - cbn. destruct (decide _) as [H|]; [by apply elem_of_nil in H | done].
    - rewrite oids_in_cons in Hcs. apply not_elem_of_app in Hcs as [Hch Hcs].
      cbn [map get_in]. rewrite (Hc Hch), (IHcs Hcs).
      destruct (decide (p ∈ oids ch)) as [Hp|Hp],
        (decide (p ∈ oids_in cs)) as [Hp'|Hp'],
        (decide (p ∈ oids_in (ch :: cs))) as [Hp''|Hp''];
        rewrite oids_in_cons, elem_of_app in Hp''; try tauto;
        by destruct (get x c). }
  destruct (decide (p ∈ oids_in cs)) as [Hp|Hp],
    (decide (p ∈ oids (Node j s l b cs))) as [Hp'|Hp'],
    (decide (j = p)) as [->|Hne];
    rewrite elem_of_oids in Hp'; cbn [oid children] in Hp';
    try (intuition congruence); cbn [get_in]; by destruct (get x c).
Qed.

End TreeFacts.

(** ** [_kraken_to_ncbi_tree]: the invariant of the loop *)

Module BuilderFacts.

(** The indentation of a row (line 64). *)
Definition row_indent (row : Row) : Z := _get_indentation (name row) 2.

(** The row is not skipped by the [continue] of line 62. *)
Definition row_kept (row : Row) : Prop := rank_skipped (rank row) = false.

(** The name of the rank node of a row (line 65). *)
Definition rank_name (row : Row) : string :=
  lower (rank row) +:+ "__" +:+ strip (name row).

Import TreeNode TreeFacts.

(** The object [x] of [tree] is a rank node with the identifier object
    [S x] as its first child. *)
Definition rank_node_at (x : nat) (tree : t) : Prop :=
  exists m c cs, get x tree = Some m /\ children m = c :: cs /\ oid c = S x.

(** The object [x] of [tree] is the rank node made for [row]: it has the
    name of the row, and its first child is the identifier node of the
    row. *)
Definition node_of_row (x : nat) (row : Row) (tree : t) : Prop :=
  exists m c cs,
    get x tree = Some m /\ name m = Some (rank_name row)
    /\ children m = c :: cs
    /\ oid c = S x /\ name c = Some (str (ncbi_tax_id row)).

Lemma node_of_row_rank_node x row tree :
  node_of_row x row tree -> rank_node_at x tree.
Proof. intros (m & c & cs & ? & _ & ? & ? & _). by exists m, c, cs. Qed.

Lemma rank_node_at_elem x tree : rank_node_at x tree -> x ∈ oids tree.
Proof. intros (m & c & cs & H & _). apply get_is_Some. eauto. Qed.

Section UpdateNodes.

Variables (y : nat) (f : t -> t) (extra : list t).
Hypothesis f_extends : extends_with f extra.

Lemma rank_node_at_update x tree :
  x ∉ oids_in extra ->
  rank_node_at x tree -> rank_node_at x (update y f tree).
Proof.
  intros Hx (m & c & cs & Hget & Hcs & Hc).
  exists (update y f m), (update y f c),
    (map (update y f) cs ++ if decide (oid m = y) then extra else []).
  rewrite (get_update _ _ _ f_extends) by done. rewrite Hget.
  split; [done|]. rewrite (children_update _ _ _ f_extends), Hcs.
  split; [done|]. by rewrite (oid_update _ _ _ f_extends).
Qed.

End UpdateNodes.

Lemma node_of_row_set_flag y b x row tree :
  node_of_row x row tree ->
  node_of_row x row (update y (set_is_actual_tip b) tree).
Proof.
  pose proof (set_is_actual_tip_extends b) as Hf.
  intros (m & c & cs & Hget & Hname & Hcs & Hc & Hcn).
  exists (update y (set_is_actual_tip b) m), (update y (set_is_actual_tip b) c),
    (map (update y (set_is_actual_tip b)) cs
       ++ if decide (oid m = y) then [] else []).
  rewrite (get_update _ _ _ Hf) by (intros H; by apply elem_of_nil in H).
  rewrite Hget. split; [done|].
  rewrite (name_update _ _ _ Hf), (children_update _ _ _ Hf), Hcs.
  by rewrite (oid_update _ _ _ Hf), (name_update _ _ _ Hf).
Qed.

Lemma node_of_row_append p node x row tree :
  x ∉ oids node ->
  node_of_row x row tree ->
  node_of_row x row (append p node tree).
Proof.
  pose proof (add_child_extends node) as Hf.
  intros Hx (m & c & cs & Hget & Hname & Hcs & Hc & Hcn).
  exists (update p (add_child node) m), (update p (add_child node) c),
    (map (update p (add_child node)) cs
       ++ if decide (oid m = p) then [node] else []).
  unfold append. rewrite (get_update _ _ _ Hf).
  2:{ unfold oids_in. cbn [map concat]. by rewrite app_nil_r. }
  rewrite Hget. split; [done|].
  rewrite (name_update _ _ _ Hf), (children_update _ _ _ Hf), Hcs.
  by rewrite (oid_update _ _ _ Hf), (name_update _ _ _ Hf).
Qed.

(** *** The inner [while] loop *)

Lemma unwind_bottom indent rest bottom :
  forall stack',
  unwind indent (rest ++ [bottom]) = Ok stack' ->
  exists rest', stack' = rest' ++ [bottom] /\ rest' `suffix_of` rest
                /\ (forall top below, stack' = top :: below -> top.1 < indent).
Proof.
  induction rest as [|[i n] rest IH]; intros stack'.
  - destruct bottom as [i n]. cbn [app unwind].
    destruct (Z.leb_spec indent i); [done|]. intros [= <-].
    exists []. split; [done|]. split; [done|]. by intros top below [= <- _].
  - cbn [app unwind]. destruct (Z.leb_spec indent i).
    + intros Hu. apply IH in Hu as (rest' & -> & Hsuf & Htop).
      exists rest'. split; [done|]. split; [by apply suffix_cons_r | done].
    + intros [= <-]. exists ((i, n) :: rest). split; [done|]. split; [done|].
      by intros top below [= <- _].
Qed.

Lemma unwind_returns indent rest n :
  0 < indent -> exists stack', unwind indent (rest ++ [(0, n)]) = Ok stack'.
Proof.
  intros Hpos. induction rest as [|[i m] rest IH].
  - cbn [app unwind]. destruct (Z.leb_spec indent 0); [lia | eauto].
  - cbn [app unwind]. destruct (Z.leb_spec indent i); eauto.
Qed.

(** *** One row *)

Lemma mark_first_child_Ok pn tree tree1 :
  mark_first_child pn tree = Ok tree1 ->
  exists c cs, children_of pn tree = c :: cs
               /\ tree1 = update (oid c) (set_is_actual_tip true) tree.
Proof.
  unfold mark_first_child. destruct (children_of pn tree) as [|c cs]; [done|].
  intros [= <-]. eauto.
Qed.

Lemma elem_of_oids_set_flag y b x tree :
  x ∈ oids (update y (set_is_actual_tip b) tree) <-> x ∈ oids tree.
Proof.
  rewrite (elem_of_oids_update _ _ _ (set_is_actual_tip_extends b)).
  unfold oids_in. cbn. rewrite elem_of_nil. tauto.
Qed.

Lemma oids_new_node i row x : x ∈ oids (new_node i row) <-> x = S i \/ x = i.
Proof.
  unfold oids, new_node. cbn.
  rewrite elem_of_cons, list_elem_of_singleton. tauto.
Qed.

Lemma elem_of_oids_append p node x tree :
  x ∈ oids (append p node tree)
  <-> x ∈ oids tree \/ (p ∈ oids tree /\ x ∈ oids node).
Proof.
  unfold append. rewrite (elem_of_oids_update _ _ _ (add_child_extends node)).
  unfold oids_in. cbn [map concat]. by rewrite app_nil_r.
Qed.

(** What a turn of the loop that returns has done. *)
Lemma attach_row_Ok st row st' :
  attach_row st row = Ok st' ->
  exists pi pn below tree1 pi' pn' below',
    stack st = (pi, pn) :: below
    /\ (if row_indent row <=? pi
        then mark_first_child pn (tree st) = Ok tree1
        else tree1 = tree st)
    /\ unwind (row_indent row) (stack st) = Ok ((pi', pn') :: below')
    /\ st' = mkBuilder (append pn' (new_node (next_oid st) row) tree1)
                       ((row_indent row, next_oid st) :: (pi', pn') :: below')
                       (2 + next_oid st).
Proof.
  unfold attach_row. fold (row_indent row). intros H.
  destruct (stack st) as [|[pi pn] below] eqn:Hstack; [done|].
  cbn [stack_top] in H. rewrite bind_Ok in H.
  inv_bind H. rename a into tree1, Ha into Hmark.
  inv_bind H. rename a into stack1, Ha into Hunwind.
  destruct stack1 as [|[pi' pn'] below']; [done|].
  cbn [stack_top] in H. rewrite bind_Ok in H. injection H as <-.
  exists pi, pn, below, tree1, pi', pn', below'.
  split; [done|]. split; [|done].
  destruct (row_indent row <=? pi); [done | by injection Hmark as <-].
Qed.

(** The invariant of the loop: the objects of the tree have the identities
    from [fresh] up to [next_oid], each once; the stack holds the root at
    its bottom and rank nodes of the tree above it. *)
Definition stack_ok (fresh : nat) (tree : t) (rest : list (Z * nat)) : Prop :=
  Forall (fun e => (fresh < e.2)%nat /\ rank_node_at e.2 tree) rest.

Record Inv (fresh : nat) (st : Builder) : Prop := mkInv {
  inv_oids : forall x, x ∈ oids (tree st) -> (fresh <= x < next_oid st)%nat;
  inv_NoDup : NoDup (oids (tree st));
  inv_root : fresh ∈ oids (tree st);
  inv_stack : exists rest, stack st = rest ++ [(0, fresh)]
                           /\ stack_ok fresh (tree st) rest
}.

Lemma Inv_init fresh : Inv fresh (builder_init fresh).
Proof.
  split.
  - intros x Hx. cbn in Hx. apply list_elem_of_singleton in Hx. cbn. lia.
  - cbn. apply NoDup_singleton.
  - cbn. by apply list_elem_of_singleton.
  - exists []. split; [done | constructor].
Qed.

Lemma stack_ok_suffix fresh tree rest rest' :
  rest' `suffix_of` rest -> stack_ok fresh tree rest ->
  stack_ok fresh tree rest'.
Proof. intros [k ->] H. by apply Forall_app in H as [_ H]. Qed.

Lemma stack_ok_update fresh tree next y f extra rest :
  extends_with f extra ->
  (forall x, x ∈ oids_in extra -> (next <= x)%nat) ->
  (forall x, x ∈ oids tree -> (fresh <= x < next)%nat) ->
  stack_ok fresh tree rest ->
  stack_ok fresh (update y f tree) rest.
Proof.
  intros Hf Hextra Hoids Hok. eapply Forall_impl; [exact Hok|].
  intros [i n] (Hn & Hnode).
  split; [done|]. cbn [snd] in *.
  eapply rank_node_at_update; [done| |done].
  intros Hin. apply Hextra in Hin.
  apply rank_node_at_elem, Hoids in Hnode. lia.
Qed.

Lemma NoDup_oids_set_flag y b tree :
  NoDup (oids tree) -> NoDup (oids (update y (set_is_actual_tip b) tree)).
Proof.
  intros Hnd.
  rewrite (oids_update_perm _ _ _ _ (set_is_actual_tip_extends b) Hnd).
  change (oids_in []) with (@nil nat). destruct (decide _); by rewrite app_nil_r.
Qed.

Lemma get_new_node i row : get i (new_node i row) = Some (new_node i row).
Proof. rewrite get_unfold. cbn [new_node oid]. by rewrite decide_True. Qed.

(** A turn of the loop that returns keeps the invariant, adds the rank
    node of the row and its identifier node as two new objects, and
    leaves the rank node on top of the stack. *)
Lemma attach_row_Inv fresh st row st' :
  Inv fresh st -> attach_row st row = Ok st' ->
  Inv fresh st'
  /\ next_oid st' = (2 + next_oid st)%nat
  /\ node_of_row (next_oid st) row (tree st')
  /\ (forall x r, node_of_row x r (tree st) -> node_of_row x r (tree st'))
  /\ (forall x, x ∈ oids (tree st')
                <-> x ∈ oids (tree st) \/ x = S (next_oid st) \/ x = next_oid st)
  /\ exists below, stack st' = (row_indent row, next_oid st) :: below.
Proof.
  intros [Hoids Hnd Hroot (rest & Hstack & Hok)] H.
  apply attach_row_Ok in H
    as (pi & pn & below & tree1 & pi' & pn' & below' & Hst & Hmark & Hunw & ->).
  cbn [tree stack next_oid].
  assert ((forall x, x ∈ oids tree1 <-> x ∈ oids (tree st))
          /\ NoDup (oids tree1)
          /\ stack_ok fresh tree1 rest
          /\ (forall x r, node_of_row x r (tree st) -> node_of_row x r tree1))
    as (T1 & T2 & T3 & T4).
  { destruct (row_indent row <=? pi).
    - apply mark_first_child_Ok in Hmark as (c & cs & _ & ->).
      split; [intros x; apply elem_of_oids_set_flag|].
      split; [by apply NoDup_oids_set_flag|].
      split; [|intros x r; apply node_of_row_set_flag].
      eapply (stack_ok_update _ _ (next_oid st));
        [apply set_is_actual_tip_extends| |done|done].
      intros x Hx. by apply elem_of_nil in Hx.
    - by subst tree1. }
  rewrite Hstack in Hunw.
  apply unwind_bottom in Hunw as (rest' & Hs1 & Hsuf & _).
  pose proof (stack_ok_suffix _ _ _ _ Hsuf T3) as Hok'.
  assert (pn' ∈ oids tree1) as Hpn'.
  { destruct rest' as [|e rest'].
    - injection Hs1 as _ -> _. by apply T1.
    - injection Hs1 as <- _. apply Forall_cons in Hok' as [(_ & Hn) _].
      by apply rank_node_at_elem in Hn. }
  assert (forall x, x ∈ oids tree1 -> (fresh <= x < next_oid st)%nat) as Hoids1.
  { intros x Hx. by apply Hoids, T1. }
  assert (forall x, x ∈ oids (new_node (next_oid st) row) ->
                    x ∉ oids tree1) as Hnew.
  { intros x Hx Hx'. apply oids_new_node in Hx. apply Hoids1 in Hx'. lia. }
  assert (forall x, x ∈ oids (append pn' (new_node (next_oid st) row) tree1)
                    <-> x ∈ oids (tree st) \/ x = S (next_oid st)
                        \/ x = next_oid st) as Hoids'.
  { intros x. rewrite elem_of_oids_append, oids_new_node, T1. tauto. }
  assert (node_of_row (next_oid st) row
            (append pn' (new_node (next_oid st) row) tree1)) as Hnode.
  { unfold node_of_row, append. rewrite get_append_new.
    2:{ intros Hx. apply Hoids1 in Hx. lia. }
    rewrite decide_True by done. rewrite get_new_node.
    by eexists _, _, _. }
  split; [split|]; cbn [tree stack next_oid].
  - intros x Hx. pose proof (Hoids _ Hroot).
    apply Hoids' in Hx as [Hx|Hx]; [apply Hoids in Hx|]; lia.
  - unfold append.
    rewrite (oids_update_perm _ _ _ _ (add_child_extends _) T2).
    rewrite decide_True by done.
    unfold oids_in. cbn [map concat]. rewrite app_nil_r.
    apply NoDup_app. split; [done|]. split.
    + intros x Hx Hx'. by apply (Hnew x).
    + unfold oids, new_node. cbn. apply NoDup_cons. split.
      * rewrite list_elem_of_singleton. lia.
      * apply NoDup_singleton.
  - apply Hoids'. by left.
  - exists ((row_indent row, next_oid st) :: rest'). split; [by rewrite Hs1|].
    apply Forall_cons. split.
    + cbn [snd]. split.
      * apply Hoids in Hroot. lia.
      * by apply node_of_row_rank_node in Hnode.
    + eapply (stack_ok_update _ _ (next_oid st));
        [apply add_child_extends| |done|done].
      intros x Hx. unfold oids_in in Hx. cbn [map concat] in Hx.
      rewrite app_nil_r in Hx. apply oids_new_node in Hx. lia.
  - split; [done|]. split; [done|]. split; [|split; [done | eauto]].
    intros x r Hx. apply node_of_row_append; [|by apply T4].
    intros Hin. apply oids_new_node in Hin.
    apply node_of_row_rank_node, rank_node_at_elem, Hoids in Hx. lia.
Qed.

(** *** The whole loop *)

(** The rows for which the loop makes nodes, in the order of the frame. *)
Definition kept_rows (df : list Row) : list Row := filter row_kept df.

Lemma builder_step_kept st row :
  row_kept row -> builder_step st row = attach_row st row.
Proof. unfold builder_step, row_kept. by intros ->. Qed.

Lemma builder_step_skipped st row :
  ~ row_kept row -> builder_step st row = Ok st.
Proof.
  unfold builder_step, row_kept. by destruct (rank_skipped (rank row)).
Qed.

Lemma builder_loop_Inv fresh df : forall st st',
  Inv fresh st -> builder_loop st df = Ok st' ->
  Inv fresh st'
  /\ next_oid st' = (next_oid st + 2 * List.length (kept_rows df))%nat
  /\ (forall x r, node_of_row x r (tree st) -> node_of_row x r (tree st'))
  /\ (forall i row, kept_rows df !! i = Some row ->
                    node_of_row (next_oid st + 2 * i) row (tree st'))
  /\ (forall x, x ∈ oids (tree st')
                <-> x ∈ oids (tree st)
                    \/ (next_oid st <= x
                        < next_oid st + 2 * List.length (kept_rows df))%nat)
  /\ match last (kept_rows df) with
     | Some _ => exists ind below,
                   stack st' = (ind, (next_oid st' - 2)%nat) :: below
     | None => st' = st
     end.
Proof.
  induction df as [|row df IH]; intros st st' Hinv Hloop.
  - injection Hloop as <-. cbn. split; [done|]. split; [lia|].
    split; [done|]. split; [done|]. split; [|done].
    intros x. split; [auto | intros [?|?]; [done | lia]].
  - cbn [builder_loop] in Hloop. inv_bind Hloop. rename a into st1.
    destruct (decide (row_kept row)) as [Hk|Hk].
    + rewrite builder_step_kept in Ha by done.
      apply (attach_row_Inv fresh) in Ha
        as (Hinv1 & Hnext1 & Hnode1 & Hold1 & Hoids1 & below1 & Hstack1);
        [|done].
      destruct (IH st1 st' Hinv1 Hloop)
        as (Hinv' & Hnext' & Hold' & Hnodes' & Hoids' & Hlast').
      unfold kept_rows in *. rewrite filter_cons_True by done.
      cbn [List.length]. split; [done|]. split; [lia|].
      split; [auto|]. split; [|split].
      * intros [|i] r Hi.
        -- injection Hi as <-. rewrite Nat.mul_0_r, Nat.add_0_r. auto.
        -- cbn in Hi. apply Hnodes' in Hi. rewrite Hnext1 in Hi.
           by replace (next_oid st + 2 * S i)%nat
             with (2 + next_oid st + 2 * i)%nat by lia.
      * intros x. rewrite Hoids', Hoids1, Hnext1. intuition lia.
      * rewrite last_cons. destruct (last (filter row_kept df)); [done|].
        subst st'. exists (row_indent row), below1.
        rewrite Hstack1, Hnext1. do 2 f_equal. lia.
    + rewrite builder_step_skipped in Ha by done. injection Ha as <-.
      unfold kept_rows in *. rewrite filter_cons_False by done.
      by apply IH.
Qed.

(** *** Rows indented below the root never raise *)

Lemma rank_node_at_children x tree :
  rank_node_at x tree -> exists c cs, children_of x tree = c :: cs.
Proof.
  intros (m & c & cs & Hget & Hcs & _). unfold children_of. rewrite Hget. eauto.
Qed.

Lemma attach_row_returns fresh st row :
  Inv fresh st -> 1 <= row_indent row -> exists st', attach_row st row = Ok st'.
Proof.
  intros [_ _ _ (rest & Hstack & Hok)] Hind.
  destruct (unwind_returns (row_indent row) rest fresh) as [stack1 Hunw]; [lia|].
  pose proof Hunw as Hunw'.
  apply unwind_bottom in Hunw' as (rest' & -> & _ & _).
  unfold attach_row. fold (row_indent row). rewrite Hstack, Hunw.
  destruct rest as [|[pi pn] rest].
  - cbn [app stack_top]. rewrite bind_Ok.
    destruct (Z.leb_spec (row_indent row) 0); [lia|].
    rewrite !bind_Ok. destruct rest' as [|[pi' pn'] rest']; cbn; eauto.
  - cbn [app stack_top]. rewrite bind_Ok.
    apply Forall_cons in Hok as [[_ Hnode] _]. cbn [snd] in Hnode.
    apply rank_node_at_children in Hnode as (c & cs & Hcs).
    unfold mark_first_child. rewrite Hcs.
    destruct (row_indent row <=? pi); rewrite !bind_Ok;
      destruct rest' as [|[pi' pn'] rest']; cbn; eauto.
Qed.

Lemma mark_last_returns fresh st :
  Inv fresh st -> exists tree, mark_last st = Ok tree.
Proof.
  intros [_ _ _ (rest & Hstack & _)]. unfold mark_last. rewrite Hstack.
  destruct rest as [|[pi pn] rest]; cbn [app stack_top]; rewrite bind_Ok;
    unfold mark_first_child.
  - destruct (children_of fresh (tree st)); eauto.
  - destruct (children_of pn (tree st)); eauto.
Qed.

Lemma builder_loop_returns fresh df : forall st,
  Inv fresh st ->
  Forall (fun row => row_kept row -> 1 <= row_indent row) df ->
  exists st', builder_loop st df = Ok st' /\ Inv fresh st'.
Proof.
  induction df as [|row df IH]; intros st Hinv Hall; [by exists st|].
  apply Forall_cons in Hall as [Hrow Hall]. cbn [builder_loop].
  destruct (decide (row_kept row)) as [Hk|Hk].
  - rewrite builder_step_kept by done.
    destruct (attach_row_returns fresh st row Hinv (Hrow Hk)) as [st1 Hst1].
    rewrite Hst1, bind_Ok. apply IH; [|done].
    by apply (attach_row_Inv fresh) in Hst1 as [? _].
  - rewrite builder_step_skipped, bind_Ok by done. by apply IH.
Qed.

End BuilderFacts.

Import BuilderFacts.

(** C1, as the code has it.  A kept row of indentation 0 makes
    [_kraken_to_ncbi_tree] raise [IndexError]: the root is the only stack
    entry of indentation 0 and it has no child to mark. *)
Lemma kraken_to_ncbi_tree_indent_0_raises :
  _kraken_to_ncbi_tree 0 [mkRow "D" "Bacteria" 2 0.5%float] = Raise IndexError.
Proof. reflexivity. Qed.

Lemma is_actual_tip_set_flag y b n :
  TreeNode.is_actual_tip (TreeNode.update y (TreeNode.set_is_actual_tip b) n)
  = if decide (TreeNode.oid n = y) then Some b else TreeNode.is_actual_tip n.
Proof.
  destruct n as [j s l b' cs]. rewrite TreeFacts.update_unfold. cbn [TreeNode.oid].
  by destruct (decide (j = y)).
Qed.

Lemma is_actual_tip_add_child p c n :
  TreeNode.is_actual_tip (TreeNode.update p (TreeNode.add_child c) n)
  = TreeNode.is_actual_tip n.
Proof.
  destruct n as [j s l b' cs]. rewrite TreeFacts.update_unfold.
  by destruct (decide (j = p)).
Qed.

(** C5. When [_kraken_to_ncbi_tree] returns and at least one row was not
    skipped, the node on top of the stack after the loop is the rank node
    of the last such row, and in the tree returned its first child, the
    identifier node of that row, has [is_actual_tip = True]. *)
Theorem last_row_is_actual_tip (fresh : nat) (df : list Row)
    (tree : TreeNode.t) (row : Row) :
  _kraken_to_ncbi_tree fresh df = Ok tree ->
  last (kept_rows df) = Some row ->
  exists st ind p below m c cs,
    builder_loop (builder_init fresh) df = Ok st
    /\ stack st = (ind, p) :: below
    /\ TreeNode.get p tree = Some m
    /\ TreeNode.name m = Some (rank_name row)
    /\ TreeNode.children m = c :: cs
    /\ TreeNode.name c = Some (str (ncbi_tax_id row))
    /\ TreeNode.is_actual_tip c = Some true.
Proof.
  intros Hret Hlast. unfold _kraken_to_ncbi_tree in Hret.
  inv_bind Hret. rename a into st, Ha into Hloop, Hret into Hmark.
  destruct (builder_loop_Inv fresh df _ _ (Inv_init fresh) Hloop)
    as (Hinv & Hnext & _ & Hnodes & _ & Htop).
  rewrite Hlast in Htop. destruct Htop as (ind & below & Hstack).
  rewrite last_lookup in Hlast. apply Hnodes in Hlast as Hnode.
  assert (kept_rows df <> []) as Hne by (intros E; by rewrite E in Hlast).
  replace (next_oid (builder_init fresh) + 2 * pred (List.length (kept_rows df)))%nat
    with (next_oid st - 2)%nat in Hnode
    by (destruct (kept_rows df); [done | cbn [List.length] in *; lia]).
  destruct Hnode as (m & c & cs & Hget & Hname & Hcs & Hc & Hcn).
  unfold mark_last in Hmark. rewrite Hstack in Hmark.
  cbn [stack_top] in Hmark. rewrite bind_Ok in Hmark.
  unfold mark_first_child, children_of in Hmark. rewrite Hget, Hcs in Hmark.
  injection Hmark as <-.
  pose proof (TreeFacts.set_is_actual_tip_extends true) as Hf.
  eexists st, ind, _, below, _, _, _. split; [done|]. split; [done|].
  rewrite (TreeFacts.get_update _ _ _ Hf)
    by (intros H; by apply elem_of_nil in H).
  rewrite Hget. split; [done|].
  rewrite (TreeFacts.name_update _ _ _ Hf), (TreeFacts.children_update _ _ _ Hf).
  rewrite Hcs. split; [done|]. split; [done|].
  rewrite (TreeFacts.name_update _ _ _ Hf), is_actual_tip_set_flag.
  by rewrite decide_True.
Qed.

Lemma last_row_is_actual_tip_witness :
  exists st ind p below m c cs,
    builder_loop (builder_init 0)
      [mkRow "D" "  Bacteria" 2 0.5%float;
       mkRow "S" "    Escherichia coli" 562 0.5%float;
       mkRow "U" "unclassified" 0 0.5%float] = Ok st
    /\ stack st = (ind, p) :: below
    /\ TreeNode.get p
         (TreeNode.Node 0 None None None
            [TreeNode.Node 1 (Some "d__Bacteria") (Some 1) None
               [TreeNode.Node 2 (Some "2") (Some 0) (Some false) [];
                TreeNode.Node 3 (Some "s__Escherichia coli") (Some 1) None
                  [TreeNode.Node 4 (Some "562") (Some 0) (Some true) []]]])
       = Some m
    /\ TreeNode.name m
       = Some (rank_name (mkRow "S" "    Escherichia coli" 562 0.5%float))
    /\ TreeNode.children m = c :: cs
    /\ TreeNode.name c = Some (str 562)
    /\ TreeNode.is_actual_tip c = Some true.
Proof.
  apply (last_row_is_actual_tip 0
           [mkRow "D" "  Bacteria" 2 0.5%float;
            mkRow "S" "    Escherichia coli" 562 0.5%float;
            mkRow "U" "unclassified" 0 0.5%float]).
  - by vm_compute.
  - by vm_compute.
Defined.

(** ** The tip marks of a turn of the loop *)

Lemma get_oids_subseteq x n m y :
  TreeNode.get x n = Some m -> y ∈ TreeFacts.oids m -> y ∈ TreeFacts.oids n.
Proof.
  induction n as [j s l b cs IH] using TreeFacts.t_ind'.
  rewrite TreeFacts.get_unfold. cbn [TreeNode.oid TreeNode.children].
  destruct (decide (j = x)) as [->|Hne]; [by intros [= <-]|].
  intros Hget Hy. apply TreeFacts.elem_of_oids. right.
  cbn [TreeNode.children]. apply TreeFacts.elem_of_oids_in.
  induction IH as [|ch cs Hch _ IHcs]; [done|].
  cbn [TreeFacts.get_in] in Hget. destruct (TreeNode.get x ch) eqn:E.
  - injection Hget as ->. exists ch. split; [apply elem_of_cons; by left | auto].
  - destruct (IHcs Hget) as (c' & Hc' & Hin).
    exists c'. split; [apply elem_of_cons; by right | done].
Qed.

(** The turn of the loop for a row that is not deeper than the stack top:
    the tree it leaves is the old one with the first child of the top
    marked and the new rank node appended below some node [pn']. *)
Lemma attach_row_shape fresh st row st' pi pn below :
  Inv fresh st -> attach_row st row = Ok st' ->
  stack st = (pi, pn) :: below -> row_indent row <= pi ->
  exists m c cs pn',
    TreeNode.get pn (tree st) = Some m
    /\ TreeNode.children m = c :: cs /\ TreeNode.oid c = S pn
    /\ pn' ∈ TreeFacts.oids (tree st)
    /\ tree st'
       = append pn' (new_node (next_oid st) row)
           (TreeNode.update (S pn) (TreeNode.set_is_actual_tip true) (tree st)).
Proof.
  intros Hinv H Hstack Hle.
  pose proof (attach_row_Inv fresh _ _ _ Hinv H) as (_ & _ & _ & _ & Hoids' & _).
  destruct Hinv as [Hoids Hnd Hroot (rest & Hrest & Hok)].
  apply attach_row_Ok in H
    as (pi0 & pn0 & below0 & tree1 & pi' & pn' & below' & Hst & Hmark & Hunw & ->).
  rewrite Hstack in Hst. injection Hst as <- <- <-.
  apply Z.leb_le in Hle as Hleb. rewrite Hleb in Hmark.
  apply mark_first_child_Ok in Hmark as (c & cs & Hcs & ->).
  destruct rest as [|[pi1 pn1] rest].
  { rewrite Hrest in Hstack, Hunw. injection Hstack as <- <- <-.
    cbn [app unwind] in Hunw. by rewrite Hleb in Hunw. }
  rewrite Hrest in Hstack. injection Hstack as -> -> _.
  pose proof Hok as Hok0.
  apply Forall_cons in Hok as [[_ Hnode] _]. cbn [snd] in Hnode.
  destruct Hnode as (m & c0 & cs0 & Hget & Hcs0 & Hc0).
  unfold children_of in Hcs. rewrite Hget, Hcs0 in Hcs. injection Hcs as -> ->.
  exists m, c, cs, pn'. rewrite Hc0. cbn [tree].
  split; [done|]. split; [done|]. split; [done|]. split; [|done].
  rewrite Hrest in Hunw.
  apply unwind_bottom in Hunw as (rest' & Hs1 & Hsuf & _).
  destruct rest' as [|e rest'].
  - by injection Hs1 as _ -> _.
  - injection Hs1 as <- _.
    apply (stack_ok_suffix _ _ _ _ Hsuf) in Hok0.
    apply Forall_cons in Hok0 as [[_ Hn] _].
    by apply rank_node_at_elem in Hn.
Qed.

(** The [is_actual_tip] attribute of the object [x] of a tree: [None] when
    the tree has no such object, [Some None] when the object never got
    the attribute. *)
Definition flag_at (x : nat) (tree : TreeNode.t) : option (option bool) :=
  TreeNode.is_actual_tip <$> TreeNode.get x tree.

Lemma get_id_node i row :
  TreeNode.get (S i) (new_node i row)
  = Some (TreeNode.Node (S i) (Some (str (ncbi_tax_id row))) (Some 0)
            (Some false) []).
Proof.
  unfold new_node. rewrite TreeFacts.get_unfold. cbn [TreeNode.oid TreeNode.children].
  rewrite decide_False by lia. cbn [TreeFacts.get_in].
  rewrite TreeFacts.get_unfold. cbn [TreeNode.oid]. by rewrite decide_True.
Qed.

(** C4. In a state the loop reaches, a row that is not skipped and is not
    deeper than the stack top [(pi, pn)] marks one tip: after the turn the
    first child of [pn], the identifier node [S pn], has
    [is_actual_tip = True]; every other object of the tree keeps the
    attribute it had, whatever the number of stack entries popped; and the
    two new objects come as the row made them. *)
Theorem tip_marked_only_at_stack_top (fresh : nat) (rows : list Row)
    (st st' : Builder) (row : Row) (pi : Z) (pn : nat) (below : list (Z * nat)) :
  builder_loop (builder_init fresh) rows = Ok st ->
  row_kept row ->
  stack st = (pi, pn) :: below ->
  row_indent row <= pi ->
  builder_step st row = Ok st' ->
  (exists m c cs,
      TreeNode.get pn (tree st') = Some m
      /\ TreeNode.children m = c :: cs /\ TreeNode.oid c = S pn
      /\ TreeNode.is_actual_tip c = Some true)
  /\ flag_at (S pn) (tree st') = Some (Some true)
  /\ (forall x, x ∈ TreeFacts.oids (tree st) -> x <> S pn ->
                flag_at x (tree st') = flag_at x (tree st))
  /\ flag_at (next_oid st) (tree st') = Some None
  /\ flag_at (S (next_oid st)) (tree st') = Some (Some false).
Proof.
  intros Hloop Hkept Hstack Hle Hstep.
  destruct (builder_loop_Inv fresh rows _ _ (Inv_init fresh) Hloop) as (Hinv & _).
  rewrite builder_step_kept in Hstep by done.
  destruct (attach_row_shape fresh _ _ _ _ _ _ Hinv Hstep Hstack Hle)
    as (m & c & cs & pn' & Hget & Hcs & Hc & Hpn' & ->).
  pose proof (TreeFacts.set_is_actual_tip_extends true) as Hf1.
  pose proof (TreeFacts.add_child_extends (new_node (next_oid st) row)) as Hf2.
  destruct Hinv as [Hoids _ _ _].
  assert (forall x, x ∈ TreeFacts.oids (tree st) ->
            x ∉ TreeFacts.oids_in [new_node (next_oid st) row]) as Hold.
  { intros x Hx Hin. unfold TreeFacts.oids_in in Hin. cbn [map concat] in Hin.
    rewrite app_nil_r in Hin. apply oids_new_node in Hin.
    apply Hoids in Hx. lia. }
  assert (forall x n, TreeNode.get x (tree st) = Some n ->
            flag_at x
              (append pn' (new_node (next_oid st) row)
                 (TreeNode.update (S pn) (TreeNode.set_is_actual_tip true) (tree st)))
            = Some (if decide (x = S pn) then Some true
                    else TreeNode.is_actual_tip n)) as Hflag.
  { intros x n Hx. unfold flag_at, append.
    rewrite (TreeFacts.get_update _ _ _ Hf2)
      by (apply Hold, TreeFacts.get_is_Some; eauto).
    rewrite (TreeFacts.get_update _ _ _ Hf1)
      by (intros H; by apply elem_of_nil in H).
    rewrite Hx. cbn [fmap option_fmap option_map].
    rewrite is_actual_tip_add_child, is_actual_tip_set_flag.
    by rewrite (TreeFacts.get_oid _ _ _ Hx). }
  assert (S pn ∈ TreeFacts.oids (tree st)) as HS.
  { eapply get_oids_subseteq; [done|].
    apply TreeFacts.elem_of_oids. right. rewrite Hcs.
    apply TreeFacts.elem_of_oids_in. exists c.
    split; [apply elem_of_cons; by left|].
    apply TreeFacts.elem_of_oids. by left. }
  assert ((next_oid st ∉ TreeFacts.oids
            (TreeNode.update (S pn) (TreeNode.set_is_actual_tip true) (tree st)))
          /\ (S (next_oid st) ∉ TreeFacts.oids
            (TreeNode.update (S pn) (TreeNode.set_is_actual_tip true) (tree st)))
          /\ (pn' ∈ TreeFacts.oids
            (TreeNode.update (S pn) (TreeNode.set_is_actual_tip true) (tree st))))
    as (Hn1 & Hn2 & Hpn1).
  { rewrite !elem_of_oids_set_flag. split; [|split; [|done]].
    - intros Hx. apply Hoids in Hx. lia.
    - intros Hx. apply Hoids in Hx. lia. }
  split; [|split; [|split; [|split]]].
  - exists (TreeNode.update pn' (TreeNode.add_child (new_node (next_oid st) row))
              (TreeNode.update (S pn) (TreeNode.set_is_actual_tip true) m)).
    unfold append.
    rewrite (TreeFacts.get_update _ _ _ Hf2)
      by (apply Hold, TreeFacts.get_is_Some; eauto).
    rewrite (TreeFacts.get_update _ _ _ Hf1)
      by (intros H; by apply elem_of_nil in H).
    rewrite Hget. cbn [fmap option_fmap option_map].
    rewrite (TreeFacts.children_update _ _ _ Hf2).
    rewrite (TreeFacts.children_update _ _ _ Hf1), Hcs. cbn [map app].
    eexists _, _. split; [done|]. split; [done|].
    rewrite (TreeFacts.oid_update _ _ _ Hf2), (TreeFacts.oid_update _ _ _ Hf1).
    split; [done|].
    rewrite is_actual_tip_add_child, is_actual_tip_set_flag.
    by rewrite decide_True.
  - apply TreeFacts.get_is_Some in HS as [n Hn].
    rewrite (Hflag _ _ Hn). by rewrite decide_True.
  - intros x Hx Hne. apply TreeFacts.get_is_Some in Hx as [n Hn].
    rewrite (Hflag _ _ Hn), decide_False by done.
    unfold flag_at. by rewrite Hn.
  - unfold flag_at, append. rewrite TreeFacts.get_append_new by done.
    rewrite decide_True by done. by rewrite get_new_node.
  - unfold flag_at, append. rewrite TreeFacts.get_append_new by done.
    rewrite decide_True by done. by rewrite get_id_node.
Qed.

(** A sample whose fourth row pops three stack entries at once. *)
Definition three_levels : list Row :=
  [mkRow "D" "  Bacteria" 2 0.5%float;
   mkRow "G" "    Escherichia" 561 0.5%float;
   mkRow "S" "      Escherichia coli" 562 0.5%float].

Definition second_domain : Row := mkRow "D" "  Archaea" 2157 0.5%float.

Definition after_three_levels : Builder :=
  Eval vm_compute in
    match builder_loop (builder_init 0) three_levels with
    | Ok st => st
    | Raise _ => builder_init 0
    end.

Definition after_second_domain : Builder :=
  Eval vm_compute in
    match builder_step after_three_levels second_domain with
    | Ok st => st
    | Raise _ => builder_init 0
    end.

Lemma tip_marked_only_at_stack_top_witness :
  (exists m c cs,
      TreeNode.get 5 (tree after_second_domain) = Some m
      /\ TreeNode.children m = c :: cs /\ TreeNode.oid c = 6%nat
      /\ TreeNode.is_actual_tip c = Some true)
  /\ flag_at 6 (tree after_second_domain) = Some (Some true)
  /\ (forall x, x ∈ TreeFacts.oids (tree after_three_levels) -> x <> 6%nat ->
                flag_at x (tree after_second_domain)
                = flag_at x (tree after_three_levels))
  /\ flag_at (next_oid after_three_levels) (tree after_second_domain) = Some None
  /\ flag_at (S (next_oid after_three_levels)) (tree after_second_domain)
     = Some (Some false).
Proof.
  apply (tip_marked_only_at_stack_top 0 three_levels
           after_three_levels after_second_domain second_domain
           3 5 [(2, 3%nat); (1, 1%nat); (0, 0%nat)]).
  - by vm_compute.
  - by vm_compute.
  - by vm_compute.
  - by vm_compute.
  - by vm_compute.
Defined.

(** ** Which rows make nodes *)

(** The objects of the tree [_kraken_to_ncbi_tree] returns: the root
    [fresh], and for the [i]-th row that is not skipped the rank node
    [fresh + 1 + 2 i] and its identifier node, and no other. *)
Lemma kraken_to_ncbi_tree_nodes fresh df ncbi_tree :
  _kraken_to_ncbi_tree fresh df = Ok ncbi_tree ->
  (forall i row, kept_rows df !! i = Some row ->
                 node_of_row (S fresh + 2 * i) row ncbi_tree)
  /\ (forall x, x ∈ TreeFacts.oids ncbi_tree
                <-> (fresh <= x < S fresh + 2 * List.length (kept_rows df))%nat)
  /\ NoDup (TreeFacts.oids ncbi_tree).
Proof.
  intros Hret. unfold _kraken_to_ncbi_tree in Hret.
  inv_bind Hret. rename a into st, Ha into Hloop, Hret into Hmark.
  destruct (builder_loop_Inv fresh df _ _ (Inv_init fresh) Hloop)
    as ([_ Hnd _ _] & _ & _ & Hnodes & Hoids & _).
  cbn [builder_init next_oid tree] in Hnodes, Hoids.
  assert (forall x, x ∈ TreeFacts.oids (tree st)
            <-> (fresh <= x < S fresh + 2 * List.length (kept_rows df))%nat)
    as Hoids'.
  { intros x. rewrite Hoids. unfold TreeFacts.oids. cbn.
    rewrite list_elem_of_singleton. lia. }
  unfold mark_last in Hmark. inv_bind Hmark. destruct a as [ind p].
  destruct (children_of p (tree st)) as [|c cs] eqn:Hcs.
  - injection Hmark as <-. auto.
  - unfold mark_first_child in Hmark. rewrite Hcs in Hmark.
    injection Hmark as <-. split; [|split].
    + intros i row Hi. by apply node_of_row_set_flag, Hnodes.
    + intros x. by rewrite elem_of_oids_set_flag.
    + by apply NoDup_oids_set_flag.
Qed.

(** The rows of a report that pass the coverage filter of line 29 and
    the rank guard of line 61. *)
Definition contributes (coverage_threshold : float) (row : Row) : Prop :=
  row_kept row
  /\ PrimFloat.leb coverage_threshold (perc_frags_covered row) = true.

Lemma rank_skipped_false r :
  rank_skipped r = false
  <-> r <> "U" /\ r <> "R" /\ ~ (1 < len r /\ startswith "S" r = false).
Proof.
  unfold rank_skipped.
  destruct (String.eqb_spec r "U") as [->|HU].
  { cbn. split; [done | intros [? _]; done]. }
  destruct (String.eqb_spec r "R") as [->|HR].
  { cbn. split; [done | intros (_ & ? & _); done]. }
  cbn [orb]. destruct (Z.ltb_spec 1 (len r)) as [Hl|Hl];
    destruct (startswith "S" r); cbn; split; try done.
  - intros _. split; [done|]. split; [done|]. by intros [_ ?].
  - intros (_ & _ & H). destruct H. done.
  - intros _. split; [done|]. split; [done|]. by intros [_ ?].
  - intros _. split; [done|]. split; [done|]. intros [? _]. lia.
Qed.

(** ** No report at all *)

(** C9, as the code has it.  Without any report [select_kraken_features]
    raises the [IndexError] of [trees[0]], which is also what a report
    with a kept row of indentation 0 raises: the module has no error of
    its own for the empty input. *)
Lemma select_kraken_features_no_dedicated_error :
  select_kraken_features [] 0.125%float = Raise IndexError
  /\ select_kraken_features
       [("sample", [mkRow "D" "Bacteria" 2 0.5%float])] 0.125%float
     = Raise IndexError.
Proof. split; reflexivity. Qed.

(** C9, amended.  Given no report, [select_kraken_features] raises
    [IndexError], from [trees[0]] in [_combine_ncbi_trees], whatever the
    coverage threshold. *)
Theorem select_kraken_features_no_reports (coverage_threshold : float) :
  _combine_ncbi_trees [] = Raise IndexError
  /\ select_kraken_features [] coverage_threshold = Raise IndexError.
Proof. split; reflexivity. Qed.

(** ** [find]: the name caches *)

Module FindFacts.
Import TreeNode TreeFacts.

(** The names of the named tips among [nodes], in order. *)
Definition tip_names_of (nodes : list t) : list string :=
  omap name (filter (fun x => is_tip x = true) nodes).

Lemma elem_of_tip_names_of s nodes :
  s ∈ tip_names_of nodes
  <-> exists n, n ∈ nodes /\ is_tip n = true /\ name n = Some s.
Proof.
  unfold tip_names_of. rewrite list_elem_of_omap. split.
  - intros (n & Hn & Hs). apply list_elem_of_filter in Hn as [? ?]. eauto.
  - intros (n & Hn & Ht & Hs). exists n. split; [|done].
    by apply list_elem_of_filter.
Qed.

Lemma tip_names_of_cons n nodes :
  tip_names_of (n :: nodes)
  = match name n with
    | Some s => if is_tip n then s :: tip_names_of nodes else tip_names_of nodes
    | None => tip_names_of nodes
    end.
Proof.
  unfold tip_names_of. rewrite filter_cons.
  destruct (is_tip n) eqn:E.
  - rewrite decide_True by done. cbn [omap list_omap]. by destruct (name n).
  - rewrite decide_False by done. by destruct (name n).
Qed.

Lemma cache_step_raises caches node e :
  cache_step caches node = Raise e -> e = DuplicateNodeError.
Proof.
  destruct caches as [tc ntc]. unfold cache_step.
  destruct (name node) as [s|]; [|done].
  destruct (is_tip node); [|done]. destruct (tc !! s); [|done].
  by intros [= <-].
Qed.

Lemma fill_caches_raises nodes : forall caches e,
  fill_caches caches nodes = Raise e -> e = DuplicateNodeError.
Proof.
  induction nodes as [|n nodes IH]; intros caches e; [done|].
  cbn [fill_caches]. destruct (cache_step caches n) as [c|e'] eqn:E.
  - rewrite bind_Ok. apply IH.
  - intros [= <-]. by apply cache_step_raises in E.
Qed.

(** What the caches hold once [nodes] have been entered. *)
Lemma fill_caches_Ok nodes : forall tc ntc tc' ntc',
  fill_caches (tc, ntc) nodes = Ok (tc', ntc') ->
  (forall s n, tc' !! s = Some n ->
     tc !! s = Some n \/ (n ∈ nodes /\ is_tip n = true /\ name n = Some s))
  /\ (forall s n, n ∈ nodes -> is_tip n = true -> name n = Some s ->
        is_Some (tc' !! s))
  /\ (forall s, is_Some (tc !! s) -> is_Some (tc' !! s))
  /\ (forall s l', ntc' !! s = Some l' ->
        exists ext, l' = default [] (ntc !! s) ++ ext
                    /\ Forall (fun n => n ∈ nodes /\ name n = Some s) ext
                    /\ (ntc !! s = None -> ext <> []))
  /\ (forall s n, n ∈ nodes -> is_tip n = false -> name n = Some s ->
        is_Some (ntc' !! s))
  /\ (forall s, is_Some (ntc !! s) -> is_Some (ntc' !! s)).
Proof.
  induction nodes as [|node nodes IH]; intros tc ntc tc' ntc' H.
  - injection H as <- <-. repeat split; try done.
    + auto.
    + intros s n Hn. by apply elem_of_nil in Hn.
    + intros s l' Hl. exists []. rewrite app_nil_r, Hl. split; [done|].
      split; [constructor | by intros [=]].
    + intros s n Hn. by apply elem_of_nil in Hn.
  - cbn [fill_caches] in H. inv_bind H. destruct a as [tc1 ntc1].
    apply IH in H as (H1 & H2 & H3 & H4 & H5 & H6). clear IH.
    unfold cache_step in Ha.
    destruct (name node) as [sn|] eqn:Hname.
    2:{ injection Ha as <- <-. repeat split.
        - intros s n Hs. destruct (H1 _ _ Hs) as [?|(? & ? & ?)]; [by left|].
          right. split; [apply elem_of_cons; by right | done].
        - intros s n Hn Ht Hs. apply elem_of_cons in Hn as [->|Hn];
            [congruence | eauto].
        - done.
        - intros s l' Hl. destruct (H4 _ _ Hl) as (ext & -> & Hext & Hne).
          exists ext. split; [done|]. split; [|done].
          eapply Forall_impl; [exact Hext|]. intros n [? ?].
          split; [apply elem_of_cons; by right | done].
        - intros s n Hn Ht Hs. apply elem_of_cons in Hn as [->|Hn];
            [congruence | eauto].
        - done. }
    destruct (is_tip node) eqn:Htip.
    + destruct (tc !! sn) eqn:Htc; [done|]. injection Ha as <- <-.
      repeat split.
      * intros s n Hs. destruct (H1 _ _ Hs) as [Hs'|(? & ? & ?)].
        -- destruct (decide (s = sn)) as [->|Hne].
           ++ rewrite lookup_insert_eq in Hs'. injection Hs' as <-.
              right. split; [apply elem_of_cons; by left | done].
           ++ rewrite lookup_insert_ne in Hs' by done. by left.
        -- right. split; [apply elem_of_cons; by right | done].
      * intros s n Hn Ht Hs. apply elem_of_cons in Hn as [->|Hn]; [|eauto].
        apply H3. rewrite Hname in Hs. injection Hs as <-.
        rewrite lookup_insert_eq. eauto.
      * intros s Hs. apply H3. destruct (decide (s = sn)) as [->|Hne].
        -- rewrite lookup_insert_eq. eauto.
        -- by rewrite lookup_insert_ne.
      * intros s l' Hl. destruct (H4 _ _ Hl) as (ext & -> & Hext & Hne).
        exists ext. split; [done|]. split; [|done].
        eapply Forall_impl; [exact Hext|]. intros n [? ?].
        split; [apply elem_of_cons; by right | done].
      * intros s n Hn Ht Hs. apply elem_of_cons in Hn as [->|Hn];
          [congruence | eauto].
      * done.
    + injection Ha as <- <-. repeat split.
      * intros s n Hs. destruct (H1 _ _ Hs) as [?|(? & ? & ?)]; [by left|].
        right. split; [apply elem_of_cons; by right | done].
      * intros s n Hn Ht Hs. apply elem_of_cons in Hn as [->|Hn];
          [congruence | eauto].
      * done.
      * intros s l' Hl. destruct (H4 _ _ Hl) as (ext & -> & Hext & Hne).
        destruct (decide (s = sn)) as [->|Hsn].
        -- rewrite lookup_insert_eq in Hne |- *. cbn [from_option id].
           exists (node :: ext). rewrite <- app_assoc. split; [done|].
           split; [|done]. apply Forall_cons. split.
           ++ split; [apply elem_of_cons; by left | done].
           ++ eapply Forall_impl; [exact Hext|]. intros n [? ?].
              split; [apply elem_of_cons; by right | done].
        -- rewrite lookup_insert_ne in Hne |- * by done.
           exists ext. split; [done|]. split; [|done].
           eapply Forall_impl; [exact Hext|]. intros n [? ?].
           split; [apply elem_of_cons; by right | done].
      * intros s n Hn Ht Hs. apply elem_of_cons in Hn as [->|Hn]; [|eauto].
        apply H6. rewrite Hname in Hs. injection Hs as <-.
        rewrite lookup_insert_eq. eauto.
      * intros s Hs. apply H6. destruct (decide (s = sn)) as [->|Hne].
        -- rewrite lookup_insert_eq. eauto.
        -- by rewrite lookup_insert_ne.
Qed.

Lemma fill_caches_returns nodes : forall tc ntc,
  NoDup (tip_names_of nodes) ->
  (forall s, s ∈ tip_names_of nodes -> tc !! s = None) ->
  exists caches, fill_caches (tc, ntc) nodes = Ok caches.
Proof.
  induction nodes as [|node nodes IH]; intros tc ntc Hnd Hfree; [by eexists|].
  cbn [fill_caches]. unfold cache_step. rewrite tip_names_of_cons in Hnd, Hfree.
  destruct (name node) as [sn|]; [|rewrite bind_Ok; by apply IH].
  destruct (is_tip node); [|rewrite bind_Ok; by apply IH].
  apply NoDup_cons in Hnd as [Hsn Hnd].
  rewrite (Hfree sn) by (apply elem_of_cons; by left).
  rewrite bind_Ok. apply IH; [done|].
  intros s Hs. rewrite lookup_insert_ne by (intros ->; done).
  apply Hfree, elem_of_cons. by right.
Qed.

Lemma find_Ok root s m :
  find root s = Ok m -> m ∈ postorder root /\ name m = s.
Proof.
  unfold find, create_caches. intros H. inv_bind H. destruct a as [tc ntc].
  destruct (fill_caches_Ok _ _ _ _ _ Ha) as (H1 & _ & _ & H4 & _).
  destruct s as [s|]; [|done].
  destruct (tc !! s) as [n|] eqn:Htc.
  - injection H as <-. destruct (H1 _ _ Htc) as [E|(? & _ & ?)]; [|done].
    by rewrite lookup_empty in E.
  - destruct (ntc !! s) as [[|n l]|] eqn:Hntc; try done. injection H as <-.
    destruct (H4 _ _ Hntc) as (ext & Hl & Hext & _).
    rewrite lookup_empty in Hl. cbn in Hl. subst ext.
    by apply Forall_cons in Hext as [[? ?] _].
Qed.

Lemma find_raises root s e :
  find root s = Raise e -> e = MissingNodeError \/ e = DuplicateNodeError.
Proof.
  unfold find, create_caches.
  destruct (fill_caches (∅, ∅) (postorder root)) as [[tc ntc]|e'] eqn:E.
  - rewrite bind_Ok. destruct s as [s|]; [|intros [= <-]; by left].
    destruct (tc !! s); [done|].
    destruct (ntc !! s) as [[|n l]|]; try done; intros [= <-]; by left.
  - rewrite bind_Raise. intros [= <-]. right. by apply fill_caches_raises in E.
Qed.

(** [find] misses a name only if no node of the tree bears it. *)
Lemma find_Missing root s n :
  find root (Some s) = Raise MissingNodeError ->
  n ∈ postorder root -> name n <> Some s.
Proof.
  unfold find, create_caches. intros H Hn Hname.
  destruct (fill_caches (∅, ∅) (postorder root)) as [[tc ntc]|e'] eqn:E;
    [|rewrite bind_Raise in H; injection H as ->;
      by apply fill_caches_raises in E].
  rewrite bind_Ok in H.
  destruct (fill_caches_Ok _ _ _ _ _ E) as (_ & H2 & _ & H4 & H5 & _).
  destruct (is_tip n) eqn:Htip.
  - destruct (H2 _ _ Hn Htip Hname) as [x Hx]. by rewrite Hx in H.
  - destruct (tc !! s); [done|].
    destruct (H5 _ _ Hn Htip Hname) as [l Hl]. rewrite Hl in H.
    destruct (H4 _ _ Hl) as (ext & -> & _ & Hne).
    rewrite lookup_empty in Hne. cbn in Hne, H. destruct ext; [by apply Hne|done].
Qed.

(** With no tip name borne twice, [find] returns for a name the tree has. *)
Lemma find_returns root s n :
  NoDup (tip_names_of (postorder root)) ->
  n ∈ postorder root -> name n = Some s ->
  exists m, find root (Some s) = Ok m.
Proof.
  intros Hnd Hn Hname.
  destruct (fill_caches_returns (postorder root) ∅ ∅ Hnd) as [caches Hc];
    [intros; apply lookup_empty|].
  destruct (find root (Some s)) as [m|e] eqn:E; [eauto|].
  destruct (find_raises _ _ _ E) as [-> | ->].
  - by destruct (find_Missing _ _ _ E Hn).
  - unfold find, create_caches in E. rewrite Hc, bind_Ok in E.
    destruct caches as [tc ntc]. destruct (tc !! s); [done|].
    by destruct (ntc !! s) as [[|? ?]|].
Qed.

End FindFacts.

(** ** Subtrees, lineages and the objects [append] moves *)

Module MergeFacts.
Import TreeNode TreeFacts FindFacts.

Lemma postorder_unfold n :
  postorder n = concat (map postorder (children n)) ++ [n].
Proof. by destruct n. Qed.

Lemma elem_of_concat_map {A B} (f : A -> list B) (l : list A) (x : B) :
  x ∈ concat (map f l) <-> exists a, a ∈ l /\ x ∈ f a.
Proof.
  induction l as [|a l IH]; cbn [map concat].
  - split; [intros H; by apply elem_of_nil in H|].
    intros (a & H & _). by apply elem_of_nil in H.
  - rewrite elem_of_app, IH. split.
    + intros [H|(a' & Ha' & H)]; [exists a | exists a'];
        (split; [|done]); apply elem_of_cons; auto.
    + intros (a' & Ha' & H). apply elem_of_cons in Ha' as [->|Ha']; eauto.
Qed.

Lemma elem_of_postorder x n :
  x ∈ postorder n <-> x = n \/ exists c, c ∈ children n /\ x ∈ postorder c.
Proof.
  rewrite postorder_unfold, elem_of_app, list_elem_of_singleton.
  rewrite elem_of_concat_map. tauto.
Qed.

Lemma postorder_refl n : n ∈ postorder n.
Proof. apply elem_of_postorder. by left. Qed.

Lemma postorder_trans x y z :
  x ∈ postorder y -> y ∈ postorder z -> x ∈ postorder z.
Proof.
  intros Hxy. induction z as [j s l b cs IH] using t_ind'. intros Hyz.
  apply elem_of_postorder in Hyz as [->|(c & Hc & Hy)]; [done|].
  apply elem_of_postorder. right. exists c. split; [done|].
  cbn [children] in Hc. rewrite Forall_forall in IH. by apply IH.
Qed.

Lemma postorder_oid x n : x ∈ postorder n -> oid x ∈ oids n.
Proof. intros H. unfold oids. apply list_elem_of_fmap. eauto. Qed.

Lemma postorder_oids x n i : x ∈ postorder n -> i ∈ oids x -> i ∈ oids n.
Proof.
  intros Hx Hi. unfold oids in Hi. apply list_elem_of_fmap in Hi as (y & -> & Hy).
  apply postorder_oid. by eapply postorder_trans.
Qed.

Lemma postorder_child c n : c ∈ children n -> c ∈ postorder n.
Proof.
  intros Hc. apply elem_of_postorder. right. exists c.
  split; [done | apply postorder_refl].
Qed.

(** With distinct identities, an object is found by its identity. *)
Lemma get_postorder x n :
  NoDup (oids n) -> x ∈ postorder n -> get (oid x) n = Some x.
Proof.
  induction n as [j s l b cs IH] using t_ind'. intros Hnd Hx.
  rewrite get_unfold. cbn [oid children].
  rewrite oids_unfold in Hnd. cbn [oid children] in Hnd.
  apply NoDup_app in Hnd as (Hcs & Hj & _).
  apply elem_of_postorder in Hx as [->|(c & Hc & Hx)].
  { cbn [oid]. by rewrite decide_True. }
  cbn [children] in Hc.
  assert (oid x ∈ oids_in cs) as Hin.
  { apply elem_of_oids_in. exists c. split; [done | by apply postorder_oid]. }
  rewrite decide_False.
  2:{ intros ->. apply (Hj _ Hin). by apply list_elem_of_singleton. }
  clear Hj Hin. induction IH as [|ch cs Hch _ IHcs].
  { by apply elem_of_nil in Hc. }
  rewrite oids_in_cons in Hcs. apply NoDup_app in Hcs as (Hnch & Hdisj & Hncs).
  cbn [get_in]. apply elem_of_cons in Hc as [->|Hc].
  - by rewrite (Hch Hnch Hx).
  - assert (get (oid x) ch = None) as ->.
    { apply get_None. intros Hin. apply (Hdisj _ Hin).
      apply elem_of_oids_in. exists c. split; [done | by apply postorder_oid]. }
    by apply IHcs.
Qed.

Lemma update_notin y f n : y ∉ oids n -> update y f n = n.
Proof.
  induction n as [j s l b cs IH] using t_ind'. intros Hy.
  rewrite update_unfold. rewrite oids_unfold in Hy. cbn [oid children] in Hy.
  apply not_elem_of_app in Hy as [Hcs Hj].
  rewrite list_elem_of_singleton in Hj. rewrite decide_False by congruence.
  f_equal. induction IH as [|c cs Hc _ IHcs]; [done|].
  rewrite oids_in_cons in Hcs. apply not_elem_of_app in Hcs as [? ?].
  cbn [map]. by rewrite Hc, IHcs.
Qed.

(** The nested loop of [remove], by name. *)
Fixpoint remove_in (i : nat) (cs : list t) : list t :=
  match cs with
  | [] => []
  | c :: cs' =>
      if decide (oid c = i) then remove_in i cs'
      else remove i c :: remove_in i cs'
  end.

Lemma remove_unfold i j s l b cs :
  remove i (Node j s l b cs) = Node j s l b (remove_in i cs).
Proof. cbn [remove]. f_equal. by induction cs as [|c cs ->]. Qed.

Lemma remove_notin i n : i ∉ oids_in (children n) -> remove i n = n.
Proof.
  induction n as [j s l b cs IH] using t_ind'. cbn [children]. intros Hi.
  rewrite remove_unfold. f_equal.
  induction IH as [|c cs Hc _ IHcs]; [done|].
  rewrite oids_in_cons in Hi. apply not_elem_of_app in Hi as [Hic Hics].
  cbn [remove_in]. rewrite decide_False.
  2:{ intros <-. apply Hic, elem_of_oids. by left. }
  rewrite Hc, IHcs; [done..|].
  intros Hin. apply Hic, elem_of_oids. by right.
Qed.

(** The subtree appended below [m] hangs in the tree as it is. *)
Lemma postorder_append m c n :
  m ∈ oids n -> c ∈ postorder (update m (add_child c) n).
Proof.
  pose proof (add_child_extends c) as Hf.
  induction n as [j s l b cs IH] using t_ind'. intros Hm.
  apply elem_of_postorder. right.
  rewrite (children_update _ _ _ Hf). cbn [oid children].
  apply elem_of_oids in Hm as [->|Hm]; cbn [oid children] in *.
  - exists c. rewrite decide_True by done.
    split; [apply elem_of_app; right; by apply list_elem_of_singleton|].
    apply postorder_refl.
  - apply elem_of_oids_in in Hm as (ch & Hch & Hm).
    rewrite Forall_forall in IH. exists (update m (add_child c) ch).
    split; [|by apply IH].
    apply elem_of_app. left. apply list_elem_of_fmap. eauto.
Qed.

Lemma elem_of_oids_remove i n x : x ∈ oids (remove i n) -> x ∈ oids n.
Proof.
  induction n as [j s l b cs IH] using t_ind'.
  rewrite remove_unfold, !elem_of_oids. cbn [oid children].
  intros [?|Hx]; [by left|]. right.
  induction IH as [|c cs Hc _ IHcs]; [done|].
  cbn [remove_in] in Hx. rewrite oids_in_cons, elem_of_app.
  destruct (decide (oid c = i)); [right; by apply IHcs|].
  rewrite oids_in_cons, elem_of_app in Hx. destruct Hx; auto.
Qed.

(** The objects below the root of a tree, the root left out. *)
Definition below (n : t) : list t := concat (map postorder (children n)).

Lemma elem_of_below x n :
  x ∈ below n <-> exists c, c ∈ children n /\ x ∈ postorder c.
Proof. apply elem_of_concat_map. Qed.

Lemma below_postorder x n : x ∈ below n -> x ∈ postorder n.
Proof. intros H. apply elem_of_postorder. right. by apply elem_of_below. Qed.

Lemma below_trans x y n : x ∈ postorder y -> y ∈ below n -> x ∈ below n.
Proof.
  intros Hxy Hy. apply elem_of_below in Hy as (c & Hc & Hy).
  apply elem_of_below. exists c. split; [done|]. by eapply postorder_trans.
Qed.

Lemma tips_below x n : x ∈ tips n -> x ∈ below n.
Proof. unfold tips. intros H. by apply list_elem_of_filter in H as [_ ?]. Qed.

(** *** Lineages: what [ancestors] returns *)

Fixpoint path_in (i : nat) (n : t) (cs : list t) : option (list t) :=
  match cs with
  | [] => None
  | c :: cs' =>
      match path_to i c with
      | Some p => Some (n :: p)
      | None => path_in i n cs'
      end
  end.

Lemma path_to_unfold i n :
  path_to i n
  = if decide (oid n = i) then Some [] else path_in i n (children n).
Proof.
  destruct n as [j s l b cs]. cbn [path_to oid children].
  destruct (decide (j = i)); [done|].
  generalize (Node j s l b cs). intros n0.
  induction cs as [|c cs IH]; [done|]. cbn [path_in]. by rewrite IH.
Qed.

(** [lineage i n p]: [p] lists the objects from [n] down to the parent of
    the object [i], each the parent of the next. *)
Inductive lineage (i : nat) : t -> list t -> Prop :=
| lineage_here n : oid n = i -> lineage i n []
| lineage_down n c p :
    c ∈ children n -> lineage i c p -> lineage i n (n :: p).

Lemma path_to_lineage i n : forall p, path_to i n = Some p -> lineage i n p.
Proof.
  induction n as [j s l b cs IH] using t_ind'. intros p.
  rewrite path_to_unfold. cbn [oid children].
  destruct (decide (j = i)) as [->|Hne]; [intros [= <-]; by constructor|].
  intros H.
  assert (exists c p', c ∈ cs /\ p = Node j s l b cs :: p' /\ lineage i c p')
    as (c & p' & Hc & -> & Hp').
  { generalize (Node j s l b cs) H. clear H. intros n H.
    induction IH as [|ch cs Hch _ IHcs]; [done|].
    cbn [path_in] in H. destruct (path_to i ch) as [q|] eqn:E.
    - injection H as <-. exists ch, q.
      split; [apply elem_of_cons; by left | auto].
    - destruct (IHcs H) as (c & p' & Hc & -> & Hp').
      exists c, p'. split; [apply elem_of_cons; by right | done]. }
  by econstructor.
Qed.

Lemma path_to_is_Some i n : i ∈ oids n -> is_Some (path_to i n).
Proof.
  induction n as [j s l b cs IH] using t_ind'. intros Hi.
  rewrite path_to_unfold. cbn [oid children].
  destruct (decide (j = i)) as [->|Hne]; [eauto|].
  apply elem_of_oids in Hi as [->|Hi]; [done|]. cbn [children] in Hi.
  generalize (Node j s l b cs). intros n.
  induction IH as [|ch cs Hch _ IHcs].
  { by apply elem_of_nil in Hi. }
  cbn [path_in]. destruct (path_to i ch) as [q|] eqn:E; [eauto|].
  rewrite oids_in_cons, elem_of_app in Hi. destruct Hi as [Hi|Hi].
  - apply Hch in Hi as [? ?]. congruence.
  - by apply IHcs.
Qed.

Lemma lineage_postorder i n p :
  lineage i n p -> Forall (fun x => x ∈ postorder n) p.
Proof.
  induction 1 as [n Hn|n c p Hc Hp IH]; [constructor|].
  apply Forall_cons. split; [apply postorder_refl|].
  eapply Forall_impl; [exact IH|]. intros x Hx.
  eapply postorder_trans; [exact Hx | by apply postorder_child].
Qed.

Lemma reverse_removelast_reverse {A} (p : list A) :
  reverse (removelast (reverse p)) = tail p.
Proof.
  destruct p as [|a p]; [done|].
  rewrite reverse_cons, removelast_last. apply reverse_involutive.
Qed.

Lemma ancestors_path i n heap p :
  path_to i n = Some p -> ancestors (n :: heap) i = reverse p.
Proof. intros H. cbn [ancestors]. by rewrite H. Qed.

End MergeFacts.

(** ** The walk down the ancestors of a tip *)

(** The walk as the specification words it: at the first ancestor the
    accumulating tree lacks, append its subtree at the insertion point
    "and stop walking". *)
Fixpoint walk_stop (heap : TreeNode.t * TreeNode.t) (matching : nat)
    (parents : list TreeNode.t) : result (TreeNode.t * TreeNode.t) :=
  match parents with
  | [] => Ok heap
  | node :: parents' =>
      match TreeNode.find (fst heap) (TreeNode.name node) with
      | Ok m => walk_stop heap (TreeNode.oid m) parents'
      | Raise MissingNodeError => Ok (graft matching (TreeNode.oid node) heap)
      | Raise e => Raise e
      end
  end.

Definition merge_tip_stop (heap : TreeNode.t * TreeNode.t) (tip : TreeNode.t)
  : result (TreeNode.t * TreeNode.t) :=
  let '(full_tree, tree) := heap in
  match TreeNode.find full_tree (TreeNode.name tip) with
  | Ok _ => Ok heap
  | Raise MissingNodeError =>
      let parents :=
        removelast (TreeNode.ancestors [tree; full_tree] (TreeNode.oid tip)) in
      walk_stop heap (TreeNode.oid full_tree) (reverse parents)
  | Raise e => Raise e
  end.

Module WalkFacts.
Import TreeNode TreeFacts FindFacts MergeFacts.

(** Every object below the root has a name, as in the trees
    [_kraken_to_ncbi_tree] builds. *)
Definition all_named (n : t) : Prop :=
  forall x, x ∈ below n -> is_Some (name x).

(** Once every remaining ancestor bears a name of the accumulating tree,
    the walk changes nothing more. *)
Lemma walk_found heap parents : forall matching,
  (forall p, p ∈ parents ->
     exists s x, name p = Some s /\ x ∈ postorder (fst heap) /\ name x = Some s) ->
  walk heap matching parents = Ok heap
  \/ walk heap matching parents = Raise DuplicateNodeError.
Proof.
  induction parents as [|node parents IH]; intros matching Hall; [by left|].
  cbn [walk].
  destruct (Hall node) as (s & x & Hs & Hx & Hxs); [apply elem_of_cons; by left|].
  destruct (find (fst heap) (name node)) as [m|e] eqn:E.
  - apply IH. intros p Hp. apply Hall, elem_of_cons. by right.
  - destruct (find_raises _ _ _ E) as [-> | ->]; [|by right].
    rewrite Hs in E. by destruct (find_Missing _ _ _ E Hx).
Qed.

Section Walk.

Variables full_tree tree : t.
Hypothesis distinct : NoDup (oids full_tree ++ oids tree).
Hypothesis named : all_named tree.

Lemma NoDup_tree : NoDup (oids tree).
Proof. pose proof distinct as H. by apply NoDup_app in H as (_ & _ & ?). Qed.

Lemma full_tree_not_tree x : x ∈ oids full_tree -> x ∉ oids tree.
Proof.
  intros Hx. pose proof distinct as H.
  apply NoDup_app in H as (_ & H & _). by apply H.
Qed.

(** The effect of [matching.append(node)] for a node of [tree]. *)
Lemma graft_below matching node :
  matching ∈ oids full_tree -> node ∈ below tree ->
  graft matching (oid node) (full_tree, tree)
  = (append matching node full_tree, remove (oid node) tree).
Proof.
  intros Hm Hnode. unfold graft.
  rewrite (get_postorder _ _ NoDup_tree (below_postorder _ _ Hnode)).
  assert (oid node ∉ oids full_tree) as Hnot.
  { intros Hin. apply (full_tree_not_tree _ Hin).
    by apply postorder_oid, below_postorder. }
  rewrite remove_notin.
  2:{ intros Hin. apply Hnot, elem_of_oids. by right. }
  f_equal. unfold append. apply update_notin.
  intros Hin. apply elem_of_oids_remove in Hin.
  by apply (full_tree_not_tree matching).
Qed.

Lemma walk_vs_stop i c parents :
  lineage i c parents -> c ∈ below tree ->
  forall matching, matching ∈ oids full_tree ->
  match walk_stop (full_tree, tree) matching parents with
  | Ok heap =>
      (walk (full_tree, tree) matching parents = Ok heap
       \/ walk (full_tree, tree) matching parents = Raise DuplicateNodeError)
      /\ (heap = (full_tree, tree)
          \/ exists m a,
               m ∈ oids full_tree /\ a ∈ parents
               /\ find full_tree (name a) = Raise MissingNodeError
               /\ heap = (append m a full_tree, remove (oid a) tree))
  | Raise e => walk (full_tree, tree) matching parents = Raise e
  end.
Proof.
  induction 1 as [n Hn|n c p Hc Hp IH]; intros Hbelow matching Hm.
  { cbn. split; [by left | by left]. }
  cbn [walk_stop walk fst].
  destruct (find full_tree (name n)) as [m|e] eqn:E.
  - assert (c ∈ below tree) as Hcb
      by (eapply below_trans; [by apply postorder_child | done]).
    assert (oid m ∈ oids full_tree) as Hm'
      by (apply find_Ok in E as [? _]; by apply postorder_oid).
    specialize (IH Hcb (oid m) Hm').
    destruct (walk_stop (full_tree, tree) (oid m) p) as [heap|e]; [|done].
    destruct IH as [Hw Hheap]. split; [done|].
    destruct Hheap as [?|(m' & a & ? & ? & ? & ?)]; [by left|].
    right. exists m', a. split; [done|].
    split; [apply elem_of_cons; by right | done].
  - destruct e; try done.
    rewrite (graft_below _ _ Hm Hbelow). split.
    + apply walk_found. intros q Hq. cbn [fst].
      apply lineage_postorder in Hp. rewrite Forall_forall in Hp.
      assert (q ∈ postorder n) as Hqn.
      { eapply postorder_trans; [by apply Hp | by apply postorder_child]. }
      destruct (named q) as [s Hs]; [by eapply below_trans|].
      exists s, q. split; [done|]. split; [|done].
      eapply postorder_trans; [exact Hqn|]. by apply postorder_append.
    + right. exists matching, n. split; [done|].
      split; [apply elem_of_cons; by left | done].
Qed.

End Walk.

End WalkFacts.

Import WalkFacts.

(** Two samples that share the domain and differ in the species. *)
Definition sample_ecoli : TreeNode.t :=
  Eval vm_compute in
    match _kraken_to_ncbi_tree 0
            [mkRow "D" "  Bacteria" 2 0.5%float;
             mkRow "S" "    Escherichia coli" 562 0.5%float] with
    | Ok tree => tree
    | Raise _ => TreeNode.Node 0 None None None []
    end.

Definition sample_salmonella : TreeNode.t :=
  Eval vm_compute in
    match _kraken_to_ncbi_tree 5
            [mkRow "D" "  Bacteria" 2 0.5%float;
             mkRow "S" "    Salmonella enterica" 28901 0.5%float] with
    | Ok tree => tree
    | Raise _ => TreeNode.Node 0 None None None []
    end.

(** Two samples that give one taxon identifier, 561, two names. *)
Definition sample_old_genus : TreeNode.t :=
  Eval vm_compute in
    match _kraken_to_ncbi_tree 0
            [mkRow "D" "  Bacteria" 2 0.5%float;
             mkRow "G" "    Bacterium" 561 0.5%float] with
    | Ok tree => tree
    | Raise _ => TreeNode.Node 0 None None None []
    end.

Definition sample_new_genus : TreeNode.t :=
  Eval vm_compute in
    match _kraken_to_ncbi_tree 5
            [mkRow "D" "  Bacteria" 2 0.5%float;
             mkRow "G" "    Escherichia" 561 0.5%float;
             mkRow "S" "      Escherichia coli" 562 0.5%float] with
    | Ok tree => tree
    | Raise _ => TreeNode.Node 0 None None None []
    end.

Definition tip_562 : TreeNode.t :=
  TreeNode.Node 11 (Some "562") (Some 0) (Some true) [].

(** C8, as the code has it.  The tip 562 of the second sample is absent
    from the first; its ancestor [g__Escherichia] is absent too and is
    appended with its identifier node 561, a tip name the accumulating
    tree already has.  Stopping there returns; continuing calls [find]
    for [s__Escherichia coli], which raises [DuplicateNodeError]. *)
Lemma walk_continue_differs_from_stop :
  tip_562 ∈ TreeNode.tips sample_new_genus
  /\ TreeNode.find sample_old_genus (TreeNode.name tip_562)
     = Raise MissingNodeError
  /\ merge_tip (sample_old_genus, sample_new_genus) tip_562
     = Raise DuplicateNodeError
  /\ Py.returns (merge_tip_stop (sample_old_genus, sample_new_genus) tip_562)
  /\ _combine_ncbi_trees [sample_old_genus; sample_new_genus]
     = Raise DuplicateNodeError.
Proof.
  split; [|split; [|split; [|split]]].
  - vm_compute. repeat first [apply list_elem_of_here | apply list_elem_of_further].
  - by vm_compute.
  - by vm_compute.
  - eexists. by vm_compute.
  - by vm_compute.
Qed.

(** C8, amended.  For a tip whose identifier the accumulating tree lacks,
    the walk down its ancestors appends at most once: when it returns, the
    heap is unchanged or is the one with the subtree of the first absent
    ancestor moved below the insertion point, which is what stopping at
    the append returns; and when stopping returns, continuing returns the
    same heap or raises [DuplicateNodeError] at a later [find]. *)
Theorem ancestor_walk_appends_once (full_tree tree tip : TreeNode.t) :
  NoDup (TreeFacts.oids full_tree ++ TreeFacts.oids tree) ->
  all_named tree ->
  tip ∈ TreeNode.tips tree ->
  TreeNode.find full_tree (TreeNode.name tip) = Raise MissingNodeError ->
  (forall heap,
      merge_tip (full_tree, tree) tip = Ok heap ->
      merge_tip_stop (full_tree, tree) tip = Ok heap
      /\ (heap = (full_tree, tree)
          \/ exists m a,
               m ∈ TreeFacts.oids full_tree /\ a ∈ MergeFacts.below tree
               /\ TreeNode.find full_tree (TreeNode.name a)
                  = Raise MissingNodeError
               /\ heap = (append m a full_tree,
                          TreeNode.remove (TreeNode.oid a) tree)))
  /\ (forall heap,
        merge_tip_stop (full_tree, tree) tip = Ok heap ->
        merge_tip (full_tree, tree) tip = Ok heap
        \/ merge_tip (full_tree, tree) tip = Raise DuplicateNodeError).
Proof.
  intros Hnd Hnamed Htip Hfind.
  unfold merge_tip, merge_tip_stop. rewrite Hfind.
  assert (TreeNode.oid tip ∈ TreeFacts.oids tree) as Hoid.
  { by apply MergeFacts.postorder_oid, MergeFacts.below_postorder,
      MergeFacts.tips_below. }
  apply MergeFacts.path_to_is_Some in Hoid as [p Hp].
  rewrite (MergeFacts.ancestors_path _ _ _ _ Hp).
  rewrite MergeFacts.reverse_removelast_reverse.
  apply MergeFacts.path_to_lineage in Hp.
  destruct Hp as [n Hn|n c p Hc Hp]; cbn [tail].
  { split; [intros heap [= <-]; split; [done | by left]|].
    intros heap [= <-]. by left. }
  assert (c ∈ MergeFacts.below n) as Hcb.
  { apply MergeFacts.elem_of_below. exists c.
    split; [done | apply MergeFacts.postorder_refl]. }
  assert (TreeNode.oid full_tree ∈ TreeFacts.oids full_tree) as Hm
    by (apply TreeFacts.elem_of_oids; by left).
  pose proof (walk_vs_stop full_tree n Hnd Hnamed _ _ _ Hp Hcb _ Hm) as Hw.
  destruct (walk_stop (full_tree, n) (TreeNode.oid full_tree) p) as [h|e].
  - destruct Hw as [Hw Hh]. split.
    + intros heap Hheap. destruct Hw as [Hw|Hw]; rewrite Hw in Hheap; [|done].
      injection Hheap as <-. split; [done|].
      destruct Hh as [?|(m & a & ? & Ha & ? & ?)]; [by left|].
      right. exists m, a. split; [done|]. split; [|done].
      apply MergeFacts.lineage_postorder in Hp. rewrite Forall_forall in Hp.
      eapply MergeFacts.below_trans; [by apply Hp | done].
    + by intros heap [= <-].
  - split; [|done]. intros heap Hheap. by rewrite Hw in Hheap.
Qed.

Lemma ancestor_walk_appends_once_witness :
  (forall heap,
      merge_tip (sample_ecoli, sample_salmonella)
        (TreeNode.Node 9 (Some "28901") (Some 0) (Some true) []) = Ok heap ->
      merge_tip_stop (sample_ecoli, sample_salmonella)
        (TreeNode.Node 9 (Some "28901") (Some 0) (Some true) []) = Ok heap
      /\ (heap = (sample_ecoli, sample_salmonella)
          \/ exists m a,
               m ∈ TreeFacts.oids sample_ecoli
               /\ a ∈ MergeFacts.below sample_salmonella
               /\ TreeNode.find sample_ecoli (TreeNode.name a)
                  = Raise MissingNodeError
               /\ heap = (append m a sample_ecoli,
                          TreeNode.remove (TreeNode.oid a) sample_salmonella)))
  /\ (forall heap,
        merge_tip_stop (sample_ecoli, sample_salmonella)
          (TreeNode.Node 9 (Some "28901") (Some 0) (Some true) []) = Ok heap ->
        merge_tip (sample_ecoli, sample_salmonella)
          (TreeNode.Node 9 (Some "28901") (Some 0) (Some true) []) = Ok heap
        \/ merge_tip (sample_ecoli, sample_salmonella)
             (TreeNode.Node 9 (Some "28901") (Some 0) (Some true) [])
           = Raise DuplicateNodeError).
Proof.
  apply (ancestor_walk_appends_once sample_ecoli sample_salmonella).
  - apply (bool_decide_unpack _). by vm_compute.
  - intros x Hx. vm_compute in Hx.
    repeat (apply elem_of_cons in Hx as [->|Hx]; [by eexists|]).
    by apply elem_of_nil in Hx.
  - vm_compute. repeat first [apply list_elem_of_here | apply list_elem_of_further].
  - by vm_compute.
Defined.

(** ** Merging a tree with a copy of itself *)

(** A tree without the identities of its objects: two trees with the same
    skeleton are copies of each other. *)
Fixpoint skeleton (n : TreeNode.t) : TreeNode.t :=
  let 'TreeNode.Node _ s l b cs := n in
  TreeNode.Node 0 s l b (map skeleton cs).

Lemma skeleton_name n : TreeNode.name (skeleton n) = TreeNode.name n.
Proof. by destruct n. Qed.

Lemma skeleton_is_tip n : TreeNode.is_tip (skeleton n) = TreeNode.is_tip n.
Proof. destruct n as [j s l b [|c cs]]; reflexivity. Qed.

Lemma skeleton_children n :
  TreeNode.children (skeleton n) = map skeleton (TreeNode.children n).
Proof. by destruct n. Qed.

Lemma skeleton_postorder n :
  TreeNode.postorder (skeleton n) = map skeleton (TreeNode.postorder n).
Proof.
  induction n as [j s l b cs IH] using TreeFacts.t_ind'.
  rewrite !MergeFacts.postorder_unfold, skeleton_children, map_app.
  cbn [TreeNode.children map]. f_equal.
  induction IH as [|c cs Hc _ IHcs]; [done|].
  cbn [map concat]. by rewrite map_app, Hc, IHcs.
Qed.

Lemma skeleton_below n :
  MergeFacts.below (skeleton n) = map skeleton (MergeFacts.below n).
Proof.
  unfold MergeFacts.below. rewrite skeleton_children.
  induction (TreeNode.children n) as [|c cs IH]; [done|].
  cbn [map concat]. by rewrite map_app, skeleton_postorder, IH.
Qed.

Lemma tip_names_skeleton (l : list TreeNode.t) :
  map TreeNode.name
    (filter (fun x => TreeNode.is_tip x = true) (map skeleton l))
  = map TreeNode.name (filter (fun x => TreeNode.is_tip x = true) l).
Proof.
  induction l as [|a l IH]; [done|].
  cbn [map]. rewrite !filter_cons, skeleton_is_tip.
  destruct (decide (TreeNode.is_tip a = true)); [|done].
  cbn [map]. by rewrite skeleton_name, IH.
Qed.

Lemma skeleton_tip_names n n' :
  skeleton n' = skeleton n ->
  map TreeNode.name (TreeNode.tips n') = map TreeNode.name (TreeNode.tips n).
Proof.
  intros H. unfold TreeNode.tips. fold (MergeFacts.below n) (MergeFacts.below n').
  by rewrite <- (tip_names_skeleton (MergeFacts.below n')),
    <- (tip_names_skeleton (MergeFacts.below n)), <- !skeleton_below, H.
Qed.

Lemma merge_tips_all_found heap tips :
  (forall tip, tip ∈ tips ->
     exists m, TreeNode.find (fst heap) (TreeNode.name tip) = Ok m) ->
  merge_tips heap tips = Ok heap.
Proof.
  induction tips as [|tip tips IH]; intros Hall; [done|].
  cbn [merge_tips]. destruct heap as [full_tree tree]. unfold merge_tip.
  destruct (Hall tip) as [m Hm]; [apply elem_of_cons; by left|].
  cbn [fst] in Hm. rewrite Hm, bind_Ok. apply IH.
  intros tip' Htip'. apply Hall, elem_of_cons. by right.
Qed.

(** A report whose two rows pass the rank guard, are both most specific
    and bear the same identifier; the tree [_kraken_to_ncbi_tree] builds
    for it, and a second tree built for it from other objects. *)
Definition report_twice_562 : list Row :=
  [mkRow "S" "  Escherichia coli" 562 0.5%float;
   mkRow "S" "  Escherichia coli" 562 0.5%float].

Definition repeated_tip : TreeNode.t :=
  Eval vm_compute in
    match _kraken_to_ncbi_tree 0 report_twice_562 with
    | Ok tree => tree
    | Raise _ => TreeNode.Node 0 None None None []
    end.

Definition repeated_tip_copy : TreeNode.t :=
  Eval vm_compute in
    match _kraken_to_ncbi_tree 5 report_twice_562 with
    | Ok tree => tree
    | Raise _ => TreeNode.Node 0 None None None []
    end.

(** C3, as the code has it.  The tree of a report that lists an
    identifier twice has two tips of that name.  Merged with a copy of
    itself it is not returned: the first look-up of a tip of the copy
    fills the cache of [find], which raises [DuplicateNodeError] on the
    second tip of one name. *)
Lemma combine_with_copy_of_repeated_tip_raises :
  _kraken_to_ncbi_tree 0 report_twice_562 = Ok repeated_tip
  /\ _kraken_to_ncbi_tree 5 report_twice_562 = Ok repeated_tip_copy
  /\ skeleton repeated_tip_copy = skeleton repeated_tip
  /\ _combine_ncbi_trees [repeated_tip; repeated_tip_copy]
     = Raise DuplicateNodeError.
Proof. repeat split; by vm_compute. Qed.

(** C3, amended.  Merging a tree with a copy of itself returns the tree
    as it was, and nothing is appended to it, when every node below the
    root is named and no two tips bear the same identifier. *)
Theorem combine_with_copy_is_idempotent (full_tree copy : TreeNode.t) :
  skeleton copy = skeleton full_tree ->
  all_named full_tree ->
  NoDup (FindFacts.tip_names_of (TreeNode.postorder full_tree)) ->
  _combine_ncbi_trees [full_tree; copy] = Ok full_tree.
Proof.
  intros Hcopy Hnamed Hnd. cbn [_combine_ncbi_trees merge_trees].
  unfold merge_tree. rewrite merge_tips_all_found; [done|].
  intros tip Htip. cbn [fst].
  assert (TreeNode.name tip ∈ map TreeNode.name (TreeNode.tips full_tree)) as Hin.
  { rewrite <- (skeleton_tip_names _ _ Hcopy). apply list_elem_of_fmap. eauto. }
  apply list_elem_of_fmap in Hin as (y & Hy & Hytip).
  apply MergeFacts.tips_below in Hytip as Hbelow.
  destruct (Hnamed _ Hbelow) as [s Hs]. rewrite Hy, Hs.
  eapply FindFacts.find_returns; [done| |done].
  by apply MergeFacts.below_postorder.
Qed.

Definition sample_ecoli_copy : TreeNode.t :=
  Eval vm_compute in
    match _kraken_to_ncbi_tree 5
            [mkRow "D" "  Bacteria" 2 0.5%float;
             mkRow "S" "    Escherichia coli" 562 0.5%float] with
    | Ok tree => tree
    | Raise _ => TreeNode.Node 0 None None None []
    end.

Lemma combine_with_copy_is_idempotent_witness :
  _combine_ncbi_trees [sample_ecoli; sample_ecoli_copy] = Ok sample_ecoli.
Proof.
  apply (combine_with_copy_is_idempotent sample_ecoli sample_ecoli_copy).
  - by vm_compute.
  - intros x Hx. vm_compute in Hx.
    repeat (apply elem_of_cons in Hx as [->|Hx]; [by eexists|]).
    by apply elem_of_nil in Hx.
  - apply (bool_decide_unpack _). by vm_compute.
Defined.

(** ** The rank paths of a tree, as parent and child names *)

Module UnionFacts.
Import TreeNode TreeFacts FindFacts MergeFacts WalkFacts.

(** The edges of the subtree of [n] hanging below a node named [parent]:
    for every object, the name of its parent and its own name. *)
Fixpoint edges_from (parent : option string) (n : t)
  : list (option string * option string) :=
  concat (map (edges_from (name n)) (children n)) ++ [(parent, name n)].

(** The edges of a tree: those of the objects below its root. *)
Definition edges (n : t) : list (option string * option string) :=
  concat (map (edges_from (name n)) (children n)).

(** The names of the objects below the root. *)
Definition names (n : t) : list (option string) := (edges n).*2.

Lemma edges_from_unfold parent n :
  edges_from parent n = edges n ++ [(parent, name n)].
Proof. by destruct n. Qed.

Lemma elem_of_edges e n :
  e ∈ edges n <-> exists c, c ∈ children n /\ e ∈ edges_from (name n) c.
Proof. apply elem_of_concat_map. Qed.

Lemma elem_of_edges_from e parent n :
  e ∈ edges_from parent n <-> e = (parent, name n) \/ e ∈ edges n.
Proof.
  rewrite edges_from_unfold, elem_of_app, list_elem_of_singleton. tauto.
Qed.

Lemma edges_from_names parent n :
  (edges_from parent n).*2 = name <$> postorder n.
Proof.
  revert parent. induction n as [j s l b cs IH] using t_ind'. intros parent.
  rewrite edges_from_unfold, postorder_unfold, !fmap_app. cbn [children name].
  f_equal. unfold edges. cbn [children name].
  induction IH as [|c cs Hc _ IHcs]; [done|].
  cbn [map concat]. by rewrite !fmap_app, Hc, IHcs.
Qed.

Lemma names_below n : names n = name <$> below n.
Proof.
  unfold names, edges, below.
  induction (children n) as [|c cs IH]; [done|].
  cbn [map concat]. by rewrite !fmap_app, edges_from_names, IH.
Qed.

Lemma elem_of_names s n : s ∈ names n <-> exists x, x ∈ below n /\ name x = s.
Proof.
  rewrite names_below, list_elem_of_fmap. split; intros (x & ? & ?); eauto.
Qed.

(** An edge of a tree joins an object of the tree to one of its children. *)
Lemma elem_of_edges_child p s n :
  (p, s) ∈ edges n
  <-> exists y c, y ∈ postorder n /\ c ∈ children y
                  /\ p = name y /\ s = name c.
Proof.
  induction n as [j sn l b cs IH] using t_ind'.
  rewrite elem_of_edges. cbn [children name]. split.
  - intros (c & Hc & He). apply elem_of_edges_from in He as [[= -> ->]|He].
    + exists (Node j sn l b cs), c. split; [apply postorder_refl | done].
    + rewrite Forall_forall in IH. apply (IH c Hc) in He
        as (y & c' & Hy & Hc' & -> & ->).
      exists y, c'. split; [|done].
      eapply postorder_trans; [done | by apply postorder_child].
  - intros (y & c & Hy & Hc & -> & ->).
    apply elem_of_postorder in Hy as [->|(ch & Hch & Hy)].
    + exists c. split; [done|]. apply elem_of_edges_from. by left.
    + exists ch. cbn [children] in Hch. split; [done|].
      apply elem_of_edges_from. right.
      rewrite Forall_forall in IH. apply (IH ch Hch). by exists y, c.
Qed.

(** *** What [append] adds to a tree and [remove] takes from it *)

(** The objects of a tree with the identity [y]. *)
Definition hits (y : nat) (n : t) : list t :=
  filter (fun x => oid x = y) (postorder n).

Lemma hits_unfold y n :
  hits y n
  = concat (map (hits y) (children n)) ++ (if decide (oid n = y) then [n] else []).
Proof.
  unfold hits. rewrite postorder_unfold, filter_app. f_equal.
  induction (children n) as [|c cs IH]; [done|].
  cbn [map concat]. by rewrite filter_app, IH.
Qed.

Lemma filter_fmap_notin {A B} `{EqDecision B} (f : A -> B) (l : list A) (b : B) :
  b ∉ f <$> l -> filter (fun x => f x = b) l = [].
Proof.
  induction l as [|a l IH]; [done|].
  rewrite fmap_cons, not_elem_of_cons. intros [Hne Hb].
  rewrite filter_cons, decide_False by done. by apply IH.
Qed.

Lemma NoDup_fmap_filter {A B} `{EqDecision B} (f : A -> B) (l : list A) (m : A) :
  NoDup (f <$> l) -> m ∈ l -> filter (fun x => f x = f m) l = [m].
Proof.
  induction l as [|a l IH]; intros Hnd Hm; [by apply elem_of_nil in Hm|].
  rewrite fmap_cons in Hnd. apply NoDup_cons in Hnd as [Ha Hnd].
  rewrite filter_cons. apply elem_of_cons in Hm as [->|Hm].
  - rewrite decide_True by done. f_equal. by apply filter_fmap_notin.
  - rewrite decide_False; [by apply IH|].
    intros Heq. apply Ha. rewrite Heq. by apply list_elem_of_fmap_2.
Qed.

Lemma hits_unique m n :
  NoDup (oids n) -> m ∈ postorder n -> hits (oid m) n = [m].
Proof. intros Hnd Hm. by apply NoDup_fmap_filter. Qed.

Lemma oid_inj x y n :
  NoDup (oids n) -> x ∈ postorder n -> y ∈ postorder n ->
  oid x = oid y -> x = y.
Proof.
  intros Hnd Hx Hy Heq.
  pose proof (get_postorder _ _ Hnd Hx) as H1.
  pose proof (get_postorder _ _ Hnd Hy) as H2.
  rewrite Heq, H2 in H1. by injection H1.
Qed.

Section Collect.

Context {B : Type}.
(** [g] reads the name of the parent of an object, and the identity and
    the name of the object. *)
Variable g : option string -> nat -> option string -> B.

Fixpoint collect (parent : option string) (n : t) : list B :=
  concat (map (collect (name n)) (children n)) ++ [g parent (oid n) (name n)].

Definition collect_below (n : t) : list B :=
  concat (map (collect (name n)) (children n)).

Lemma collect_unfold parent n :
  collect parent n = collect_below n ++ [g parent (oid n) (name n)].
Proof. by destruct n. Qed.

(** What [remove] drops: the subtrees of the children of identity [i]. *)
Fixpoint dropped (i : nat) (n : t) : list B :=
  concat (map (fun c => if decide (oid c = i) then collect (name n) c
                        else dropped i c) (children n)).

Lemma collect_append y a n parent :
  collect parent (update y (add_child a) n)
  ≡ₚ collect parent n ++ concat (map (fun x => collect (name x) a) (hits y n)).
Proof.
  pose proof (add_child_extends a) as Hf.
  revert parent. induction n as [j s l b cs IH] using t_ind'. intros parent.
  rewrite (collect_unfold _ (update _ _ _)), (collect_unfold _ (Node j s l b cs)).
  rewrite (oid_update _ _ _ Hf), (name_update _ _ _ Hf).
  unfold collect_below.
  rewrite (name_update _ _ _ Hf), (children_update _ _ _ Hf), hits_unfold.
  cbn [oid name children].
  rewrite !map_app, !concat_app.
  assert (concat (map (collect s) (map (update y (add_child a)) cs))
          ≡ₚ concat (map (collect s) cs)
             ++ concat (map (fun x => collect (name x) a)
                          (concat (map (hits y) cs)))) as ->.
  { induction IH as [|c cs Hc _ IHcs]; [done|].
    cbn [map concat]. rewrite Hc, IHcs, !map_app, !concat_app.
    rewrite <- !app_assoc. f_equiv. rewrite !app_assoc. f_equiv.
    apply Permutation_app_comm. }
  destruct (decide (j = y)) as [->|Hne]; cbn [map concat].
  - rewrite !app_nil_r, <- !app_assoc. f_equiv.
    rewrite (app_assoc _ _ [_]). apply Permutation_app_comm.
  - rewrite !app_nil_r, <- !app_assoc. f_equiv. apply Permutation_app_comm.
Qed.

Lemma collect_remove i n parent :
  collect parent n ≡ₚ collect parent (remove i n) ++ dropped i n.
Proof.
  revert parent. induction n as [j s l b cs IH] using t_ind'. intros parent.
  rewrite remove_unfold, !collect_unfold. unfold collect_below.
  cbn [oid name children dropped].
  assert (concat (map (collect s) cs)
          ≡ₚ concat (map (collect s) (remove_in i cs))
             ++ concat (map (fun c => if decide (oid c = i) then collect s c
                                      else dropped i c) cs)) as ->.
  { induction IH as [|c cs Hc _ IHcs]; [done|].
    cbn [map concat remove_in]. destruct (decide (oid c = i)).
    - rewrite IHcs, !app_assoc. f_equiv. apply Permutation_app_comm.
    - cbn [map concat]. rewrite (Hc s), IHcs, <- !app_assoc. f_equiv.
      rewrite !app_assoc. f_equiv. apply Permutation_app_comm. }
  rewrite <- !app_assoc. f_equiv. apply Permutation_app_comm.
Qed.

Lemma dropped_notin i n : i ∉ oids_in (children n) -> dropped i n = [].
Proof.
  induction n as [j s l b cs IH] using t_ind'. cbn [children dropped name].
  intros Hi. induction IH as [|c cs Hc _ IHcs]; [done|].
  rewrite oids_in_cons in Hi. apply not_elem_of_app in Hi as [Hic Hics].
  cbn [map concat]. rewrite decide_False.
  2:{ intros <-. apply Hic, elem_of_oids. by left. }
  rewrite Hc, IHcs; [done..|].
  intros Hin. apply Hic, elem_of_oids. by right.
Qed.

Lemma dropped_term_notin i s c :
  i ∉ oids c ->
  (if decide (oid c = i) then collect s c else dropped i c) = [].
Proof.
  intros Hi. rewrite decide_False.
  2:{ intros <-. apply Hi, elem_of_oids. by left. }
  apply dropped_notin. intros Hin. apply Hi, elem_of_oids. by right.
Qed.

Lemma dropped_terms_one i s cs c :
  NoDup (oids_in cs) -> c ∈ cs -> i ∈ oids c ->
  concat (map (fun c => if decide (oid c = i) then collect s c
                        else dropped i c) cs)
  = if decide (oid c = i) then collect s c else dropped i c.
Proof.
  induction cs as [|ch cs IH]; intros Hnd Hc Hi; [by apply elem_of_nil in Hc|].
  rewrite oids_in_cons in Hnd. apply NoDup_app in Hnd as (_ & Hdisj & Hnd).
  cbn [map concat]. apply elem_of_cons in Hc as [->|Hc].
  - assert (concat (map (fun c => if decide (oid c = i) then collect s c
                                  else dropped i c) cs) = []) as ->.
    { specialize (Hdisj _ Hi). clear IH Hnd.
      induction cs as [|c' cs IH]; [done|].
      rewrite oids_in_cons, not_elem_of_app in Hdisj. destruct Hdisj as [? ?].
      cbn [map concat]. by rewrite dropped_term_notin, IH. }
    by rewrite app_nil_r.
  - rewrite dropped_term_notin; [by apply IH|].
    intros Hin. apply (Hdisj _ Hin). apply elem_of_oids_in. eauto.
Qed.

Lemma dropped_unique y a n :
  NoDup (oids n) -> y ∈ postorder n -> a ∈ children y ->
  dropped (oid a) n = collect (name y) a.
Proof.
  induction n as [j s l b cs IH] using t_ind'. intros Hnd Hy Ha.
  cbn [dropped children name].
  pose proof Hnd as Hnd'. rewrite oids_unfold in Hnd'. cbn [oid children] in Hnd'.
  apply NoDup_app in Hnd' as (Hcs & _ & _).
  apply elem_of_postorder in Hy as [->|(ch & Hch & Hy)]; cbn [children] in *.
  - rewrite (dropped_terms_one _ _ _ a Hcs Ha)
      by (apply elem_of_oids; by left).
    by rewrite decide_True.
  - assert (a ∈ below ch) as Hbelow.
    { eapply below_trans; [apply postorder_refl|].
      apply elem_of_postorder in Hy as [->|(c' & Hc' & Hy)].
      - apply elem_of_below. exists a. split; [done | apply postorder_refl].
      - apply elem_of_below. exists c'. split; [done|].
        eapply postorder_trans; [by apply postorder_child | done]. }
    assert (NoDup (oids ch)) as Hndch.
    { clear -Hcs Hch. induction cs as [|c cs IH]; [by apply elem_of_nil in Hch|].
      rewrite oids_in_cons in Hcs. apply NoDup_app in Hcs as (? & _ & ?).
      apply elem_of_cons in Hch as [->|Hch]; auto. }
    assert (oid a ∈ oids_in (children ch)) as Hin
      by (unfold oids_in; by apply list_elem_of_fmap_2).
    rewrite (dropped_terms_one _ _ _ ch Hcs Hch)
      by (apply elem_of_oids; by right).
    rewrite decide_False.
    2:{ intros Heq. rewrite oids_unfold in Hndch.
        apply NoDup_app in Hndch as (_ & Hd & _).
        apply (Hd _ Hin). rewrite Heq. by apply list_elem_of_singleton. }
    rewrite Forall_forall in IH. by apply IH.
Qed.

End Collect.

Lemma collect_below_append {B} (g : option string -> nat -> option string -> B)
    m a n :
  NoDup (oids n) -> m ∈ postorder n ->
  collect_below g (update (oid m) (add_child a) n)
  ≡ₚ collect_below g n ++ collect g (name m) a.
Proof.
  intros Hnd Hm. pose proof (add_child_extends a) as Hf.
  pose proof (collect_append g (oid m) a n None) as H.
  rewrite (hits_unique _ _ Hnd Hm) in H. cbn [map concat] in H.
  rewrite app_nil_r in H.
  rewrite (collect_unfold _ _ (update _ _ _)), (collect_unfold _ None n) in H.
  rewrite (oid_update _ _ _ Hf), (name_update _ _ _ Hf) in H.
  apply Permutation_app_inv_r with (l := [g None (oid n) (name n)]).
  etransitivity; [exact H|]. rewrite <- !app_assoc. f_equiv.
  apply Permutation_app_comm.
Qed.

Lemma remove_oid_name i n : oid (remove i n) = oid n /\ name (remove i n) = name n.
Proof. by destruct n. Qed.

Lemma collect_below_remove {B} (g : option string -> nat -> option string -> B)
    y a n :
  NoDup (oids n) -> y ∈ postorder n -> a ∈ children y ->
  collect_below g n
  ≡ₚ collect_below g (remove (oid a) n) ++ collect g (name y) a.
Proof.
  intros Hnd Hy Ha.
  pose proof (collect_remove g (oid a) n None) as H.
  rewrite (dropped_unique g _ _ _ Hnd Hy Ha) in H.
  rewrite (collect_unfold _ None n), (collect_unfold _ None (remove _ _)) in H.
  destruct (remove_oid_name (oid a) n) as [Ho Hn]. rewrite Ho, Hn in H.
  apply Permutation_app_inv_r with (l := [g None (oid n) (name n)]).
  etransitivity; [exact H|]. rewrite <- !app_assoc. f_equiv.
  apply Permutation_app_comm.
Qed.

(** The views of a tree the merge is stated with. *)
Lemma collect_postorder {B} (h : nat -> option string -> B) parent n :
  collect (fun _ => h) parent n = (fun x => h (oid x) (name x)) <$> postorder n.
Proof.
  revert parent. induction n as [j s l b cs IH] using t_ind'. intros parent.
  rewrite collect_unfold, postorder_unfold, fmap_app. cbn [children oid name].
  f_equal. unfold collect_below. cbn [children name].
  induction IH as [|c cs Hc _ IHcs]; [done|].
  cbn [map concat]. by rewrite fmap_app, Hc, IHcs.
Qed.

Lemma collect_below_postorder {B} (h : nat -> option string -> B) n :
  collect_below (fun _ => h) n = (fun x => h (oid x) (name x)) <$> below n.
Proof.
  unfold collect_below, below.
  induction (children n) as [|c cs IH]; [done|].
  cbn [map concat]. by rewrite fmap_app, collect_postorder, IH.
Qed.

Lemma collect_edges_from parent n :
  collect (fun p _ s => (p, s)) parent n = edges_from parent n.
Proof. reflexivity. Qed.

Lemma collect_below_edges n : collect_below (fun p _ s => (p, s)) n = edges n.
Proof. reflexivity. Qed.

(** The identity and the name of an object. *)
Definition label (x : t) : nat * option string := (oid x, name x).

Section AppendRemove.

Variables (n m y a : t).
Hypothesis distinct : NoDup (oids n).

Lemma edges_append :
  m ∈ postorder n ->
  edges (update (oid m) (add_child a) n) ≡ₚ edges n ++ edges_from (name m) a.
Proof.
  intros Hm. rewrite <- !collect_below_edges, <- collect_edges_from.
  by apply collect_below_append.
Qed.

Lemma below_append :
  m ∈ postorder n ->
  label <$> below (update (oid m) (add_child a) n)
  ≡ₚ (label <$> below n) ++ (label <$> postorder a).
Proof.
  intros Hm.
  pose proof (collect_below_append (fun _ i s => (i, s)) m a n distinct Hm) as H.
  by rewrite !collect_below_postorder, collect_postorder in H.
Qed.

Lemma edges_remove :
  y ∈ postorder n -> a ∈ children y ->
  edges n ≡ₚ edges (remove (oid a) n) ++ edges_from (name y) a.
Proof.
  intros Hy Ha. rewrite <- !collect_below_edges, <- collect_edges_from.
  by apply collect_below_remove.
Qed.

Lemma below_remove :
  y ∈ postorder n -> a ∈ children y ->
  label <$> below n
  ≡ₚ (label <$> below (remove (oid a) n)) ++ (label <$> postorder a).
Proof.
  intros Hy Ha.
  pose proof (collect_below_remove (fun _ i s => (i, s)) y a n distinct Hy Ha) as H.
  by rewrite !collect_below_postorder, collect_postorder in H.
Qed.

End AppendRemove.

(** *** Names as identities *)

Lemma NoDup_fmap_inj {A B} (f : A -> B) (l : list A) (x y : A) :
  NoDup (f <$> l) -> x ∈ l -> y ∈ l -> f x = f y -> x = y.
Proof.
  induction l as [|a l IH]; intros Hnd Hx Hy Heq; [by apply elem_of_nil in Hx|].
  rewrite fmap_cons in Hnd. apply NoDup_cons in Hnd as [Ha Hnd].
  apply elem_of_cons in Hx as [->|Hx]; apply elem_of_cons in Hy as [->|Hy].
  - done.
  - destruct Ha. rewrite Heq. by apply list_elem_of_fmap_2.
  - destruct Ha. rewrite <- Heq. by apply list_elem_of_fmap_2.
  - by apply IH.
Qed.

Lemma name_inj x y n :
  NoDup (names n) -> x ∈ below n -> y ∈ below n -> name x = name y -> x = y.
Proof. rewrite names_below. apply NoDup_fmap_inj. Qed.

(** With distinct names, a name has one parent. *)
Lemma edge_unique p1 p2 x n :
  NoDup (names n) -> (p1, x) ∈ edges n -> (p2, x) ∈ edges n -> p1 = p2.
Proof.
  intros Hnd H1 H2.
  by pose proof (NoDup_fmap_inj snd _ _ _ Hnd H1 H2 eq_refl) as [= ->].
Qed.

Lemma below_parent x n :
  x ∈ below n -> exists y, y ∈ postorder n /\ x ∈ children y.
Proof.
  induction n as [j s l b cs IH] using t_ind'. intros Hx.
  apply elem_of_below in Hx as (c & Hc & Hx). cbn [children] in Hc.
  apply elem_of_postorder in Hx as [->|(c' & Hc' & Hx)].
  - exists (Node j s l b cs). split; [apply postorder_refl | done].
  - rewrite Forall_forall in IH. destruct (IH c Hc) as (y & Hy & Hxy).
    { apply elem_of_below. eauto. }
    exists y. split; [|done].
    eapply postorder_trans; [done | by apply postorder_child].
Qed.

Lemma postorder_below_or_root x n : x ∈ postorder n -> x = n \/ x ∈ below n.
Proof.
  intros H. apply elem_of_postorder in H as [?|H]; [by left|].
  right. by apply elem_of_below.
Qed.

Lemma edge_of_child y c n :
  y ∈ postorder n -> c ∈ children y -> (name y, name c) ∈ edges n.
Proof. intros Hy Hc. apply elem_of_edges_child. by exists y, c. Qed.

(** A named parent of an edge is a name of the tree. *)
Lemma edge_parent_name p x n :
  name n = None -> (Some p, x) ∈ edges n -> Some p ∈ names n.
Proof.
  intros Hroot He. apply elem_of_edges_child in He as (y & c & Hy & _ & Hp & _).
  apply postorder_below_or_root in Hy as [->|Hy]; [congruence|].
  apply elem_of_names. eauto.
Qed.

Lemma edge_child_name p x n : (p, x) ∈ edges n -> x ∈ names n.
Proof. intros H. unfold names. apply list_elem_of_fmap. by exists (p, x). Qed.

(** Every object has a tip in its subtree. *)
Lemma exists_tip n : exists x, x ∈ postorder n /\ is_tip x = true.
Proof.
  induction n as [j s l b cs IH] using t_ind'. destruct cs as [|c cs].
  - exists (Node j s l b []). split; [apply postorder_refl | done].
  - apply Forall_cons in IH as [(x & Hx & Ht) _]. exists x. split; [|done].
    eapply postorder_trans; [done|]. apply postorder_child, elem_of_cons.
    by left.
Qed.

(** *** [find] on a tree of distinct names *)

Lemma tip_names_of_app l1 l2 :
  tip_names_of (l1 ++ l2) = tip_names_of l1 ++ tip_names_of l2.
Proof. unfold tip_names_of. by rewrite filter_app, omap_app. Qed.

Lemma NoDup_tip_names_of l :
  NoDup (name <$> l) -> NoDup (tip_names_of l).
Proof.
  induction l as [|a l IH]; [intros _; apply NoDup_nil_2|].
  rewrite fmap_cons. intros Hnd. apply NoDup_cons in Hnd as [Ha Hnd].
  rewrite tip_names_of_cons. destruct (name a) as [s|] eqn:Hs; [|by apply IH].
  destruct (is_tip a); [|by apply IH].
  apply NoDup_cons. split; [|by apply IH].
  intros Hin. apply elem_of_tip_names_of in Hin as (x & Hx & _ & Hxs).
  apply Ha. rewrite <- Hxs. by apply list_elem_of_fmap_2.
Qed.

Lemma NoDup_tip_names n :
  name n = None -> NoDup (names n) -> NoDup (tip_names_of (postorder n)).
Proof.
  intros Hroot Hnd. rewrite postorder_unfold. fold (below n).
  rewrite tip_names_of_app, (tip_names_of_cons n), Hroot.
  change (tip_names_of []) with (@nil string). rewrite app_nil_r.
  apply NoDup_tip_names_of. by rewrite <- names_below.
Qed.

Lemma find_not_duplicate root s :
  NoDup (tip_names_of (postorder root)) ->
  find root s <> Raise DuplicateNodeError.
Proof.
  intros Hnd.
  destruct (fill_caches_returns (postorder root) ∅ ∅ Hnd) as [[tc ntc] Hc];
    [intros; apply lookup_empty|].
  unfold find, create_caches. rewrite Hc, bind_Ok.
  destruct s as [s|]; [|done]. destruct (tc !! s); [done|].
  by destruct (ntc !! s) as [[|? ?]|].
Qed.

Lemma find_Missing_names root s :
  name root = None ->
  find root (Some s) = Raise MissingNodeError -> Some s ∉ names root.
Proof.
  intros Hroot Hfind Hin. apply elem_of_names in Hin as (x & Hx & Hs).
  by apply (find_Missing _ _ x Hfind (below_postorder _ _ Hx)).
Qed.

Lemma find_Ok_names root s m :
  name root = None ->
  find root (Some s) = Ok m -> m ∈ below root /\ name m = Some s.
Proof.
  intros Hroot Hfind. apply find_Ok in Hfind as [Hm Hs]. split; [|done].
  apply postorder_below_or_root in Hm as [->|?]; [congruence | done].
Qed.

Lemma walk_found_Ok heap parents : forall matching,
  NoDup (tip_names_of (postorder (fst heap))) ->
  (forall p, p ∈ parents ->
     exists s x, name p = Some s /\ x ∈ postorder (fst heap) /\ name x = Some s) ->
  walk heap matching parents = Ok heap.
Proof.
  induction parents as [|node parents IH]; intros matching Hnd Hall; [done|].
  cbn [walk].
  destruct (Hall node) as (s & x & Hs & Hx & Hxs); [apply elem_of_cons; by left|].
  destruct (find (fst heap) (name node)) as [m|e] eqn:E.
  - apply IH; [done|]. intros p Hp. apply Hall, elem_of_cons. by right.
  - destruct (find_raises _ _ _ E) as [-> | ->].
    + rewrite Hs in E. by destruct (find_Missing _ _ _ E Hx).
    + by destruct (find_not_duplicate _ _ Hnd E).
Qed.

Lemma names_labels n : names n = (label <$> below n).*2.
Proof. rewrite names_below, <- list_fmap_compose. done. Qed.

Lemma oids_labels n : oids n = (label <$> below n).*1 ++ [oid n].
Proof.
  rewrite oids_unfold. f_equal. unfold oids_in. fold (below n).
  by rewrite <- list_fmap_compose.
Qed.

Lemma postorder_labels_names a : (label <$> postorder a).*2 = name <$> postorder a.
Proof. by rewrite <- list_fmap_compose. Qed.

Lemma postorder_labels_oids a : (label <$> postorder a).*1 = oids a.
Proof. unfold oids. by rewrite <- list_fmap_compose. Qed.

(** The names of the tips of a tree. *)
Definition tip_names (n : t) : list (option string) := name <$> tips n.

(** *** The invariant of merging one tree into the accumulating tree *)

Section Merge.

(** [full0] and [tree0] are the two trees before the merge. *)
Variables full0 tree0 : t.
Hypothesis tree0_named : all_named tree0.
Hypothesis tree0_names : NoDup (names tree0).

Record merge_inv (full_tree tree : t) : Prop := mkMergeInv {
  mi_distinct : NoDup (oids full_tree ++ oids tree);
  mi_root_full : name full_tree = None;
  mi_root_tree : name tree = None;
  mi_named_full : all_named full_tree;
  mi_names_full : NoDup (names full_tree);
  mi_names_tree : NoDup (names tree);
  mi_edges_full : forall e, e ∈ edges full_tree -> e ∈ edges full0 \/ e ∈ edges tree0;
  mi_edges_full0 : forall e, e ∈ edges full0 -> e ∈ edges full_tree;
  mi_labels_tree : forall l, l ∈ label <$> below tree -> l ∈ label <$> below tree0;
  mi_edges_tree : forall e, e ∈ edges tree -> e ∈ edges tree0;
  mi_moved : forall l, l ∈ label <$> below tree0 ->
               l ∈ label <$> below tree \/ l.2 ∈ names full_tree;
  mi_consistent : forall p x, (p, x) ∈ edges tree0 -> x ∈ names full_tree ->
                    (p, x) ∈ edges full_tree;
  mi_tips : forall p x, (p, x) ∈ edges tree0 -> x ∈ tip_names tree0 ->
              p = None \/ p ∈ names full_tree -> x ∈ names full_tree;
  mi_oids_full : forall i, i ∈ oids full_tree -> i ∈ oids full0 \/ i ∈ oids tree0;
  mi_oids_tree : forall i, i ∈ oids tree -> i ∈ oids tree0
}.

Lemma inv_named_tree full_tree tree : merge_inv full_tree tree -> all_named tree.
Proof.
  intros Hinv x Hx.
  assert (label x ∈ label <$> below tree0) as Hl
    by (apply (mi_labels_tree _ _ Hinv); by apply list_elem_of_fmap_2).
  apply list_elem_of_fmap in Hl as (x0 & Hl & Hx0).
  injection Hl as _ ->. by apply tree0_named.
Qed.

Lemma inv_NoDup_full full_tree tree :
  merge_inv full_tree tree -> NoDup (oids full_tree).
Proof. intros [H]. by apply NoDup_app in H as (? & _ & _). Qed.

Lemma inv_NoDup_tree full_tree tree :
  merge_inv full_tree tree -> NoDup (oids tree).
Proof. intros [H]. by apply NoDup_app in H as (_ & _ & ?). Qed.

(** The subtree of a node whose name the accumulating tree lacks has no
    name of the accumulating tree. *)
Lemma subtree_fresh full_tree tree a :
  merge_inv full_tree tree ->
  a ∈ below tree -> name a ∉ names full_tree ->
  forall z, z ∈ postorder a -> name z ∉ names full_tree.
Proof.
  intros Hinv. induction a as [j s l b cs IH] using t_ind'.
  intros Ha Hfresh z Hz.
  apply elem_of_postorder in Hz as [->|(c & Hc & Hz)]; [done|].
  cbn [children] in Hc. rewrite Forall_forall in IH.
  assert (c ∈ below tree) as Hcb
    by (apply (below_trans c (Node j s l b cs));
        [by apply postorder_child | done]).
  apply (IH c Hc Hcb); [|done]. intros Hcn.
  assert ((name (Node j s l b cs), name c) ∈ edges tree) as He
    by (apply edge_of_child; [by apply below_postorder | done]).
  apply (mi_edges_tree _ _ Hinv) in He.
  apply (mi_consistent _ _ Hinv) in He; [|done].
  destruct (inv_named_tree _ _ Hinv _ Ha) as [sa Hsa]. rewrite Hsa in He, Hfresh.
  apply Hfresh. eapply edge_parent_name; [|done]. apply (mi_root_full _ _ Hinv).
Qed.

(** Moving the subtree of [a], a child of [y] in [tree], below the node
    [m] of the accumulating tree that bears the name of [y], keeps the
    invariant. *)
Lemma graft_inv full_tree tree m y a :
  merge_inv full_tree tree ->
  m ∈ postorder full_tree -> y ∈ postorder tree -> a ∈ children y ->
  name m = name y -> name a ∉ names full_tree ->
  merge_inv (update (oid m) (add_child a) full_tree) (remove (oid a) tree)
  /\ (forall e, e ∈ edges full_tree ->
                e ∈ edges (update (oid m) (add_child a) full_tree))
  /\ (forall z, z ∈ postorder a ->
                name z ∈ names (update (oid m) (add_child a) full_tree)).
Proof.
  intros Hinv Hm Hy Ha Hname Hfresh.
  pose proof (inv_NoDup_full _ _ Hinv) as HndF.
  pose proof (inv_NoDup_tree _ _ Hinv) as HndS.
  pose proof (add_child_extends a) as Hf.
  assert (a ∈ below tree) as Hab.
  { apply postorder_below_or_root in Hy as [->|Hy].
    - apply elem_of_below. exists a. split; [done | apply postorder_refl].
    - apply (below_trans a y); [by apply postorder_child | done]. }
  pose proof (edges_append full_tree m a HndF Hm) as P1.
  pose proof (edges_remove tree y a HndS Hy Ha) as P2.
  pose proof (below_append full_tree m a HndF Hm) as P3.
  pose proof (below_remove tree y a HndS Hy Ha) as P4.
  set (full' := update (oid m) (add_child a) full_tree) in *.
  set (tree' := remove (oid a) tree) in *.
  assert (names full' ≡ₚ names full_tree ++ (name <$> postorder a)) as PN.
  { by rewrite !names_labels, P3, fmap_app, postorder_labels_names. }
  assert (names tree ≡ₚ names tree' ++ (name <$> postorder a)) as PNS.
  { by rewrite !names_labels, P4, fmap_app, postorder_labels_names. }
  assert (forall e, e ∈ edges_from (name m) a -> e ∈ edges tree0) as Hsub.
  { intros e He. apply (mi_edges_tree _ _ Hinv). rewrite P2, Hname in *.
    apply elem_of_app. by right. }
  assert (forall z, z ∈ postorder a -> name z ∈ names full') as Hmoved.
  { intros z Hz. rewrite PN. apply elem_of_app. right.
    by apply list_elem_of_fmap_2. }
  assert (oid full' = oid full_tree) as HoF by apply (oid_update _ _ _ Hf).
  assert (name full' = name full_tree) as HnF by apply (name_update _ _ _ Hf).
  assert (oid tree' = oid tree /\ name tree' = name tree) as [HoS HnS]
    by apply remove_oid_name.
  split; [|split; [|done]].
  2:{ intros e He. rewrite P1. apply elem_of_app. by left. }
  split.
  - (* distinct identities *)
    rewrite (oids_labels full'), (oids_labels tree'), HoF, HoS.
    pose proof (mi_distinct _ _ Hinv) as Hd.
    rewrite (oids_labels full_tree), (oids_labels tree) in Hd.
    rewrite P4 in Hd. rewrite P3. rewrite !fmap_app in Hd |- *.
    rewrite postorder_labels_oids in Hd |- *.
    match goal with
    | |- NoDup ?X =>
        match type of Hd with
        | NoDup ?Y => assert (X ≡ₚ Y) as -> by solve_Permutation
        end
    end.
    exact Hd.
  - rewrite HnF. apply (mi_root_full _ _ Hinv).
  - rewrite HnS. apply (mi_root_tree _ _ Hinv).
  - (* every object of the accumulating tree is named *)
    intros x Hx.
    assert (label x ∈ label <$> below full') as Hl by (by apply list_elem_of_fmap_2).
    rewrite P3 in Hl. apply elem_of_app in Hl as [Hl|Hl];
      apply list_elem_of_fmap in Hl as (x' & Hl & Hx'); injection Hl as _ ->.
    + by apply (mi_named_full _ _ Hinv).
    + apply (inv_named_tree _ _ Hinv). by apply (below_trans x' a).
  - (* distinct names *)
    rewrite PN. apply NoDup_app. split; [apply (mi_names_full _ _ Hinv)|]. split.
    + intros x Hx Hin. apply list_elem_of_fmap in Hin as (z & -> & Hz).
      by apply (subtree_fresh _ _ a Hinv Hab Hfresh z Hz).
    + pose proof (mi_names_tree _ _ Hinv) as Hn. rewrite PNS in Hn.
      by apply NoDup_app in Hn as (_ & _ & ?).
  - pose proof (mi_names_tree _ _ Hinv) as Hn. rewrite PNS in Hn.
    by apply NoDup_app in Hn as (? & _ & _).
  - intros e He. rewrite P1 in He. apply elem_of_app in He as [He|He].
    + by apply (mi_edges_full _ _ Hinv).
    + right. by apply Hsub.
  - intros e He. rewrite P1. apply elem_of_app. left.
    by apply (mi_edges_full0 _ _ Hinv).
  - intros l Hl. apply (mi_labels_tree _ _ Hinv). rewrite P4.
    apply elem_of_app. by left.
  - intros e He. apply (mi_edges_tree _ _ Hinv). rewrite P2.
    apply elem_of_app. by left.
  - intros l Hl. destruct (mi_moved _ _ Hinv l Hl) as [Hin|Hin].
    + rewrite P4 in Hin. apply elem_of_app in Hin as [?|Hin]; [by left|].
      right. apply list_elem_of_fmap in Hin as (z & -> & Hz). by apply Hmoved.
    + right. rewrite PN. apply elem_of_app. by left.
  - intros p x He Hx. rewrite PN in Hx. rewrite P1.
    apply elem_of_app in Hx as [Hx|Hx]; apply elem_of_app.
    + left. by apply (mi_consistent _ _ Hinv).
    + right. rewrite <- (edges_from_names (name m)) in Hx.
      apply list_elem_of_fmap in Hx as ([p' x'] & -> & Hx). cbn [snd] in He.
      by rewrite (edge_unique _ _ _ _ tree0_names He (Hsub _ Hx)).
  - intros p x He Hx Hp.
    assert (p = None \/ p ∈ names full_tree \/ p ∈ name <$> postorder a)
      as [->|[Hp'|Hp']].
    { destruct Hp as [?|Hp]; [by left|]. right. rewrite PN in Hp.
      by apply elem_of_app in Hp. }
    + rewrite PN. apply elem_of_app. left.
      apply (mi_tips _ _ Hinv None x He Hx). by left.
    + rewrite PN. apply elem_of_app. left.
      apply (mi_tips _ _ Hinv p x He Hx). by right.
    + apply list_elem_of_fmap in Hp' as (z & -> & Hz).
      apply edge_child_name in He as Hxn.
      apply elem_of_names in Hxn as (x0 & Hx0 & <-).
      destruct (mi_moved _ _ Hinv (label x0)) as [Hin|Hin];
        [by apply list_elem_of_fmap_2| |].
      2:{ rewrite PN. apply elem_of_app. by left. }
      apply list_elem_of_fmap in Hin as (x1 & Hl & Hx1).
      injection Hl as Ho Hn. rewrite Hn.
      destruct (below_parent _ _ Hx1) as (y1 & Hy1 & Hxy1).
      pose proof (edge_of_child _ _ _ Hy1 Hxy1) as He1.
      apply (mi_edges_tree _ _ Hinv) in He1. rewrite <- Hn in He1.
      pose proof (edge_unique _ _ _ _ tree0_names He He1) as Hpz.
      assert (z ∈ below tree) as Hzb by (by apply (below_trans z a)).
      destruct (inv_named_tree _ _ Hinv _ Hzb) as [sz Hsz].
      assert (y1 ∈ below tree) as Hy1b.
      { apply postorder_below_or_root in Hy1 as [->|?]; [|done].
        rewrite (mi_root_tree _ _ Hinv) in Hpz. congruence. }
      assert (y1 = z) as ->
        by (apply (name_inj _ _ tree (mi_names_tree _ _ Hinv)); done).
      apply Hmoved. apply (postorder_trans x1 z); [by apply postorder_child|done].
  - intros i Hi. unfold full' in Hi.
    apply (elem_of_oids_update _ _ _ Hf) in Hi as [Hi|[_ Hi]].
    + by apply (mi_oids_full _ _ Hinv).
    + right. apply (mi_oids_tree _ _ Hinv).
      unfold oids_in in Hi. cbn [map concat] in Hi. rewrite app_nil_r in Hi.
      apply (postorder_oids a); [by apply below_postorder | done].
  - intros i Hi. apply (mi_oids_tree _ _ Hinv).
    by apply elem_of_oids_remove in Hi.
Qed.

Lemma lineage_target i c ps :
  lineage i c ps -> exists z, z ∈ postorder c /\ oid z = i.
Proof.
  induction 1 as [n Hn|n c p Hc Hp (z & Hz & Hi)].
  - exists n. split; [apply postorder_refl | done].
  - exists z. split; [|done].
    apply (postorder_trans z c); [done | by apply postorder_child].
Qed.

Lemma inv_tip_names full_tree tree :
  merge_inv full_tree tree -> NoDup (tip_names_of (postorder full_tree)).
Proof.
  intros Hinv. apply NoDup_tip_names;
    [apply (mi_root_full _ _ Hinv) | apply (mi_names_full _ _ Hinv)].
Qed.

(** The walk down the ancestors of a tip of [tree0] that still hangs in
    [tree]: it returns, keeps the invariant, and leaves the name of the
    tip in the accumulating tree. *)
Lemma walk_inv x c ps :
  lineage (oid x) c ps ->
  forall full_tree tree y m,
  merge_inv full_tree tree ->
  x ∈ below tree -> name x ∈ tip_names tree0 ->
  y ∈ postorder tree -> c ∈ children y ->
  m ∈ postorder full_tree -> name m = name y ->
  exists full_tree' tree',
    walk (full_tree, tree) (oid m) ps = Ok (full_tree', tree')
    /\ merge_inv full_tree' tree'
    /\ (forall e, e ∈ edges full_tree -> e ∈ edges full_tree')
    /\ name x ∈ names full_tree'.
Proof.
  induction 1 as [c Hc|c c' ps Hc' Hps IH];
    intros full_tree tree y m Hinv Hx Htip Hy Hcy Hm Hname.
  - exists full_tree, tree. split; [done|]. split; [done|]. split; [done|].
    assert (c ∈ below tree) as Hcb.
    { apply postorder_below_or_root in Hy as [->|Hy].
      - apply elem_of_below. exists c. split; [done | apply postorder_refl].
      - apply (below_trans c y); [by apply postorder_child | done]. }
    assert (c = x) as ->.
    { apply (oid_inj _ _ tree (inv_NoDup_tree _ _ Hinv));
        [by apply below_postorder..|done]. }
    apply (mi_tips _ _ Hinv (name y)); [|done|].
    + apply (mi_edges_tree _ _ Hinv). by apply edge_of_child.
    + rewrite <- Hname.
      apply postorder_below_or_root in Hm as [->|Hm].
      * left. apply (mi_root_full _ _ Hinv).
      * right. apply elem_of_names. eauto.
  - assert (c ∈ below tree) as Hcb.
    { apply postorder_below_or_root in Hy as [->|Hy].
      - apply elem_of_below. exists c. split; [done | apply postorder_refl].
      - apply (below_trans c y); [by apply postorder_child | done]. }
    destruct (inv_named_tree _ _ Hinv _ Hcb) as [s Hs].
    cbn [walk fst]. rewrite Hs.
    destruct (find full_tree (Some s)) as [m'|e] eqn:E.
    + apply (find_Ok_names _ _ _ (mi_root_full _ _ Hinv)) in E as [Hm' Hs'].
      apply (IH full_tree tree c m'); try done.
      * by apply below_postorder.
      * by apply below_postorder.
      * congruence.
    + destruct (find_raises _ _ _ E) as [-> | ->].
      2:{ by destruct (find_not_duplicate _ _ (inv_tip_names _ _ Hinv) E). }
      apply (find_Missing_names _ _ (mi_root_full _ _ Hinv)) in E.
      rewrite (graft_below _ _ (mi_distinct _ _ Hinv)) by
        (done || by apply postorder_oid).
      rewrite <- Hs in E.
      destruct (graft_inv _ _ m y c Hinv Hm Hy Hcy Hname E)
        as (Hinv' & Hmono & Hmoved).
      unfold append.
      exists (update (oid m) (add_child c) full_tree), (remove (oid c) tree).
      split; [|split; [done|split; [done|]]].
      * apply walk_found_Ok; cbn [fst]; [by apply (inv_tip_names _ _ Hinv')|].
        intros p Hp. apply lineage_postorder in Hps.
        rewrite Forall_forall in Hps.
        assert (p ∈ postorder c) as Hpc.
        { apply (postorder_trans p c'); [by apply Hps | by apply postorder_child]. }
        pose proof (Hmoved _ Hpc) as Hpn.
        apply elem_of_names in Hpn as (x' & Hx' & Hxn).
        destruct (mi_named_full _ _ Hinv' _ Hx') as [sp Hsp].
        exists sp, x'. split; [congruence|].
        split; [by apply below_postorder | done].
      * apply Hmoved. destruct (lineage_target _ _ _ Hps) as (z & Hz & Hzi).
        assert (z ∈ postorder c) as Hzc
          by (apply (postorder_trans z c'); [done | by apply postorder_child]).
        assert (z = x) as <-; [|done].
        apply (oid_inj _ _ tree (inv_NoDup_tree _ _ Hinv));
          [|by apply below_postorder|done].
        apply below_postorder. by apply (below_trans z c).
Qed.

Lemma names_mono n n' :
  (forall e, e ∈ edges n -> e ∈ edges n') ->
  forall x, x ∈ names n -> x ∈ names n'.
Proof.
  intros Hmono x Hx. unfold names in Hx.
  apply list_elem_of_fmap in Hx as ([p x'] & -> & He).
  apply Hmono in He. by apply edge_child_name in He.
Qed.

(** The body of the loop over the tips, for a tip of [tree0]. *)
Lemma merge_tip_inv full_tree tree tip :
  merge_inv full_tree tree -> tip ∈ tips tree0 ->
  exists full_tree' tree',
    merge_tip (full_tree, tree) tip = Ok (full_tree', tree')
    /\ merge_inv full_tree' tree'
    /\ (forall e, e ∈ edges full_tree -> e ∈ edges full_tree')
    /\ name tip ∈ names full_tree'.
Proof.
  intros Hinv Htip. pose proof (tips_below _ _ Htip) as Hbelow.
  destruct (tree0_named _ Hbelow) as [s Hs].
  unfold merge_tip. rewrite Hs.
  destruct (find full_tree (Some s)) as [m|e] eqn:E.
  { exists full_tree, tree. split; [done|]. split; [done|]. split; [done|].
    apply (find_Ok_names _ _ _ (mi_root_full _ _ Hinv)) in E as [Hm <-].
    apply elem_of_names. eauto. }
  destruct (find_raises _ _ _ E) as [-> | ->].
  2:{ by destruct (find_not_duplicate _ _ (inv_tip_names _ _ Hinv) E). }
  apply (find_Missing_names _ _ (mi_root_full _ _ Hinv)) in E.
  destruct (mi_moved _ _ Hinv (label tip)) as [Hin|Hin];
    [by apply list_elem_of_fmap_2| |by rewrite <- Hs in E].
  apply list_elem_of_fmap in Hin as (x & Hl & Hx). injection Hl as Ho Hn.
  rewrite Ho.
  assert (oid x ∈ oids tree) as Hoid by (by apply postorder_oid, below_postorder).
  apply path_to_is_Some in Hoid as [p Hp].
  rewrite (ancestors_path _ _ _ _ Hp), reverse_removelast_reverse.
  apply path_to_lineage in Hp.
  destruct Hp as [n Hroot|n c p Hc Hp]; cbn [tail].
  { exfalso. pose proof (inv_NoDup_tree _ _ Hinv) as Hnd.
    rewrite oids_unfold in Hnd. apply NoDup_app in Hnd as (_ & Hd & _).
    apply (Hd (oid x)); [|rewrite Hroot; by apply list_elem_of_singleton].
    unfold oids_in. fold (below n). by apply list_elem_of_fmap_2. }
  destruct (walk_inv x c p Hp full_tree n n full_tree Hinv) as
    (full' & tree' & Hwalk & Hinv' & Hmono & Hname); try done.
  - rewrite <- Hn. unfold tip_names. by apply list_elem_of_fmap_2.
  - apply postorder_refl.
  - apply postorder_refl.
  - by rewrite (mi_root_full _ _ Hinv), (mi_root_tree _ _ Hinv).
  - exists full', tree'. by rewrite <- Hs, Hn.
Qed.

Lemma merge_tips_inv tips0 : forall full_tree tree,
  merge_inv full_tree tree ->
  (forall tip, tip ∈ tips0 -> tip ∈ tips tree0) ->
  exists full_tree' tree',
    merge_tips (full_tree, tree) tips0 = Ok (full_tree', tree')
    /\ merge_inv full_tree' tree'
    /\ (forall e, e ∈ edges full_tree -> e ∈ edges full_tree')
    /\ (forall tip, tip ∈ tips0 -> name tip ∈ names full_tree').
Proof.
  induction tips0 as [|tip tips0 IH]; intros full_tree tree Hinv Hsub.
  - exists full_tree, tree. split; [done|]. split; [done|]. split; [done|].
    intros tip Htip. by apply elem_of_nil in Htip.
  - destruct (merge_tip_inv full_tree tree tip Hinv)
      as (full1 & tree1 & Hstep & Hinv1 & Hmono1 & Hname1);
      [apply Hsub, elem_of_cons; by left|].
    destruct (IH full1 tree1 Hinv1) as (full' & tree' & Hrest & Hinv' & Hmono' & Hnames');
      [intros t' Ht'; apply Hsub, elem_of_cons; by right|].
    exists full', tree'. cbn [merge_tips]. rewrite Hstep, bind_Ok.
    split; [done|]. split; [done|]. split; [auto|].
    intros t' Ht'. apply elem_of_cons in Ht' as [->|Ht']; [|auto].
    by apply (names_mono full1).
Qed.

(** Once the names of all tips of [tree0] are in the accumulating tree,
    all its edges are. *)
Lemma climb full_tree tree x :
  merge_inv full_tree tree ->
  x ∈ below tree0 ->
  forall z, z ∈ postorder x -> name z ∈ names full_tree ->
  name x ∈ names full_tree.
Proof.
  intros Hinv. induction x as [j s l b cs IH] using t_ind'. intros Hx z Hz Hzn.
  apply elem_of_postorder in Hz as [->|(c & Hc & Hz)]; [done|].
  cbn [children] in Hc. rewrite Forall_forall in IH.
  assert (c ∈ below tree0) as Hcb
    by (apply (below_trans c (Node j s l b cs));
        [by apply postorder_child | done]).
  pose proof (IH c Hc Hcb z Hz Hzn) as Hcn.
  assert ((name (Node j s l b cs), name c) ∈ edges tree0) as He
    by (apply edge_of_child; [by apply below_postorder | done]).
  apply (mi_consistent _ _ Hinv) in He; [|done].
  destruct (tree0_named _ Hx) as [sx Hsx]. rewrite Hsx in He |- *.
  eapply edge_parent_name; [|done]. apply (mi_root_full _ _ Hinv).
Qed.

Lemma edges_tree0_merged full_tree tree :
  merge_inv full_tree tree ->
  (forall tip, tip ∈ tips tree0 -> name tip ∈ names full_tree) ->
  forall e, e ∈ edges tree0 -> e ∈ edges full_tree.
Proof.
  intros Hinv Htips [p x] He. apply (mi_consistent _ _ Hinv); [done|].
  apply edge_child_name in He. apply elem_of_names in He as (x0 & Hx0 & <-).
  destruct (exists_tip x0) as (z & Hz & Hzt).
  apply (climb _ _ x0 Hinv Hx0 z Hz). apply Htips.
  unfold tips. apply list_elem_of_filter. split; [done|].
  fold (below tree0). by apply (below_trans z x0).
Qed.

End Merge.

(** *** Trees of the data model, and samples that agree *)

(** The root has no name, every object below it has one, and no name is
    borne twice. *)
Definition well_named (n : t) : Prop :=
  name n = None /\ all_named n /\ NoDup (names n).

(** [tree] agrees with [full_tree]: a name of [tree] that [full_tree] has
    hangs below the same name in both, and a tip of [tree] whose parent
    [full_tree] has (or that hangs from the root) is in [full_tree]. *)
Definition agree (full_tree tree : t) : Prop :=
  (forall p x, (p, x) ∈ edges tree -> x ∈ names full_tree ->
               (p, x) ∈ edges full_tree)
  /\ (forall p x, (p, x) ∈ edges tree -> x ∈ tip_names tree ->
                  p = None \/ p ∈ names full_tree -> x ∈ names full_tree).

Lemma merge_inv_init full_tree tree :
  NoDup (oids full_tree ++ oids tree) ->
  well_named full_tree -> well_named tree -> agree full_tree tree ->
  merge_inv full_tree tree full_tree tree.
Proof.
  intros Hnd (HrF & HnF & HdF) (HrS & HnS & HdS) [Hc Ht].
  split; try done; auto.
Qed.

(** One turn of [for tree in trees[1:]]: the edges of the result are
    those of the two trees. *)
Lemma merge_tree_union full_tree tree :
  NoDup (oids full_tree ++ oids tree) ->
  well_named full_tree -> well_named tree -> agree full_tree tree ->
  exists result,
    merge_tree full_tree tree = Ok result
    /\ (forall e, e ∈ edges result <-> e ∈ edges full_tree \/ e ∈ edges tree)
    /\ well_named result
    /\ NoDup (oids result)
    /\ (forall i, i ∈ oids result -> i ∈ oids full_tree \/ i ∈ oids tree).
Proof.
  intros Hnd HwF HwS Hagree.
  pose proof HwS as (HrS & HnS & HdS).
  pose proof (merge_inv_init _ _ Hnd HwF HwS Hagree) as Hinv.
  destruct (merge_tips_inv full_tree tree HnS HdS (tips tree) full_tree tree Hinv)
    as (full' & tree' & Hrun & Hinv' & Hmono & Hnames); [done|].
  exists full'. unfold merge_tree. rewrite Hrun, bind_Ok.
  split; [done|]. split; [|split; [|split]].
  - intros e. split; [apply (mi_edges_full _ _ _ _ Hinv')|].
    intros [He|He]; [by apply Hmono|].
    by apply (edges_tree0_merged full_tree tree HnS full' tree' Hinv').
  - split; [apply (mi_root_full _ _ _ _ Hinv')|].
    split; [apply (mi_named_full _ _ _ _ Hinv') | apply (mi_names_full _ _ _ _ Hinv')].
  - by apply (inv_NoDup_full _ _ _ _ Hinv').
  - apply (mi_oids_full _ _ _ _ Hinv').
Qed.

Lemma elem_of_names_edges x n : x ∈ names n <-> exists p, (p, x) ∈ edges n.
Proof.
  unfold names. rewrite list_elem_of_fmap. split.
  - intros ([p x'] & -> & He). eauto.
  - intros (p & He). by exists (p, x).
Qed.

(** The loop [for tree in trees[1:]], [seen] being the trees merged so
    far. *)
Lemma merge_trees_union rest : forall seen full_tree,
  well_named full_tree ->
  NoDup (oids full_tree ++ concat (map oids rest)) ->
  (forall e, e ∈ edges full_tree <-> exists t, t ∈ seen /\ e ∈ edges t) ->
  seen <> [] ->
  Forall well_named rest ->
  (forall t1 t2, t1 ∈ seen ++ rest -> t2 ∈ rest -> agree t1 t2) ->
  exists result,
    merge_trees full_tree rest = Ok result
    /\ (forall e, e ∈ edges result <-> exists t, t ∈ seen ++ rest /\ e ∈ edges t)
    /\ well_named result.
Proof.
  induction rest as [|tree rest IH];
    intros seen full_tree HwF Hnd Hedges Hseen Hwrest Hagree.
  { exists full_tree. split; [done|]. by rewrite app_nil_r. }
  apply Forall_cons in Hwrest as [HwS Hwrest].
  cbn [map concat] in Hnd. rewrite app_assoc in Hnd.
  apply NoDup_app in Hnd as (Hnd2 & Hdisj & Hndrest).
  assert (forall x, x ∈ names full_tree <-> exists t, t ∈ seen /\ x ∈ names t)
    as Hnames.
  { intros x. rewrite elem_of_names_edges. split.
    - intros (p & He). apply Hedges in He as (t0 & Ht0 & He).
      exists t0. split; [done|]. apply elem_of_names_edges. eauto.
    - intros (t0 & Ht0 & Hx). apply elem_of_names_edges in Hx as (p & He).
      exists p. apply Hedges. eauto. }
  assert (agree full_tree tree) as Hag.
  { split.
    - intros p x He Hx. apply Hnames in Hx as (t0 & Ht0 & Hx).
      apply Hedges. exists t0. split; [done|].
      apply (Hagree t0 tree); [apply elem_of_app; by left
        | apply elem_of_cons; by left | done | done].
    - intros p x He Hx [->|Hp].
      + destruct seen as [|t0 seen]; [done|].
        apply Hnames. exists t0. split; [apply elem_of_cons; by left|].
        apply (Hagree t0 tree) with (p := None);
          [apply elem_of_cons; by left | apply elem_of_cons; by left
          | done | done | by left].
      + apply Hnames in Hp as (t0 & Ht0 & Hp).
        apply Hnames. exists t0. split; [done|].
        apply (Hagree t0 tree) with (p := p);
          [apply elem_of_app; by left | apply elem_of_cons; by left
          | done | done | by right]. }
  destruct (merge_tree_union full_tree tree Hnd2 HwF HwS Hag)
    as (full' & Hstep & Hedges' & Hw' & Hnd' & Hoids').
  destruct (IH (seen ++ [tree]) full') as (result & Hrun & Hres & Hwres).
  - done.
  - apply NoDup_app. split; [done|]. split; [|done].
    intros i Hi. apply Hdisj. apply elem_of_app. by apply Hoids'.
  - intros e. rewrite Hedges', Hedges. split.
    + intros [(t0 & Ht0 & He)|He].
      * exists t0. split; [apply elem_of_app; by left | done].
      * exists tree. split; [|done]. apply elem_of_app. right.
        by apply list_elem_of_singleton.
    + intros (t0 & Ht0 & He). apply elem_of_app in Ht0 as [Ht0|Ht0].
      * left. eauto.
      * apply list_elem_of_singleton in Ht0 as ->. by right.
  - by destruct seen.
  - done.
  - intros t1 t2 Ht1 Ht2. apply Hagree.
    + rewrite <- app_assoc in Ht1. exact Ht1.
    + apply elem_of_cons. by right.
  - exists result. cbn [merge_trees]. rewrite Hstep, bind_Ok.
    split; [done|]. split; [|done].
    intros e. rewrite Hres, <- app_assoc. done.
Qed.

End UnionFacts.

Import UnionFacts.

(** C2, as the code has it.  Two samples share the prefix [d__Bacteria];
    one has the species right below the domain, the other has the genus
    in between.  Merging them returns no tree: the genus subtree is
    appended with the identifier 562 the accumulating tree already has,
    and the next [find] raises [DuplicateNodeError]. *)
Lemma combine_prefix_sharing_samples_raises :
  _combine_ncbi_trees
    [sample_ecoli;
     TreeNode.Node 5 None None None
       [TreeNode.Node 6 (Some "d__Bacteria") (Some 1) None
          [TreeNode.Node 7 (Some "2") (Some 0) (Some false) [];
           TreeNode.Node 8 (Some "g__Escherichia") (Some 1) None
             [TreeNode.Node 9 (Some "561") (Some 0) (Some false) [];
              TreeNode.Node 10 (Some "s__Escherichia coli") (Some 1) None
                [TreeNode.Node 11 (Some "562") (Some 0) (Some true) []]]]]]
  = Raise DuplicateNodeError
  /\ _kraken_to_ncbi_tree 5
       [mkRow "D" "  Bacteria" 2 0.5%float;
        mkRow "G" "    Escherichia" 561 0.5%float;
        mkRow "S" "      Escherichia coli" 562 0.5%float]
     = Ok (TreeNode.Node 5 None None None
       [TreeNode.Node 6 (Some "d__Bacteria") (Some 1) None
          [TreeNode.Node 7 (Some "2") (Some 0) (Some false) [];
           TreeNode.Node 8 (Some "g__Escherichia") (Some 1) None
             [TreeNode.Node 9 (Some "561") (Some 0) (Some false) [];
              TreeNode.Node 10 (Some "s__Escherichia coli") (Some 1) None
                [TreeNode.Node 11 (Some "562") (Some 0) (Some true) []]]]]).
Proof. split; by vm_compute. Qed.

(** C2, amended.  For a non-empty list of trees of the data model, made
    of distinct objects, that agree with one another on the names they
    share, [_combine_ncbi_trees] returns a tree that is the union of the
    input trees: its edges (the name of a parent, the name of a child) are
    exactly the edges of the input trees, and it bears no name twice, so
    a rank path shared by two samples is in it once, with the suffixes of
    both below it. *)
Theorem combine_is_union (full_tree : TreeNode.t) (trees : list TreeNode.t) :
  NoDup (concat (map TreeFacts.oids (full_tree :: trees))) ->
  Forall well_named (full_tree :: trees) ->
  (forall t1 t2, t1 ∈ full_tree :: trees -> t2 ∈ full_tree :: trees ->
                 agree t1 t2) ->
  exists result,
    _combine_ncbi_trees (full_tree :: trees) = Ok result
    /\ (forall p x, (p, x) ∈ edges result
                    <-> exists t, t ∈ full_tree :: trees /\ (p, x) ∈ edges t)
    /\ well_named result.
Proof.
  intros Hnd Hw Hagree. apply Forall_cons in Hw as [HwF Hw].
  destruct (merge_trees_union trees [full_tree] full_tree) as (result & Hrun & Hres & Hwres);
    try done.
  - intros e. split; [intros He; exists full_tree; split; [|done];
      by apply list_elem_of_singleton|].
    intros (t0 & Ht0 & He). by apply list_elem_of_singleton in Ht0 as ->.
  - intros t1 t2 Ht1 Ht2. apply Hagree; [done|]. apply elem_of_cons. by right.
  - exists result. split; [done|]. split; [|done]. intros p x. apply Hres.
Qed.

Lemma agree_Forall full_tree tree :
  Forall (fun e =>
            (e.2 ∈ names full_tree -> e ∈ edges full_tree)
            /\ (e.2 ∈ tip_names tree ->
                e.1 = None \/ e.1 ∈ names full_tree -> e.2 ∈ names full_tree))
    (edges tree) ->
  agree full_tree tree.
Proof.
  rewrite Forall_forall. intros H. split.
  - intros p x He. by apply (H _ He).
  - intros p x He. by apply (H _ He).
Qed.

Lemma all_named_Forall n :
  Forall (fun x => is_Some (TreeNode.name x)) (MergeFacts.below n) -> all_named n.
Proof. rewrite Forall_forall. intros H x Hx. by apply H. Qed.

Lemma combine_is_union_witness :
  exists result,
    _combine_ncbi_trees [sample_ecoli; sample_salmonella] = Ok result
    /\ (forall p x, (p, x) ∈ edges result
                    <-> exists t, t ∈ [sample_ecoli; sample_salmonella]
                                  /\ (p, x) ∈ edges t)
    /\ well_named result.
Proof.
  apply (combine_is_union sample_ecoli [sample_salmonella]).
  - apply (bool_decide_unpack _). by vm_compute.
  - repeat (apply Forall_cons; split); [| |apply Forall_nil_2];
      (split; [reflexivity|]; split;
       [apply all_named_Forall | idtac]; apply (bool_decide_unpack _);
       by vm_compute).
  - intros t1 t2 Ht1 Ht2.
    apply elem_of_cons in Ht1 as [->|Ht1];
      [|apply list_elem_of_singleton in Ht1 as ->];
      (apply elem_of_cons in Ht2 as [->|Ht2];
       [|apply list_elem_of_singleton in Ht2 as ->]);
      apply agree_Forall; apply (bool_decide_unpack _); by vm_compute.
Defined.

(** ** The tips of a single-sample tree *)

(** The name of the identifier node of a row. *)
Definition feature_id (row : Row) : option string := Some (str (ncbi_tax_id row)).

Module TipFacts.
Import TreeNode TreeFacts FindFacts MergeFacts.

(** [n.tips(include_self=True)]: the tips of a tree, the root included
    when it has no child. *)
Definition tips_with_self (n : t) : list t :=
  filter (fun x => is_tip x = true) (postorder n).

(** What [_ncbi_tree_to_tips] reads of a tip, with its identity. *)
Definition tip_view (x : t) : nat * option string * option bool :=
  (oid x, name x, is_actual_tip x).

(** The effect of [is_actual_tip = True] for the object [y] on a view. *)
Definition mark (y : nat) (v : nat * option string * option bool)
  : nat * option string * option bool :=
  if decide (v.1.1 = y) then (v.1.1, v.1.2, Some true) else v.

(** The stack of the builder, bottom first, is a chain of last children
    from the root. *)
Inductive chain : t -> list nat -> Prop :=
| chain_here n : chain n [oid n]
| chain_down n cs c qs :
    children n = cs ++ [c] -> chain c qs -> chain n (oid n :: qs).

Lemma tips_unfold n : tips n = filter (fun x => is_tip x = true) (below n).
Proof. reflexivity. Qed.

Lemma below_app_children j s l b cs1 cs2 :
  below (Node j s l b (cs1 ++ cs2))
  = below (Node j s l b cs1) ++ below (Node j s l b cs2).
Proof. unfold below. cbn [children]. by rewrite map_app, concat_app. Qed.

Lemma children_set_flag y n :
  children (update y (set_is_actual_tip true) n)
  = map (update y (set_is_actual_tip true)) (children n).
Proof.
  rewrite (children_update _ _ _ (set_is_actual_tip_extends true)).
  destruct (decide _); by rewrite app_nil_r.
Qed.

Lemma postorder_set_flag y n :
  postorder (update y (set_is_actual_tip true) n)
  = update y (set_is_actual_tip true) <$> postorder n.
Proof.
  induction n as [j s l b cs IH] using t_ind'.
  rewrite (postorder_unfold (update _ _ _)).
  rewrite children_set_flag.
  rewrite (postorder_unfold (Node j s l b cs)), fmap_app. cbn [children].
  f_equal. induction IH as [|c cs Hc _ IHcs]; [done|].
  cbn [map concat]. by rewrite fmap_app, Hc, IHcs.
Qed.

Lemma is_tip_set_flag y n :
  is_tip (update y (set_is_actual_tip true) n) = is_tip n.
Proof.
  unfold is_tip.
  rewrite children_set_flag.
  by destruct (children n).
Qed.

Lemma tip_view_set_flag y n :
  tip_view (update y (set_is_actual_tip true) n) = mark y (tip_view n).
Proof.
  unfold tip_view, mark. cbn [fst snd].
  rewrite (oid_update _ _ _ (set_is_actual_tip_extends true)).
  rewrite (name_update _ _ _ (set_is_actual_tip_extends true)).
  rewrite is_actual_tip_set_flag. by destruct (decide (oid n = y)).
Qed.

Lemma filter_is_tip_set_flag y (l : list t) :
  filter (fun x => is_tip x = true) (update y (set_is_actual_tip true) <$> l)
  = update y (set_is_actual_tip true) <$> filter (fun x => is_tip x = true) l.
Proof.
  induction l as [|x l IH]; [done|].
  rewrite fmap_cons, !filter_cons, is_tip_set_flag.
  destruct (decide (is_tip x = true)); by rewrite IH.
Qed.

Lemma below_set_flag y n :
  below (update y (set_is_actual_tip true) n)
  = update y (set_is_actual_tip true) <$> below n.
Proof.
  unfold below.
  rewrite children_set_flag.
  induction (children n) as [|c cs IH]; [done|].
  cbn [map concat]. by rewrite fmap_app, postorder_set_flag, IH.
Qed.

(** Setting the attribute of [y] changes the view of [y] only. *)
Lemma tips_set_flag y n :
  tip_view <$> tips (update y (set_is_actual_tip true) n)
  = mark y <$> (tip_view <$> tips n).
Proof.
  rewrite !tips_unfold, below_set_flag, filter_is_tip_set_flag.
  rewrite <- !list_fmap_compose. apply list_fmap_ext.
  intros _ x _. apply tip_view_set_flag.
Qed.

Lemma chain_head n qs : chain n qs -> exists qs', qs = oid n :: qs'.
Proof. destruct 1; eauto. Qed.

Lemma chain_set_flag y n qs :
  chain n qs -> chain (update y (set_is_actual_tip true) n) qs.
Proof.
  pose proof (set_is_actual_tip_extends true) as Hf.
  induction 1 as [n|n cs c qs Hcs _ IH].
  - rewrite <- (oid_update y _ _ Hf n). constructor.
  - rewrite <- (oid_update y _ _ Hf n).
    apply (chain_down _ (map (update y (set_is_actual_tip true)) cs)
             (update y (set_is_actual_tip true) c)); [|done].
    by rewrite children_set_flag, Hcs, map_app.
Qed.

Lemma chain_prefix n qs1 qs2 :
  chain n (qs1 ++ qs2) -> qs1 <> [] -> chain n qs1.
Proof.
  revert n. induction qs1 as [|q qs1 IH]; intros n H Hne; [done|].
  inversion H as [n' Hn|n' cs c qs' Hcs Hc Hn]; subst.
  - destruct qs1; [constructor | done].
  - destruct qs1 as [|q' qs1]; [constructor|].
    apply (chain_down _ cs c); [done|]. by apply IH.
Qed.

Lemma chain_oids n qs : chain n qs -> Forall (fun q => q ∈ oids n) qs.
Proof.
  induction 1 as [n|n cs c qs Hcs _ IH].
  - constructor; [|constructor]. apply elem_of_oids. by left.
  - constructor; [apply elem_of_oids; by left|].
    eapply Forall_impl; [exact IH|]. intros q Hq. cbn beta in Hq.
    apply elem_of_oids. right. apply elem_of_oids_in. exists c.
    split; [|done]. rewrite Hcs. apply elem_of_app. right.
    by apply list_elem_of_singleton.
Qed.

Lemma NoDup_oids_children n :
  NoDup (oids n) ->
  (oid n ∉ oids_in (children n)) /\ NoDup (oids_in (children n)).
Proof.
  rewrite oids_unfold. intros H. apply NoDup_app in H as (Hcs & Hn & _).
  split; [|done]. intros Hin. apply (Hn _ Hin). by apply list_elem_of_singleton.
Qed.

Lemma map_update_notin y f cs :
  y ∉ oids_in cs -> map (update y f) cs = cs.
Proof.
  induction cs as [|c cs IH]; [done|].
  rewrite oids_in_cons, not_elem_of_app. intros [Hc Hcs].
  cbn [map]. by rewrite update_notin, IH.
Qed.

Lemma get_chain_child p j s l b cs c m :
  j <> p -> p ∉ oids_in cs ->
  get p (Node j s l b (cs ++ [c])) = Some m -> get p c = Some m.
Proof.
  intros Hj Hcs. rewrite get_unfold. cbn [oid children].
  rewrite decide_False by done. rewrite get_in_app.
  apply get_in_None in Hcs. rewrite Hcs. cbn [get_in].
  by destruct (get p c).
Qed.

Lemma tips_with_self_tips n : is_tip n = false -> tips_with_self n = tips n.
Proof.
  intros H. unfold tips_with_self. rewrite postorder_unfold, filter_app.
  rewrite filter_cons, filter_nil, decide_False, app_nil_r by congruence.
  reflexivity.
Qed.

(** [root.append(x)]: the new child is the last child of the root. *)
Lemma below_append_root n x :
  NoDup (oids n) ->
  below (update (oid n) (add_child x) n) = below n ++ postorder x.
Proof.
  destruct n as [j s l b cs]. intros Hnd.
  apply NoDup_oids_children in Hnd as [Hj _]. cbn [oid children] in *.
  rewrite update_unfold, decide_True by done.
  rewrite map_update_notin by done. cbn [add_child].
  rewrite below_app_children. f_equal. unfold below. cbn.
  by rewrite app_nil_r.
Qed.

(** [parent.append(x)] for the last object [p] of the chain: the new
    child is the last child of the last object, so the chain goes on to
    it and its tips come after the tips the tree had. *)
Lemma chain_append n qs p x :
  chain n (qs ++ [p]) -> NoDup (oids n) ->
  chain (update p (add_child x) n) ((qs ++ [p]) ++ [oid x])
  /\ ((forall m, get p n = Some m -> is_tip m = false) ->
      tips_with_self (update p (add_child x) n)
      = tips_with_self n ++ tips_with_self x).
Proof.
  pose proof (add_child_extends x) as Hf.
  revert n. induction qs as [|q qs IH]; intros n H Hnd.
  - cbn [app] in *. inversion H as [n' Hn|n' cs c qs' Hcs Hc Hn]; subst.
    2:{ inversion Hc. }
    pose proof (below_append_root n x Hnd) as Hbelow.
    destruct n as [j s l b cs]. cbn [oid] in *.
    apply NoDup_oids_children in Hnd as [Hj _]. cbn [oid children] in Hj.
    rewrite update_unfold, decide_True in Hbelow |- * by done.
    rewrite map_update_notin in Hbelow |- * by done. cbn [add_child] in *.
    split.
    + apply (chain_down (Node j s l b (cs ++ [x])) cs x); [done | constructor].
    + intros Htip. unfold tips_with_self.
      rewrite !(postorder_unfold (Node _ _ _ _ _)).
      fold (below (Node j s l b (cs ++ [x]))). fold (below (Node j s l b cs)).
      rewrite Hbelow, !filter_app, !filter_cons, !filter_nil.
      rewrite (decide_False (P := is_tip (Node j s l b cs) = true)).
      2:{ rewrite (Htip (Node j s l b cs)); [done|].
          rewrite get_unfold. cbn [oid]. by rewrite decide_True. }
      rewrite decide_False by (unfold is_tip; cbn; by destruct cs).
      fold (tips_with_self x). by rewrite !app_nil_r.
  - cbn [app] in *. inversion H as [n' Hn|n' cs c qs' Hcs Hc Hn]; subst.
    { by destruct qs. }
    destruct n as [j s l b cs0]. cbn [oid children] in *. subst cs0.
    pose proof (NoDup_oids_children _ Hnd) as [Hj Hcsnd].
    cbn [oid children] in Hj, Hcsnd.
    rewrite oids_in_app in Hj, Hcsnd.
    apply not_elem_of_app in Hj as [Hjcs Hjc].
    apply NoDup_app in Hcsnd as (_ & Hdisj & Hcnd).
    assert (oids_in [c] = oids c) as Hc1.
    { rewrite oids_in_cons. unfold oids_in. cbn. by rewrite app_nil_r. }
    rewrite Hc1 in Hjc, Hdisj, Hcnd.
    assert (p ∈ oids c) as Hpc.
    { apply chain_oids in Hc. rewrite Forall_app in Hc.
      destruct Hc as [_ Hp]. by inversion Hp. }
    assert (j <> p) as Hjp by (by intros ->).
    assert (p ∉ oids_in cs) as Hpcs by (intros Hin; by apply (Hdisj p)).
    rewrite update_unfold, decide_False by done.
    rewrite map_app, map_update_notin by done. cbn [map].
    destruct (IH c Hc Hcnd) as (IHc & IHt).
    split.
    + apply (chain_down (Node j s l b (cs ++ [update p (add_child x) c])) cs
               (update p (add_child x) c)); [done | exact IHc].
    + intros Htip. unfold tips_with_self.
      rewrite !(postorder_unfold (Node _ _ _ _ _)). cbn [children].
      rewrite !map_app, !concat_app. cbn [map concat]. rewrite !app_nil_r.
      rewrite !filter_app.
      fold (tips_with_self (update p (add_child x) c)). fold (tips_with_self c).
      rewrite IHt.
      2:{ intros m Hm. apply Htip.
          rewrite get_unfold. cbn [oid children].
          rewrite decide_False by done. rewrite get_in_app.
          apply get_in_None in Hpcs. rewrite Hpcs. cbn [get_in]. by rewrite Hm. }
      rewrite !filter_cons, !filter_nil.
      rewrite !decide_False by (unfold is_tip; cbn; by destruct cs).
      by rewrite !app_nil_r, <- !app_assoc.
Qed.

(** *** The views of the tips, row by row *)

(** The views of the identifier nodes of [rows], the rank node of the
    first row being the object [i]: the identifier node of a row is
    marked when the next row is not deeper; [final] is the mark of the
    identifier node of the last row. *)
Fixpoint views (final : bool) (i : nat) (rows : list Row)
  : list (nat * option string * option bool) :=
  match rows with
  | [] => []
  | r :: rest =>
      (S i, Some (str (ncbi_tax_id r)),
       Some (match rest with
             | r' :: _ => row_indent r' <=? row_indent r
             | [] => final
             end)) :: views final (2 + i) rest
  end.

Lemma last_is_Some {A} (l : list A) : l <> [] -> is_Some (last l).
Proof.
  induction l as [|x l IH]; [done|]. intros _.
  destruct l; [by eexists | by apply IH].
Qed.

Lemma views_cons final i r rest :
  views final i (r :: rest)
  = (S i, Some (str (ncbi_tax_id r)),
     Some (match rest with
           | r' :: _ => row_indent r' <=? row_indent r
           | [] => final
           end)) :: views final (2 + i) rest.
Proof. reflexivity. Qed.

Lemma views_snoc final rows r : forall i,
  views final i (rows ++ [r])
  = match last rows with
    | Some lr => views (row_indent r <=? row_indent lr) i rows
    | None => []
    end ++ [(S (i + 2 * List.length rows), Some (str (ncbi_tax_id r)), Some final)].
Proof.
  induction rows as [|r0 rows IH]; intros i.
  - cbn. by rewrite Nat.add_0_r.
  - destruct rows as [|r1 rows].
    + cbn. repeat (f_equal; try lia).
    + change ((r0 :: r1 :: rows) ++ [r]) with (r0 :: (r1 :: rows) ++ [r]).
      change (last (r0 :: r1 :: rows)) with (last (r1 :: rows)).
      cbn [views]. rewrite IH. cbn [app].
      destruct (last (r1 :: rows)) as [lr|] eqn:E.
      * cbn [app views List.length]. repeat (f_equal; try lia).
      * destruct (last_is_Some (r1 :: rows)) as [? ?]; [done | congruence].
Qed.

Lemma views_mark rows : forall i,
  rows <> [] ->
  mark (S (i + 2 * (List.length rows - 1))) <$> views false i rows
  = views true i rows.
Proof.
  induction rows as [|r0 rows IH]; intros i Hne; [done|].
  destruct rows as [|r1 rows].
  - cbn. unfold mark. cbn. rewrite decide_True by lia. done.
  - rewrite (views_cons false i r0), (views_cons true i r0), fmap_cons. f_equal.
    + unfold mark. cbn [fst snd List.length]. by rewrite decide_False by lia.
    + rewrite <- (IH (2 + i)%nat) by done. cbn [List.length].
      by replace (S (2 + i + 2 * (S (List.length rows) - 1)))
        with (S (i + 2 * (S (S (List.length rows)) - 1))) by lia.
Qed.

Lemma views_names final rows : forall i,
  (fun v => v.1.2) <$> views final i rows = feature_id <$> rows.
Proof.
  induction rows as [|r rows IH]; intros i; [done|].
  cbn [views]. by rewrite !fmap_cons, IH.
Qed.

(** *** The invariant of the loop of [_kraken_to_ncbi_tree] on the tips *)

Record TipInv (fresh : nat) (rows : list Row) (st : Builder) : Prop := mkTipInv {
  ti_inv : Inv fresh st;
  ti_chain : chain (tree st) (reverse (stack st).*2);
  ti_next : next_oid st = (S fresh + 2 * List.length rows)%nat;
  ti_top : match last rows with
           | Some r => exists below,
               stack st = (row_indent r, (next_oid st - 2)%nat) :: below
           | None => st = builder_init fresh
           end;
  ti_views : tip_view <$> tips (tree st) = views false (S fresh) rows
}.

Lemma TipInv_init fresh : TipInv fresh [] (builder_init fresh).
Proof.
  split; [apply Inv_init | | cbn; lia | done | done].
  apply (chain_here (Node fresh None None None [])).
Qed.

Lemma tips_with_self_new_node i row :
  tip_view <$> tips_with_self (new_node i row)
  = [(S i, Some (str (ncbi_tax_id row)), Some false)].
Proof. reflexivity. Qed.

(** The tree before [parent_node.append(node)]: the identifier node of
    the row on top of the stack has been marked if the new row is not
    deeper. *)
Lemma mark_top_views fresh rows st row tree1 pi pn below :
  TipInv fresh rows st ->
  stack st = (pi, pn) :: below ->
  (if row_indent row <=? pi
   then mark_first_child pn (tree st) = Ok tree1
   else tree1 = tree st) ->
  tip_view <$> tips tree1
  = match last rows with
    | Some lr => views (row_indent row <=? row_indent lr) (S fresh) rows
    | None => []
    end
  /\ (tree1 = tree st
      \/ exists y, tree1 = update y (set_is_actual_tip true) (tree st)).
Proof.
  intros [Hinv Hchain Hnext Htop Hviews] Hstack Hmark.
  destruct (last rows) as [lr|] eqn:Hlast.
  - destruct Htop as [below' Htop]. rewrite Hstack in Htop.
    injection Htop as -> -> _.
    assert (1 <= List.length rows)%nat as Hlen
      by (destruct rows; [done | cbn [List.length]; lia]).
    destruct (row_indent row <=? row_indent lr) eqn:Hle.
    + apply mark_first_child_Ok in Hmark as (c & cs & Hcs & ->).
      destruct Hinv as [_ _ _ (rest & Hrest & Hok)].
      rewrite Hstack in Hrest. destruct rest as [|e rest].
      { injection Hrest as _ Hfresh _. lia. }
      injection Hrest as <- _. apply Forall_cons in Hok as [[_ Hnode] _].
      destruct Hnode as (m & c' & cs' & Hget & Hcs' & Hc').
      unfold children_of in Hcs. cbn [snd] in Hget. rewrite Hget, Hcs' in Hcs.
      injection Hcs as <- <-. rewrite Hc'. split; [|eauto].
      rewrite tips_set_flag, Hviews.
      assert (rows <> []) as Hne by (by intros ->).
      rewrite <- (views_mark rows (S fresh) Hne). do 2 f_equal. cbn [snd]. lia.
    + subst tree1. split; [done | by left].
  - subst st. cbn [builder_init stack tree] in *. injection Hstack as <- <- <-.
    destruct rows as [|r rows]; [|by destruct (last_is_Some (r :: rows))].
    destruct (row_indent row <=? 0).
    + unfold mark_first_child, children_of in Hmark.
      rewrite get_unfold in Hmark. cbn [oid] in Hmark.
      by rewrite decide_True in Hmark by done.
    + subst tree1. split; [done | by left].
Qed.

Lemma chain_not_tip n q q' qs : chain n (q :: q' :: qs) -> is_tip n = false.
Proof.
  intros H. inversion H as [|n' cs c qs' Hcs Hc Hn]; subst.
  unfold is_tip. rewrite Hcs. by destruct cs.
Qed.

Lemma tips_append_root n x :
  NoDup (oids n) ->
  tips (update (oid n) (add_child x) n) = tips n ++ tips_with_self x.
Proof.
  intros Hnd. rewrite !tips_unfold, below_append_root by done.
  by rewrite filter_app.
Qed.

(** A turn of the loop that returns appends the identifier node of the
    row to the tips, after marking the last of them if the row is not
    deeper than the row before. *)
Lemma attach_row_TipInv fresh rows st row st' :
  TipInv fresh rows st -> attach_row st row = Ok st' ->
  TipInv fresh (rows ++ [row]) st'.
Proof.
  intros HT H.
  pose proof (ti_inv _ _ _ HT) as Hinv.
  pose proof (attach_row_Inv fresh _ _ _ Hinv H) as (Hinv' & _).
  apply attach_row_Ok in H
    as (pi & pn & below & tree1 & pi' & pn' & below' & Hst & Hmark & Hunw & ->).
  destruct (mark_top_views _ _ _ _ _ _ _ _ HT Hst Hmark) as [Hviews1 Htree1].
  assert (chain tree1 (reverse (stack st).*2)) as Hchain1.
  { destruct Htree1 as [->|[y ->]]; [apply HT | apply chain_set_flag, HT]. }
  assert (NoDup (oids tree1)) as Hnd1.
  { destruct Htree1 as [->|[y ->]];
      [apply Hinv | apply NoDup_oids_set_flag, Hinv]. }
  pose proof (ti_next _ _ _ HT) as Hnext.
  destruct Hinv as [Hoids Hnd Hroot (rest & Hrest & Hok)].
  assert (stack_ok fresh tree1 rest) as Hok1.
  { destruct Htree1 as [->|[y ->]]; [done|].
    eapply (stack_ok_update _ _ (next_oid st));
      [apply set_is_actual_tip_extends| |done|done].
    intros x Hx. by apply elem_of_nil in Hx. }
  rewrite Hrest in Hunw, Hchain1. pose proof Hunw as Hunw'.
  apply unwind_bottom in Hunw' as (rest' & Hs1 & [k Hk] & _).
  assert (chain tree1 (reverse below'.*2 ++ [pn'])) as Hchain2.
  { apply (chain_prefix _ _ (reverse k.*2)); [|by destruct (reverse below'.*2)].
    assert (reverse (rest ++ [(0, fresh)]).*2
            = (reverse below'.*2 ++ [pn']) ++ reverse k.*2) as <-; [|done].
    by rewrite Hk, <- app_assoc, <- Hs1, fmap_app, reverse_app, fmap_cons,
      reverse_cons. }
  destruct (chain_append _ _ _ (new_node (next_oid st) row) Hchain2 Hnd1)
    as [Hchain3 Htips3].
  split; cbn [tree stack next_oid].
  - done.
  - unfold append. by rewrite fmap_cons, reverse_cons, fmap_cons, reverse_cons.
  - rewrite length_app. cbn [List.length]. lia.
  - rewrite last_snoc. eexists. do 2 f_equal. lia.
  - rewrite views_snoc, <- Hviews1, <- Hnext, <- tips_with_self_new_node.
    rewrite <- fmap_app. f_equal. unfold append.
    destruct below' as [|e below'].
    + destruct rest' as [|e' rest']; [|by destruct rest'].
      injection Hs1 as _ Hpn'.
      destruct (chain_head _ _ Hchain2) as [qs' Hqs'].
      cbn in Hqs'. injection Hqs' as Hqs' _. rewrite Hqs'.
      by apply tips_append_root.
    + assert (exists q qs, reverse (e :: below').*2 ++ [pn'] = oid tree1 :: q :: qs)
        as (q & qs & Hq).
      { destruct (chain_head _ _ Hchain2) as [qs' Hqs'].
        rewrite Hqs'. destruct qs' as [|q qs']; [|eauto].
        apply (f_equal List.length) in Hqs'.
        rewrite length_app, fmap_cons, reverse_cons, length_app in Hqs'.
        cbn [List.length] in Hqs'. lia. }
      rewrite <- !tips_with_self_tips.
      * apply Htips3. intros m Hm.
        destruct rest' as [|e' rest']; [done|].
        injection Hs1 as <- _.
        assert (stack_ok fresh tree1 ((pi', pn') :: rest')) as Hok'.
        { rewrite Hk in Hok1. by apply Forall_app in Hok1 as [_ ?]. }
        apply Forall_cons in Hok' as [[_ (m' & c & cs & Hget & Hcs & _)] _].
        cbn [snd] in Hget. rewrite Hget in Hm. injection Hm as <-.
        unfold is_tip. by rewrite Hcs.
      * rewrite Hq in Hchain2. by apply chain_not_tip in Hchain2.
      * rewrite Hq in Hchain3. by apply chain_not_tip in Hchain3.
Qed.

Lemma builder_loop_TipInv fresh df : forall rows st st',
  TipInv fresh rows st -> builder_loop st df = Ok st' ->
  TipInv fresh (rows ++ kept_rows df) st'.
Proof.
  induction df as [|row df IH]; intros rows st st' HT H.
  - injection H as <-. by rewrite app_nil_r.
  - cbn [builder_loop] in H. inv_bind H. unfold kept_rows. rewrite filter_cons.
    destruct (decide (row_kept row)) as [Hk|Hk].
    + rewrite builder_step_kept in Ha by done.
      apply (attach_row_TipInv _ _ _ _ _ HT) in Ha.
      pose proof (IH (rows ++ [row]) a st' Ha H) as HT'.
      by rewrite <- app_assoc in HT'.
    + rewrite builder_step_skipped in Ha by done. injection Ha as <-.
      by apply (IH rows st st').
Qed.

(** The tips of the tree [_kraken_to_ncbi_tree] returns are the
    identifier nodes of the rows it kept, in the order of the rows; the
    one of a row is marked when the next row is not deeper, and the one
    of the last row is marked. *)
Lemma kraken_to_ncbi_tree_views fresh df ncbi_tree :
  _kraken_to_ncbi_tree fresh df = Ok ncbi_tree ->
  tip_view <$> tips ncbi_tree = views true (S fresh) (kept_rows df).
Proof.
  unfold _kraken_to_ncbi_tree. intros H. inv_bind H.
  apply (builder_loop_TipInv _ _ [] _ _ (TipInv_init fresh)) in Ha.
  cbn [app] in Ha. destruct Ha as [Hinv Hchain Hnext Htop Hviews].
  unfold mark_last in H. inv_bind H. destruct a0 as [pi pn].
  destruct (last (kept_rows df)) as [lr|] eqn:Hlast.
  - destruct Htop as [below Hstack]. rewrite Hstack in Ha. injection Ha as <- <-.
    assert (kept_rows df <> []) as Hne by (intros E; by rewrite E in Hlast).
    assert (1 <= List.length (kept_rows df))%nat as Hlen
      by (destruct (kept_rows df); [done | cbn [List.length]; lia]).
    destruct Hinv as [_ _ _ (rest & Hrest & Hok)].
    rewrite Hstack in Hrest. destruct rest as [|e rest].
    { injection Hrest as _ Hfresh _. lia. }
    injection Hrest as <- _. apply Forall_cons in Hok as [[_ Hnode] _].
    destruct Hnode as (m & c & cs & Hget & Hcs & Hc). cbn [snd] in *.
    unfold mark_first_child, children_of in H. rewrite Hget, Hcs in H.
    injection H as <-. rewrite Hc, tips_set_flag, Hviews.
    rewrite <- (views_mark _ (S fresh) Hne). do 2 f_equal. lia.
  - subst a. cbn in Ha. injection Ha as <- <-.
    unfold children_of in H. cbn [builder_init tree] in H.
    rewrite get_unfold in H. cbn [oid children] in H.
    rewrite decide_True in H by done. injection H as <-.
    destruct (kept_rows df) as [|r rows]; [done|].
    by destruct (last_is_Some (r :: rows)) as [? ?]; [|congruence].
Qed.

End TipFacts.

(** ** [_kraken_to_ncbi_tree] and [_ncbi_tree_to_tips]: the features of a
    sample *)

(** The rows that are not followed by a deeper row: the most specific
    classifications of a report. *)
Fixpoint leaf_rows (rows : list Row) : list Row :=
  match rows with
  | [] => []
  | r :: rest =>
      if match rest with
         | r' :: _ => row_indent r' <=? row_indent r
         | [] => true
         end
      then r :: leaf_rows rest
      else leaf_rows rest
  end.

(** The row of the feature table for a report: the most specific
    classifications among the rows that pass both filters, if any. *)
Definition table_row (coverage_threshold : float) (report : string * list Row)
  : option (string * list (option string)) :=
  match leaf_rows (kept_rows (coverage_filter coverage_threshold report.2)) with
  | [] => None
  | rows => Some (report.1, feature_id <$> rows)
  end.

Lemma builder_loop_no_kept_row df : forall st,
  kept_rows df = [] -> builder_loop st df = Ok st.
Proof.
  induction df as [|row df IH]; intros st; [done|].
  unfold kept_rows. rewrite filter_cons.
  destruct (decide (row_kept row)) as [Hk|Hk]; [done|]. intros Hnil.
  cbn [builder_loop]. rewrite builder_step_skipped, bind_Ok by done.
  by apply IH.
Qed.

(** X7. Without a row that passes the guard of line 61, and so for an empty
    frame, [_kraken_to_ncbi_tree] returns the unnamed root alone; and it
    returns the root alone in that case only. *)
Theorem kraken_to_ncbi_tree_root_alone (fresh : nat) (df : list Row) :
  kept_rows df = []
  <-> _kraken_to_ncbi_tree fresh df = Ok (TreeNode.Node fresh None None None []).
Proof.
  split.
  - intros Hnil. unfold _kraken_to_ncbi_tree.
    rewrite builder_loop_no_kept_row, bind_Ok by done.
    unfold mark_last, children_of. cbn [builder_init stack tree stack_top].
    rewrite bind_Ok, TreeFacts.get_unfold. cbn [TreeNode.oid TreeNode.children].
    by rewrite decide_True.
  - intros H. apply TipFacts.kraken_to_ncbi_tree_views in H.
    by destruct (kept_rows df).
Qed.

Definition sample_two_genera : list Row :=
  [mkRow "R" "root" 1 0.5%float;
   mkRow "D" "  Bacteria" 2 0.5%float;
   mkRow "G" "    Escherichia" 561 0.5%float;
   mkRow "S" "      Escherichia coli" 562 0.5%float;
   mkRow "G" "    Salmonella" 590 0.5%float].

Definition tree_two_genera : TreeNode.t :=
  Eval vm_compute in
    match _kraken_to_ncbi_tree 0 sample_two_genera with
    | Ok tree => tree
    | Raise _ => TreeNode.Node 0 None None None []
    end.

(** X8. The tips of the tree [_kraken_to_ncbi_tree] returns are the
    identifier nodes of the rows that pass the guard of line 61, one for
    each row, in the order of the rows. *)
Theorem kraken_to_ncbi_tree_tips_in_row_order (fresh : nat) (df : list Row)
    (ncbi_tree : TreeNode.t) :
  _kraken_to_ncbi_tree fresh df = Ok ncbi_tree ->
  TreeNode.name <$> TreeNode.tips ncbi_tree = feature_id <$> kept_rows df.
Proof.
  intros H. apply TipFacts.kraken_to_ncbi_tree_views in H.
  rewrite <- (TipFacts.views_names true (kept_rows df) (S fresh)), <- H.
  by rewrite <- list_fmap_compose.
Qed.

Lemma kraken_to_ncbi_tree_tips_in_row_order_witness :
  TreeNode.name <$> TreeNode.tips tree_two_genera
  = feature_id <$> kept_rows sample_two_genera.
Proof.
  apply (kraken_to_ncbi_tree_tips_in_row_order 0 sample_two_genera tree_two_genera).
  by vm_compute.
Defined.

Lemma actual_tips_views rows : forall i tips,
  TipFacts.tip_view <$> tips = TipFacts.views true i rows ->
  actual_tips tips = Ok (feature_id <$> leaf_rows rows).
Proof.
  induction rows as [|r rows IH]; intros i tips H.
  - by destruct tips.
  - destruct tips as [|x tips]; [done|].
    rewrite TipFacts.views_cons, fmap_cons in H.
    injection H as _ Hname Hflag Htips.
    apply IH in Htips. cbn [actual_tips leaf_rows].
    rewrite Hflag, Htips, bind_Ok, Hname.
    by destruct (match rows with [] => true | r' :: _ => _ end).
Qed.

Lemma leaf_rows_nil rows : leaf_rows rows = [] <-> rows = [].
Proof.
  split; [|by intros ->].
  induction rows as [|r rows IH]; [done|]. cbn [leaf_rows].
  destruct rows as [|r' rows]; [done|].
  destruct (row_indent r' <=? row_indent r); [done|]. intros H.
  by apply IH in H.
Qed.

(** X9. [_ncbi_tree_to_tips] of the tree of a report returns, and never
    raises for a tip without the attribute: it returns the identifiers of
    the rows, among those that pass the guard of line 61, that are not
    followed by a deeper row, in the order of the rows. *)
Theorem ncbi_tree_to_tips_of_report (fresh : nat) (df : list Row)
    (ncbi_tree : TreeNode.t) :
  _kraken_to_ncbi_tree fresh df = Ok ncbi_tree ->
  _ncbi_tree_to_tips ncbi_tree = Ok (feature_id <$> leaf_rows (kept_rows df)).
Proof.
  intros H. apply TipFacts.kraken_to_ncbi_tree_views in H.
  unfold _ncbi_tree_to_tips. by apply actual_tips_views in H.
Qed.

Lemma ncbi_tree_to_tips_of_report_witness :
  _ncbi_tree_to_tips tree_two_genera
  = Ok (feature_id <$> leaf_rows (kept_rows sample_two_genera)).
Proof.
  apply (ncbi_tree_to_tips_of_report 0 sample_two_genera tree_two_genera).
  by vm_compute.
Defined.

Lemma per_sample_rows coverage_threshold reports : forall fresh rows trees,
  per_sample coverage_threshold fresh reports = Ok (rows, trees) ->
  rows = omap (table_row coverage_threshold) reports
  /\ List.length trees = List.length reports.
Proof.
  induction reports as [|[sample_id df] reports IH]; intros fresh rows trees H.
  - by injection H as <- <-.
  - cbn [per_sample] in H. inv_bind H. rename a into ncbi_tree.
    inv_bind H. rename a into tips. inv_bind H. destruct a as [rows' trees'].
    injection H as <- <-. apply IH in Ha1 as [-> Hlen].
    apply TipFacts.kraken_to_ncbi_tree_views, actual_tips_views in Ha.
    unfold _ncbi_tree_to_tips in Ha0. rewrite Ha in Ha0. injection Ha0 as <-.
    split; [|cbn [List.length]; by rewrite Hlen].
    cbn [omap list_omap].
    assert (table_row coverage_threshold (sample_id, df)
            = match leaf_rows (kept_rows (coverage_filter coverage_threshold df)) with
              | [] => None
              | rs => Some (sample_id, feature_id <$> rs)
              end) as -> by reflexivity.
    by destruct (leaf_rows (kept_rows (coverage_filter coverage_threshold df))).
Qed.

(** Line 40 returns the rows it is given, and returns exactly when no row
    holds a label twice. *)
Lemma unique_indexes rows :
  forallb (fun table_row : string * list (option string) =>
             bool_decide (NoDup table_row.2)) rows = true
  <-> Forall (fun table_row => NoDup table_row.2) rows.
Proof.
  induction rows as [|r rows IH]; cbn [forallb].
  - split; [constructor | done].
  - rewrite andb_true_iff, IH, Forall_cons, bool_decide_eq_true. done.
Qed.

Lemma DataFrame_Ok rows table :
  DataFrame rows = Ok table
  <-> table = rows /\ Forall (fun table_row => NoDup table_row.2) rows.
Proof.
  unfold DataFrame. rewrite <- unique_indexes.
  destruct (forallb _ rows).
  - split; [by intros [= <-] | by intros [-> _]].
  - split; [done | by intros [_ ?]].
Qed.

Lemma DataFrame_Raise rows e :
  DataFrame rows = Raise e
  <-> e = InvalidIndexError /\ Exists (fun table_row => ~ NoDup table_row.2) rows.
Proof.
  unfold DataFrame. destruct (forallb _ rows) eqn:E.
  - apply unique_indexes in E. split; [done|]. intros [_ Hex].
    by apply Exists_not_Forall in Hex.
  - split; [|by intros [-> _]]. intros [= <-]. split; [done|].
    apply (not_Forall_Exists (fun table_row => NoDup table_row.2)).
    rewrite <- unique_indexes, E. done.
Qed.

(** X10. The feature table [select_kraken_features] returns has one row for
    each report in which some row passes the coverage filter and the
    guard of line 61, in the order of the reports; the row lists the
    identifiers of the most specific classifications of the report. *)
Theorem select_kraken_features_table (reports : list (string * list Row))
    (coverage_threshold : float) (rows : list (string * list (option string)))
    (taxonomy : list (option string * string)) (full_tree : TreeNode.t) :
  select_kraken_features reports coverage_threshold
  = Ok (rows, taxonomy, full_tree) ->
  rows = omap (table_row coverage_threshold) reports
  /\ (forall report,
        table_row coverage_threshold report = None
        <-> kept_rows (coverage_filter coverage_threshold report.2) = []).
Proof.
  unfold select_kraken_features. intros H. inv_bind H. destruct a as [rows' trees].
  inv_bind H. inv_bind H. rename a0 into table. inv_bind H.
  injection H as <- _ _. apply DataFrame_Ok in Ha1 as [-> _].
  apply per_sample_rows in Ha as [-> _]. split; [done|].
  intros report. unfold table_row. rewrite <- leaf_rows_nil.
  by destruct (leaf_rows _).
Qed.


Definition two_reports : list (string * list Row) :=
  [("gut", sample_two_genera);
   ("blank", [mkRow "U" "unclassified" 0 0.5%float])].

Lemma select_kraken_features_table_witness :
  [("gut", [Some "562"; Some "590"])] = omap (table_row 0.125%float) two_reports
  /\ (forall report,
        table_row 0.125%float report = None
        <-> kept_rows (coverage_filter 0.125%float report.2) = []).
Proof.
  eapply (select_kraken_features_table two_reports 0.125%float
            [("gut", [Some "562"; Some "590"])]).
  vm_compute. reflexivity.
Defined.

(** ** [_kraken_to_ncbi_tree]: when it raises *)

Lemma lstrip_space_len s : len (lstrip_space s) <= len s.
Proof.
  unfold len. induction s as [|c s IH]; [done|].
  cbn [lstrip_space].
  destruct (Ascii.eqb_spec c " ") as [->|Hc].
  - cbn [String.length]. lia.
  - destruct c as [[] [] [] [] [] [] [] []]; try lia. done.
Qed.

Lemma row_indent_nonneg row : 0 <= row_indent row.
Proof.
  unfold row_indent, _get_indentation. apply Z.div_pos; [|done].
  pose proof (lstrip_space_len (name row)). lia.
Qed.

Lemma unwind_all indent stack :
  Forall (fun e => indent <= e.1) stack -> unwind indent stack = Raise IndexError.
Proof.
  induction 1 as [|[pi pn] stack Hle _ IH]; [done|].
  cbn [unwind]. cbn [fst] in Hle. by rewrite (proj2 (Z.leb_le _ _) Hle).
Qed.

Lemma unwind_suffix indent stack : forall stack',
  unwind indent stack = Ok stack' -> stack' `suffix_of` stack.
Proof.
  induction stack as [|[pi pn] stack IH]; intros stack'; [done|].
  cbn [unwind]. destruct (indent <=? pi).
  - intros H. apply suffix_cons_r. by apply IH.
  - by intros [= <-].
Qed.

Lemma unwind_raises indent stack e :
  unwind indent stack = Raise e -> e = IndexError.
Proof.
  induction stack as [|[pi pn] stack IH]; [by intros [= <-]|].
  cbn [unwind]. by destruct (indent <=? pi).
Qed.

Lemma mark_first_child_raises pn ncbi_tree e :
  mark_first_child pn ncbi_tree = Raise e -> e = IndexError.
Proof.
  unfold mark_first_child. destruct (children_of pn ncbi_tree); [|done].
  by intros [= <-].
Qed.

Lemma attach_row_raises st row e :
  attach_row st row = Raise e -> e = IndexError.
Proof.
  unfold attach_row. destruct (stack st) as [|[pi pn] below] eqn:Hst.
  { by intros [= <-]. }
  cbn [stack_top]. rewrite bind_Ok.
  destruct (if _ <=? pi then _ else _) as [tree1|e1] eqn:E1.
  - rewrite bind_Ok.
    destruct (unwind _ _) as [stack1|e2] eqn:E2.
    + rewrite bind_Ok. destruct stack1 as [|[pi' pn'] below']; [by intros [= <-]|].
      done.
    + rewrite bind_Raise. intros [= <-]. by apply unwind_raises in E2.
  - rewrite bind_Raise. intros [= <-].
    destruct (_ <=? pi); [|done]. by apply mark_first_child_raises in E1.
Qed.

(** A row without indentation that passes the guard empties the stack,
    the root included. *)
Lemma attach_row_unindented st row :
  Forall (fun e => 0 <= e.1) (stack st) -> row_indent row = 0 ->
  attach_row st row = Raise IndexError.
Proof.
  intros Hst Hrow.
  destruct (attach_row st row) as [st'|e] eqn:E.
  - apply attach_row_Ok in E as (? & ? & ? & ? & ? & ? & ? & _ & _ & Hunw & _).
    rewrite unwind_all in Hunw; [done|]. by rewrite Hrow.
  - by apply attach_row_raises in E as ->.
Qed.

Lemma attach_row_stack_nonneg st row st' :
  Forall (fun e => 0 <= e.1) (stack st) -> attach_row st row = Ok st' ->
  Forall (fun e => 0 <= e.1) (stack st').
Proof.
  intros Hst H.
  apply attach_row_Ok in H as (? & ? & ? & ? & ? & ? & ? & _ & _ & Hunw & ->).
  cbn [stack]. apply Forall_cons. split; [apply row_indent_nonneg|].
  apply unwind_suffix in Hunw as [k Hk]. rewrite Hk in Hst.
  by apply Forall_app in Hst as [_ ?].
Qed.

Lemma builder_loop_raises df : forall st,
  Forall (fun e => 0 <= e.1) (stack st) ->
  (forall e, builder_loop st df = Raise e -> e = IndexError)
  /\ (Exists (fun row => row_kept row /\ row_indent row = 0) df ->
      builder_loop st df = Raise IndexError).
Proof.
  induction df as [|row df IH]; intros st Hst.
  { split; [done|]. intros H. by apply Exists_nil in H. }
  cbn [builder_loop].
  destruct (decide (row_kept row)) as [Hk|Hk].
  - rewrite builder_step_kept by done.
    destruct (attach_row st row) as [st1|e1] eqn:E1.
    + rewrite bind_Ok.
      destruct (IH st1 (attach_row_stack_nonneg _ _ _ Hst E1)) as [IH1 IH2].
      split; [done|]. intros Hex. apply Exists_cons in Hex as [[_ Hrow]|Hex].
      * by rewrite attach_row_unindented in E1.
      * by apply IH2.
    + apply attach_row_raises in E1 as ->. rewrite bind_Raise.
      split; [by intros e [= <-] | done].
  - rewrite builder_step_skipped, bind_Ok by done.
    destruct (IH st Hst) as [IH1 IH2]. split; [done|].
    intros Hex. apply Exists_cons in Hex as [[? _]|Hex]; [done | by apply IH2].
Qed.

Lemma indented_or_not df :
  Forall (fun row => row_kept row -> 1 <= row_indent row) df
  \/ Exists (fun row => row_kept row /\ row_indent row = 0) df.
Proof.
  induction df as [|row df [IH|IH]].
  - left. constructor.
  - destruct (decide (row_kept row)) as [Hk|Hk].
    + destruct (decide (row_indent row = 0)) as [H0|H0].
      * right. apply Exists_cons. by left.
      * left. constructor; [|done]. intros _.
        pose proof (row_indent_nonneg row). lia.
    + left. by constructor.
  - right. apply Exists_cons. by right.
Qed.

Lemma kraken_raises_only fresh df e :
  _kraken_to_ncbi_tree fresh df = Raise e -> e = IndexError.
Proof.
  assert (Forall (fun e => 0 <= e.1) (stack (builder_init fresh))) as Hinit.
  { by repeat constructor. }
  destruct (builder_loop_raises df _ Hinit) as [Hloop _].
  unfold _kraken_to_ncbi_tree.
  destruct (builder_loop (builder_init fresh) df) as [st|e'] eqn:E.
  - rewrite bind_Ok. unfold mark_last.
    destruct (stack st) as [|[pi pn] below]; [by intros [= <-]|].
    cbn [stack_top]. rewrite bind_Ok.
    destruct (children_of pn (tree st)) eqn:Hcs; [done|].
    apply mark_first_child_raises.
  - rewrite bind_Raise. intros [= <-]. by apply Hloop.
Qed.

Lemma kraken_raises_iff fresh df :
  _kraken_to_ncbi_tree fresh df = Raise IndexError
  <-> Exists (fun row => row_kept row /\ row_indent row = 0) df.
Proof.
  assert (Forall (fun e => 0 <= e.1) (stack (builder_init fresh))) as Hinit.
  { by repeat constructor. }
  destruct (builder_loop_raises df _ Hinit) as [_ Hex].
  unfold _kraken_to_ncbi_tree. split.
  - intros H. destruct (indented_or_not df) as [Hall|?]; [|done].
    destruct (builder_loop_returns fresh df _ (Inv_init fresh) Hall)
      as (st & Hst & Hinv).
    rewrite Hst, bind_Ok in H.
    destruct (mark_last_returns fresh st Hinv) as [t Ht]. congruence.
  - intros H. by rewrite (Hex H).
Qed.

(** X11. [_kraken_to_ncbi_tree] raises nothing but [IndexError], and raises
    it exactly when a row that passes the guard of line 61 has no
    indentation: such a row pops the root off the stack. *)
Theorem kraken_to_ncbi_tree_raises (fresh : nat) (df : list Row) :
  (forall e, _kraken_to_ncbi_tree fresh df = Raise e -> e = IndexError)
  /\ (_kraken_to_ncbi_tree fresh df = Raise IndexError
      <-> Exists (fun row => row_kept row /\ row_indent row = 0) df).
Proof.
  split.
  - intros e. apply kraken_raises_only.
  - apply kraken_raises_iff.
Qed.

(** ** [_combine_ncbi_trees]: what it raises and what it leaves alone *)

Module CombineFacts.
Import TreeNode TreeFacts FindFacts MergeFacts.

(** Caches that are filled hold one tip for each name. *)
Lemma fill_caches_NoDup nodes : forall tc ntc caches,
  fill_caches (tc, ntc) nodes = Ok caches ->
  NoDup (tip_names_of nodes)
  /\ forall s, s ∈ tip_names_of nodes -> tc !! s = None.
Proof.
  induction nodes as [|node nodes IH]; intros tc ntc caches H.
  - split; [constructor|]. intros s Hs. by apply elem_of_nil in Hs.
  - cbn [fill_caches] in H. inv_bind H. destruct a as [tc1 ntc1].
    apply IH in H as [Hnd Hnone]. clear IH.
    rewrite tip_names_of_cons. unfold cache_step in Ha.
    destruct (name node) as [s|]; [|by injection Ha as <- <-].
    destruct (is_tip node).
    + destruct (tc !! s) eqn:Hs; [done|]. injection Ha as <- <-. split.
      * apply NoDup_cons. split; [|done]. intros Hin.
        apply Hnone in Hin. by rewrite lookup_insert_eq in Hin.
      * intros s' Hs'. apply elem_of_cons in Hs' as [->|Hs']; [done|].
        apply Hnone in Hs'. by apply lookup_insert_None in Hs' as [? _].
    + by injection Ha as <- <-.
Qed.

Lemma find_Duplicate root s :
  ~ NoDup (tip_names_of (postorder root)) ->
  find root s = Raise DuplicateNodeError.
Proof.
  intros Hdup. unfold find, create_caches.
  destruct (fill_caches (∅, ∅) (postorder root)) as [caches|e] eqn:E.
  - by apply fill_caches_NoDup in E as [? _].
  - by apply fill_caches_raises in E as ->.
Qed.

(** The attributes of an object that no method called by the merge
    changes. *)
Definition attributes (x : t) : nat * option string * option Z * option bool :=
  (oid x, name x, length x, is_actual_tip x).

Lemma attributes_add_child p c n :
  attributes (update p (add_child c) n) = attributes n.
Proof.
  destruct n as [j s l b cs]. rewrite update_unfold.
  by destruct (decide (j = p)).
Qed.

Lemma attributes_remove i n : attributes (remove i n) = attributes n.
Proof. by destruct n. Qed.

Lemma attributes_append p c n x :
  x ∈ postorder (update p (add_child c) n) ->
  attributes x ∈ attributes <$> postorder n \/ x ∈ postorder c.
Proof.
  pose proof (add_child_extends c) as Hf.
  revert x. induction n as [j s l b cs IH] using t_ind'. intros x.
  rewrite elem_of_postorder, (children_update _ _ _ Hf). cbn [oid children].
  intros [->|(ch & Hch & Hx)].
  - left. rewrite attributes_add_child. apply list_elem_of_fmap.
    exists (Node j s l b cs). split; [done | apply postorder_refl].
  - apply elem_of_app in Hch as [Hch|Hch].
    + apply list_elem_of_fmap in Hch as (ch0 & -> & Hch0).
      rewrite Forall_forall in IH.
      destruct (IH _ Hch0 _ Hx) as [Hin|Hin]; [|by right].
      left. apply list_elem_of_fmap in Hin as (y & Hy & Hin).
      apply list_elem_of_fmap. exists y. split; [done|].
      eapply postorder_trans; [exact Hin | by apply postorder_child].
    + destruct (decide (j = p)); [|by apply elem_of_nil in Hch].
      apply list_elem_of_singleton in Hch as ->. by right.
Qed.

Lemma elem_of_remove_in i cs c :
  c ∈ remove_in i cs -> exists c0, c0 ∈ cs /\ c = remove i c0.
Proof.
  induction cs as [|c0 cs IH]; cbn [remove_in]; [intros H; by apply elem_of_nil in H|].
  destruct (decide (oid c0 = i)).
  - intros H. destruct (IH H) as (c1 & ? & ?). exists c1.
    split; [by apply elem_of_cons; right | done].
  - intros H. apply elem_of_cons in H as [->|H].
    + exists c0. split; [by apply elem_of_cons; left | done].
    + destruct (IH H) as (c1 & ? & ?). exists c1.
      split; [by apply elem_of_cons; right | done].
Qed.

Lemma attributes_removed i n x :
  x ∈ postorder (remove i n) -> attributes x ∈ attributes <$> postorder n.
Proof.
  revert x. induction n as [j s l b cs IH] using t_ind'. intros x.
  rewrite remove_unfold, elem_of_postorder. cbn [children].
  intros [->|(ch & Hch & Hx)].
  - apply list_elem_of_fmap. exists (Node j s l b cs).
    split; [done | apply postorder_refl].
  - apply elem_of_remove_in in Hch as (c0 & Hc0 & ->).
    rewrite Forall_forall in IH.
    pose proof (IH _ Hc0 _ Hx) as Hin.
    apply list_elem_of_fmap in Hin as (y & Hy & Hin).
    apply list_elem_of_fmap. exists y. split; [done|].
    eapply postorder_trans; [exact Hin | by apply postorder_child].
Qed.

Lemma get_elem_of_postorder i n m : get i n = Some m -> m ∈ postorder n.
Proof.
  induction n as [j s l b cs IH] using t_ind'.
  rewrite get_unfold. cbn [oid children].
  destruct (decide (j = i)); [intros [= <-]; apply postorder_refl|].
  intros Hget. apply elem_of_postorder. right. cbn [children].
  induction IH as [|ch cs Hch _ IHcs]; [done|].
  cbn [get_in] in Hget. destruct (get i ch) eqn:E.
  - injection Hget as ->. exists ch. split; [by apply elem_of_cons; left | auto].
  - destruct (IHcs Hget) as (c' & Hc' & Hin).
    exists c'. split; [by apply elem_of_cons; right | done].
Qed.

(** The objects of the two trees alive come from the set [known]. *)
Definition heap_within (known : list (nat * option string * option Z * option bool))
    (heap : t * t) : Prop :=
  forall x, x ∈ postorder heap.1 \/ x ∈ postorder heap.2 -> attributes x ∈ known.

Lemma heap_within_graft known matching node heap :
  heap_within known heap -> heap_within known (graft matching node heap).
Proof.
  destruct heap as [full_tree tree]. intros Hin. unfold graft.
  destruct (match get node tree with Some n => Some n | None => get node full_tree end)
    as [n|] eqn:Hobj; [|done].
  assert (forall x, x ∈ postorder n -> attributes x ∈ known) as Hn.
  { intros x Hx. apply Hin. cbn [fst snd].
    destruct (get node tree) as [n'|] eqn:E.
    - injection Hobj as ->. right.
      eapply postorder_trans; [exact Hx | by eapply get_elem_of_postorder].
    - left. eapply postorder_trans; [exact Hx | by eapply get_elem_of_postorder]. }
  assert (forall root x, (forall y, y ∈ postorder root -> attributes y ∈ known) ->
            x ∈ postorder (append matching n (remove node root)) ->
            attributes x ∈ known) as Hstep.
  { intros root x Hroot Hx. apply attributes_append in Hx as [Hx|Hx]; [|by apply Hn].
    apply list_elem_of_fmap in Hx as (y & -> & Hy).
    apply attributes_removed in Hy.
    apply list_elem_of_fmap in Hy as (z & -> & Hz). by apply Hroot. }
  intros x [Hx|Hx]; cbn [fst snd] in Hx.
  - apply (Hstep full_tree); [|done]. intros y Hy. apply Hin. by left.
  - apply (Hstep tree); [|done]. intros y Hy. apply Hin. by right.
Qed.

Lemma root_graft matching node heap :
  attributes (graft matching node heap).1 = attributes heap.1.
Proof.
  destruct heap as [full_tree tree]. unfold graft.
  destruct (match get node tree with Some n => Some n | None => _ end); [|done].
  cbn [fst]. unfold append. by rewrite attributes_add_child, attributes_remove.
Qed.

Lemma walk_within known parents : forall heap matching heap',
  heap_within known heap -> walk heap matching parents = Ok heap' ->
  heap_within known heap' /\ attributes heap'.1 = attributes heap.1.
Proof.
  induction parents as [|node parents IH]; intros heap matching heap' Hin H.
  - by injection H as <-.
  - cbn [walk] in H. destruct (find heap.1 (name node)) as [m|[]]; try done.
    + by apply IH in H.
    + apply IH in H as [? Hroot]; [|by apply heap_within_graft].
      split; [done|]. by rewrite Hroot, root_graft.
Qed.

Lemma merge_tip_within known heap tip heap' :
  heap_within known heap -> merge_tip heap tip = Ok heap' ->
  heap_within known heap' /\ attributes heap'.1 = attributes heap.1.
Proof.
  destruct heap as [full_tree tree]. intros Hin H. unfold merge_tip in H.
  destruct (find full_tree (name tip)) as [m|[]]; try done.
  - by injection H as <-.
  - by apply (walk_within known) in H.
Qed.

Lemma merge_tips_within known todo : forall heap heap',
  heap_within known heap -> merge_tips heap todo = Ok heap' ->
  heap_within known heap' /\ attributes heap'.1 = attributes heap.1.
Proof.
  induction todo as [|tip todo IH]; intros heap heap' Hin H.
  - by injection H as <-.
  - cbn [merge_tips] in H. inv_bind H.
    apply (merge_tip_within known) in Ha as [Hin1 Hroot1]; [|done].
    apply IH in H as [? Hroot]; [|done]. split; [done|]. by rewrite Hroot.
Qed.

Lemma merge_trees_within trees : forall full_tree result,
  merge_trees full_tree trees = Ok result ->
  attributes result = attributes full_tree
  /\ forall x, x ∈ postorder result ->
       exists tree y, tree ∈ full_tree :: trees /\ y ∈ postorder tree
                      /\ attributes y = attributes x.
Proof.
  induction trees as [|tree trees IH]; intros full_tree result H.
  - injection H as <-. split; [done|]. intros x Hx.
    exists full_tree, x. split; [by apply elem_of_cons; left | done].
  - cbn [merge_trees] in H. inv_bind H. rename a into full1.
    unfold merge_tree in Ha. inv_bind Ha. injection Ha as <-.
    apply (merge_tips_within
             (attributes <$> (postorder full_tree ++ postorder tree))) in Ha0
      as [Hin Hroot].
    2:{ intros x Hx. apply list_elem_of_fmap. exists x. split; [done|].
        by apply elem_of_app. }
    apply IH in H as [Hroot' Hall]. split; [by rewrite Hroot'|].
    intros x Hx. destruct (Hall x Hx) as (t0 & y & Ht0 & Hy & Hattr).
    apply elem_of_cons in Ht0 as [->|Ht0].
    + assert (attributes y ∈ attributes <$> (postorder full_tree ++ postorder tree))
        as Hy' by (apply Hin; by left).
      apply list_elem_of_fmap in Hy' as (z & Hz & Hin').
      apply elem_of_app in Hin' as [Hin'|Hin'].
      * exists full_tree, z. split; [by apply elem_of_cons; left|].
        split; [done | congruence].
      * exists tree, z. split; [apply elem_of_cons; right; by apply elem_of_cons; left|].
        split; [done | congruence].
    + exists t0, y. split; [|done].
      apply elem_of_cons. right. by apply elem_of_cons; right.
Qed.

Lemma merge_trees_raises trees : forall full_tree e,
  merge_trees full_tree trees = Raise e -> e = DuplicateNodeError.
Proof.
  assert (forall parents heap matching e,
            walk heap matching parents = Raise e -> e = DuplicateNodeError) as Hwalk.
  { induction parents as [|node parents IH]; intros heap matching e; [done|].
    cbn [walk]. destruct (find heap.1 (name node)) as [m|e'] eqn:E.
    - apply IH.
    - apply find_raises in E as [-> | ->]; [apply IH | by intros [= <-]]. }
  assert (forall todo heap e,
            merge_tips heap todo = Raise e -> e = DuplicateNodeError) as Htips.
  { induction todo as [|tip todo IH]; intros heap e; [done|].
    cbn [merge_tips]. destruct (merge_tip heap tip) as [heap1|e1] eqn:E.
    - rewrite bind_Ok. apply IH.
    - rewrite bind_Raise. intros [= <-]. destruct heap as [full_tree tree].
      unfold merge_tip in E.
      destruct (find full_tree (name tip)) as [m|e'] eqn:E'; [done|].
      apply find_raises in E' as [-> | ->]; [by apply Hwalk in E | congruence]. }
  induction trees as [|tree trees IH]; intros full_tree e; [done|].
  cbn [merge_trees]. unfold merge_tree.
  destruct (merge_tips (full_tree, tree) (tips tree)) as [heap|e1] eqn:E.
  - rewrite !bind_Ok. apply IH.
  - rewrite !bind_Raise. intros [= <-]. by apply Htips in E.
Qed.

End CombineFacts.

(** X12. [_combine_ncbi_trees] looks every tip up by name in the first tree:
    when two tips of the first tree bear one name and a later tree has
    a tip, the first lookup raises [DuplicateNodeError]. *)
Theorem combine_duplicate_tip_raises (full_tree tree : TreeNode.t)
    (rest : list TreeNode.t) :
  ~ NoDup (FindFacts.tip_names_of (TreeNode.postorder full_tree)) ->
  TreeNode.tips tree <> [] ->
  _combine_ncbi_trees (full_tree :: tree :: rest) = Raise DuplicateNodeError.
Proof.
  intros Hdup Htips. cbn [_combine_ncbi_trees merge_trees]. unfold merge_tree.
  destruct (TreeNode.tips tree) as [|tip tips]; [done|].
  cbn [merge_tips merge_tip]. by rewrite CombineFacts.find_Duplicate.
Qed.

Definition tree_twice_562 : TreeNode.t :=
  Eval vm_compute in
    match _kraken_to_ncbi_tree 0
            [mkRow "S" "  Escherichia coli" 562 0.5%float;
             mkRow "S" "  Escherichia coli" 562 0.5%float] with
    | Ok tree => tree
    | Raise _ => TreeNode.Node 0 None None None []
    end.

Lemma combine_duplicate_tip_raises_witness :
  _combine_ncbi_trees [tree_twice_562; sample_salmonella]
  = Raise DuplicateNodeError.
Proof.
  apply (combine_duplicate_tip_raises tree_twice_562 sample_salmonella []).
  - intros H. by apply (bool_decide_pack _) in H.
  - by vm_compute.
Defined.

(** X13. A tree all of whose tips bear names the first tree has is skipped,
    whatever its rank nodes are: when no two tips of the first tree bear
    one name and every tip of every later tree bears the name of a node
    of the first, [_combine_ncbi_trees] returns the first tree as it
    was. *)
Theorem combine_known_tips_unchanged (full_tree : TreeNode.t)
    (rest : list TreeNode.t) :
  NoDup (FindFacts.tip_names_of (TreeNode.postorder full_tree)) ->
  Forall (fun tree =>
            forall tip, tip ∈ TreeNode.tips tree ->
              exists x s, x ∈ TreeNode.postorder full_tree
                          /\ TreeNode.name x = Some s
                          /\ TreeNode.name tip = Some s) rest ->
  _combine_ncbi_trees (full_tree :: rest) = Ok full_tree.
Proof.
  intros Hnd Hall. cbn [_combine_ncbi_trees].
  induction Hall as [|tree rest Htree _ IH]; [done|].
  cbn [merge_trees]. unfold merge_tree.
  rewrite merge_tips_all_found; [by rewrite !bind_Ok|].
  intros tip Htip. cbn [fst].
  destruct (Htree tip Htip) as (x & s & Hx & Hxs & ->).
  by eapply FindFacts.find_returns.
Qed.

Definition tree_ecoli_other_lineage : TreeNode.t :=
  Eval vm_compute in
    match _kraken_to_ncbi_tree 5
            [mkRow "D" "  Archaea" 2 0.5%float;
             mkRow "G" "    Methanococcus" 562 0.5%float] with
    | Ok tree => tree
    | Raise _ => TreeNode.Node 0 None None None []
    end.

Lemma combine_known_tips_unchanged_witness :
  _combine_ncbi_trees [sample_ecoli; tree_ecoli_other_lineage] = Ok sample_ecoli.
Proof.
  apply (combine_known_tips_unchanged sample_ecoli [tree_ecoli_other_lineage]).
  - apply (bool_decide_unpack _). by vm_compute.
  - repeat constructor. intros tip Htip. vm_compute in Htip.
    apply elem_of_cons in Htip as [->|Htip].
    { exists (TreeNode.Node 2 (Some "2") (Some 0) (Some false) []), "2".
      split; [|by split]. vm_compute.
      repeat first [apply list_elem_of_here | apply list_elem_of_further]. }
    apply elem_of_cons in Htip as [->|Htip].
    { exists (TreeNode.Node 4 (Some "562") (Some 0) (Some true) []), "562".
      split; [|by split]. vm_compute.
      repeat first [apply list_elem_of_here | apply list_elem_of_further]. }
    by apply elem_of_nil in Htip.
Defined.

(** X14. [_combine_ncbi_trees] returns its first tree, changed in place: the
    root is the root object of the first tree, and every object of the
    result is an object of one of the trees given, with the name, the
    length and the tip mark it had there.  The merge makes no node and
    renames none. *)
Theorem combine_makes_no_node (full_tree : TreeNode.t) (rest : list TreeNode.t)
    (result : TreeNode.t) :
  _combine_ncbi_trees (full_tree :: rest) = Ok result ->
  CombineFacts.attributes result = CombineFacts.attributes full_tree
  /\ forall x, x ∈ TreeNode.postorder result ->
       exists tree y, tree ∈ full_tree :: rest /\ y ∈ TreeNode.postorder tree
                      /\ CombineFacts.attributes y = CombineFacts.attributes x.
Proof. cbn [_combine_ncbi_trees]. apply CombineFacts.merge_trees_within. Qed.

Definition merged_ecoli_salmonella : TreeNode.t :=
  Eval vm_compute in
    match _combine_ncbi_trees [sample_ecoli; sample_salmonella] with
    | Ok tree => tree
    | Raise _ => TreeNode.Node 0 None None None []
    end.

Lemma combine_makes_no_node_witness :
  CombineFacts.attributes merged_ecoli_salmonella
  = CombineFacts.attributes sample_ecoli
  /\ forall x, x ∈ TreeNode.postorder merged_ecoli_salmonella ->
       exists tree y, tree ∈ [sample_ecoli; sample_salmonella]
                      /\ y ∈ TreeNode.postorder tree
                      /\ CombineFacts.attributes y = CombineFacts.attributes x.
Proof.
  apply (combine_makes_no_node sample_ecoli [sample_salmonella]
           merged_ecoli_salmonella).
  by vm_compute.
Defined.

(** X24. [_combine_ncbi_trees] raises [IndexError] for the empty list and
    nothing else but [DuplicateNodeError], which takes two trees at
    least; the [MissingNodeError] of a failed lookup never leaves it. *)
Theorem combine_raises (trees : list TreeNode.t) (e : exn) :
  _combine_ncbi_trees trees = Raise e ->
  (e = IndexError /\ trees = [])
  \/ (e = DuplicateNodeError /\ (2 <= List.length trees)%nat).
Proof.
  destruct trees as [|full_tree rest]; cbn [_combine_ncbi_trees].
  - intros [= <-]. by left.
  - intros H. right. split; [by apply CombineFacts.merge_trees_raises in H|].
    destruct rest; [done|]. cbn [List.length]. lia.
Qed.

Lemma combine_raises_witness :
  (DuplicateNodeError = IndexError /\ [tree_twice_562; sample_salmonella] = [])
  \/ (DuplicateNodeError = DuplicateNodeError
      /\ (2 <= List.length [tree_twice_562; sample_salmonella])%nat).
Proof.
  apply (combine_raises [tree_twice_562; sample_salmonella]). by vm_compute.
Defined.

(** ** [_to_taxonomy]: the rows and the errors *)

Module TaxonomyFacts.
Import TreeNode TreeFacts FindFacts MergeFacts.

Lemma to_taxonomy_from_unfold lineage n :
  to_taxonomy_from lineage n
  = match children n with
    | [] => [(n, lineage)]
    | cs =>
        concat (map (to_taxonomy_from
                       match name n with
                       | Some s => if String.eqb s "" then lineage else lineage ++ [s]
                       | None => lineage
                       end) cs)
    end.
Proof. by destruct n as [j s l b [|c cs]]. Qed.

(** [to_taxonomy] yields the tips, the root included when it is one. *)
Lemma to_taxonomy_from_tips n : forall lineage,
  (to_taxonomy_from lineage n).*1 = TipFacts.tips_with_self n.
Proof.
  induction n as [j s l b cs IH] using t_ind'. intros lineage.
  rewrite to_taxonomy_from_unfold. unfold TipFacts.tips_with_self.
  rewrite postorder_unfold, filter_app. cbn [children name].
  destruct cs as [|c cs]; [done|].
  rewrite filter_cons, filter_nil, decide_False, app_nil_r by done.
  generalize (match s with
              | Some s0 => if String.eqb s0 "" then lineage else lineage ++ [s0]
              | None => lineage
              end). intros lineage'.
  induction IH as [|ch chs Hch _ IHchs]; [done|].
  cbn [map concat]. rewrite fmap_app, filter_app, Hch, IHchs. done.
Qed.

(** A rank of a lineage is the name of an object with children. *)
Lemma to_taxonomy_from_ranks n : forall lineage x ranks s,
  (x, ranks) ∈ to_taxonomy_from lineage n -> s ∈ ranks ->
  s ∈ lineage
  \/ exists y, y ∈ postorder n /\ is_tip y = false /\ name y = Some s.
Proof.
  induction n as [j s0 l b cs IH] using t_ind'. intros lineage x ranks s.
  rewrite to_taxonomy_from_unfold. cbn [children name].
  destruct cs as [|c cs].
  { intros Hx Hs. apply list_elem_of_singleton in Hx. injection Hx as -> ->.
    by left. }
  intros Hx Hs. apply elem_of_concat_map in Hx as (ch & Hch & Hx).
  rewrite Forall_forall in IH.
  destruct (IH _ Hch _ _ _ _ Hx Hs) as [Hin|(y & Hy & Htip & Hname)].
  - destruct s0 as [s0|]; [|by left].
    destruct (String.eqb s0 ""); [by left|].
    apply elem_of_app in Hin as [Hin|Hin]; [by left|].
    apply list_elem_of_singleton in Hin as ->. right.
    exists (Node j (Some s0) l b (c :: cs)).
    split; [apply postorder_refl | done].
  - right. exists y. split; [|done].
    eapply postorder_trans; [exact Hy | by apply postorder_child].
Qed.

Lemma taxonomy_rows_names l : forall rows,
  taxonomy_rows l = Ok rows -> rows.*1 = name <$> l.*1.
Proof.
  induction l as [|[node ranks] l IH]; intros rows H.
  - by injection H as <-.
  - cbn [taxonomy_rows] in H. inv_bind H. inv_bind H. injection H as <-.
    cbn [fmap list_fmap fst]. f_equal. by apply IH.
Qed.

Lemma taxonomy_rows_raises l : forall e,
  taxonomy_rows l = Raise e ->
  exists node ranks, (node, ranks) ∈ l /\ _pad_ranks ranks = Raise e.
Proof.
  induction l as [|[node ranks] l IH]; intros e H; [done|].
  cbn [taxonomy_rows] in H.
  destruct (_pad_ranks ranks) as [taxon|e1] eqn:E1.
  - rewrite bind_Ok in H.
    destruct (taxonomy_rows l) as [rest|e2] eqn:E2; [done|].
    rewrite bind_Raise in H. injection H as <-.
    destruct (IH _ eq_refl) as (node' & ranks' & Hin & Hraise).
    exists node', ranks'. split; [by apply elem_of_cons; right | done].
  - rewrite bind_Raise in H. injection H as <-.
    exists node, ranks. split; [by apply elem_of_cons; left | done].
Qed.

(** The root of the tree of [_kraken_to_ncbi_tree] is the object made
    first, and it is unnamed. *)
Lemma attach_row_root fresh st row st' :
  oid (tree st) = fresh /\ name (tree st) = None ->
  attach_row st row = Ok st' ->
  oid (tree st') = fresh /\ name (tree st') = None.
Proof.
  intros [Hoid Hname] H.
  apply attach_row_Ok in H
    as (pi & pn & below & tree1 & pi' & pn' & below' & _ & Hmark & _ & ->).
  cbn [tree]. unfold append.
  rewrite (oid_update _ _ _ (add_child_extends _)).
  rewrite (name_update _ _ _ (add_child_extends _)).
  destruct (row_indent row <=? pi); [|by subst].
  apply mark_first_child_Ok in Hmark as (c & cs & _ & ->).
  rewrite (oid_update _ _ _ (set_is_actual_tip_extends _)).
  by rewrite (name_update _ _ _ (set_is_actual_tip_extends _)).
Qed.

Lemma builder_loop_root fresh df : forall st st',
  oid (tree st) = fresh /\ name (tree st) = None ->
  builder_loop st df = Ok st' ->
  oid (tree st') = fresh /\ name (tree st') = None.
Proof.
  induction df as [|row df IH]; intros st st' Hst H.
  - by injection H as <-.
  - cbn [builder_loop] in H. inv_bind H. apply (IH a); [|done].
    unfold builder_step in Ha. destruct (rank_skipped _).
    + by injection Ha as <-.
    + by apply (attach_row_root fresh) in Ha.
Qed.

Lemma kraken_to_ncbi_tree_root fresh df ncbi_tree :
  _kraken_to_ncbi_tree fresh df = Ok ncbi_tree ->
  oid ncbi_tree = fresh /\ name ncbi_tree = None.
Proof.
  unfold _kraken_to_ncbi_tree. intros H. inv_bind H.
  apply (builder_loop_root fresh) in Ha; [|done].
  unfold mark_last in H. inv_bind H. destruct a0 as [pi pn].
  destruct (children_of pn (tree a)); [by injection H as <-|].
  apply mark_first_child_Ok in H as (c & cs & _ & ->).
  rewrite (oid_update _ _ _ (set_is_actual_tip_extends _)).
  by rewrite (name_update _ _ _ (set_is_actual_tip_extends _)).
Qed.

Lemma views_oids final rows : forall i j,
  (j < List.length rows)%nat ->
  S (i + 2 * j) ∈ (fun v => v.1.1) <$> TipFacts.views final i rows.
Proof.
  induction rows as [|r rows IH]; intros i j Hj; [cbn in Hj; lia|].
  rewrite TipFacts.views_cons, fmap_cons. cbn [fst].
  destruct j as [|j].
  - rewrite Nat.mul_0_r, Nat.add_0_r. by apply elem_of_cons; left.
  - apply elem_of_cons. right. cbn [List.length] in Hj.
    replace (S (i + 2 * S j)) with (S ((2 + i) + 2 * j)) by lia.
    apply IH. lia.
Qed.

(** In the tree of a report the objects with children are the root and
    the rank nodes. *)
Lemma kraken_to_ncbi_tree_internal fresh df ncbi_tree y :
  _kraken_to_ncbi_tree fresh df = Ok ncbi_tree ->
  y ∈ postorder ncbi_tree -> is_tip y = false ->
  name y = None \/ exists row, name y = Some (rank_name row).
Proof.
  intros H Hy Htip.
  destruct (kraken_to_ncbi_tree_nodes _ _ _ H) as (Hnodes & Hoids & Hnd).
  destruct (kraken_to_ncbi_tree_root _ _ _ H) as [Hroot Hname].
  pose proof (TipFacts.kraken_to_ncbi_tree_views _ _ _ H) as Hviews.
  pose proof (get_postorder _ _ Hnd Hy) as Hget.
  pose proof (postorder_oid _ _ Hy) as Hin. apply Hoids in Hin.
  destruct (decide (oid y = fresh)) as [Hy0|Hy0].
  { left. rewrite get_unfold, decide_True in Hget by congruence.
    by injection Hget as <-. }
  assert (exists i, (i < List.length (kept_rows df))%nat
                    /\ (oid y = S fresh + 2 * i \/ oid y = S (S fresh + 2 * i))%nat)
    as (i & Hi & [Hrank|Hid]).
  { exists ((oid y - S fresh) / 2)%nat.
    pose proof (Nat.div_mod_eq (oid y - S fresh) 2) as Hdiv.
    pose proof (Nat.mod_upper_bound (oid y - S fresh) 2).
    split; [apply Nat.Div0.div_lt_upper_bound; lia | lia]. }
  - right. destruct (lookup_lt_is_Some_2 _ _ Hi) as [row Hrow].
    destruct (Hnodes _ _ Hrow) as (m & c & cs & Hm & Hmname & _).
    exists row. rewrite <- Hrank, Hget in Hm. by injection Hm as <-.
  - exfalso.
    pose proof (views_oids true (kept_rows df) (S fresh) i Hi) as Hv.
    rewrite <- Hid, <- Hviews, <- list_fmap_compose in Hv.
    apply list_elem_of_fmap in Hv as (tip & Hoid & Htipin).
    cbn in Hoid.
    assert (tip ∈ postorder ncbi_tree) as Htp
      by (by apply below_postorder, tips_below).
    pose proof (get_postorder _ _ Hnd Htp) as Hget'.
    rewrite <- Hoid, Hget in Hget'. injection Hget' as ->.
    apply list_elem_of_filter in Htipin as [Ht _]. congruence.
Qed.

End TaxonomyFacts.

(** X15. The taxonomy has one row for each tip of the tree, in postorder,
    with the name of the tip as its feature identifier; for a tree that
    is its root alone, the root is the one tip and its taxon is empty. *)
Theorem to_taxonomy_one_row_per_tip (ncbi_tree : TreeNode.t)
    (rows : list (option string * string)) :
  _to_taxonomy ncbi_tree = Ok rows ->
  rows.*1 = TreeNode.name <$> TipFacts.tips_with_self ncbi_tree
  /\ (TreeNode.children ncbi_tree <> [] ->
      rows.*1 = TreeNode.name <$> TreeNode.tips ncbi_tree)
  /\ (TreeNode.children ncbi_tree = [] -> rows = [(TreeNode.name ncbi_tree, "")]).
Proof.
  unfold _to_taxonomy, TreeNode.to_taxonomy. intros H.
  pose proof (TaxonomyFacts.taxonomy_rows_names _ _ H) as Hnames.
  rewrite TaxonomyFacts.to_taxonomy_from_tips in Hnames.
  split; [done|]. split.
  - intros Hcs. rewrite Hnames, TipFacts.tips_with_self_tips; [done|].
    unfold TreeNode.is_tip. by destruct (TreeNode.children ncbi_tree).
  - intros Hcs. rewrite TaxonomyFacts.to_taxonomy_from_unfold, Hcs in H.
    by injection H as <-.
Qed.

Lemma to_taxonomy_one_row_per_tip_witness :
  [(Some "2", "d__Bacteria");
   (Some "562",
    "d__Bacteria;k__Bacteria;p__containing s__Escherichia coli;c__containing s__Escherichia coli;o__containing s__Escherichia coli;f__containing s__Escherichia coli;g__containing s__Escherichia coli;s__Escherichia coli")].*1
  = TreeNode.name <$> TipFacts.tips_with_self sample_ecoli
  /\ (TreeNode.children sample_ecoli <> [] ->
      [(Some "2", "d__Bacteria");
       (Some "562",
        "d__Bacteria;k__Bacteria;p__containing s__Escherichia coli;c__containing s__Escherichia coli;o__containing s__Escherichia coli;f__containing s__Escherichia coli;g__containing s__Escherichia coli;s__Escherichia coli")].*1
      = TreeNode.name <$> TreeNode.tips sample_ecoli)
  /\ (TreeNode.children sample_ecoli = [] ->
      [(Some "2", "d__Bacteria");
       (Some "562",
        "d__Bacteria;k__Bacteria;p__containing s__Escherichia coli;c__containing s__Escherichia coli;o__containing s__Escherichia coli;f__containing s__Escherichia coli;g__containing s__Escherichia coli;s__Escherichia coli")]
      = [(TreeNode.name sample_ecoli, "")]).
Proof.
  apply (to_taxonomy_one_row_per_tip sample_ecoli). by vm_compute.
Defined.

(** X16. [_to_taxonomy] raises nothing but the two errors of [_pad_ranks]:
    the unbound local, and [ValueError] when an object with children
    bears a name without a double underscore. *)
Theorem to_taxonomy_raises (ncbi_tree : TreeNode.t) (e : exn) :
  _to_taxonomy ncbi_tree = Raise e ->
  e = UnboundLocalError
  \/ (e = ValueError
      /\ exists y s, y ∈ TreeNode.postorder ncbi_tree
           /\ TreeNode.is_tip y = false /\ TreeNode.name y = Some s
           /\ ~ exists r label, s = r +:+ "__" +:+ label).
Proof.
  unfold _to_taxonomy, TreeNode.to_taxonomy. intros H.
  apply TaxonomyFacts.taxonomy_rows_raises in H as (node & ranks & Hin & H).
  apply pad_ranks_raises in H as [->|(-> & rank & Hrank & Hnone)];
    [by left|].
  right. split; [done|].
  destruct (TaxonomyFacts.to_taxonomy_from_ranks _ _ _ _ _ Hin Hrank)
    as [Hnil|(y & Hy & Htip & Hname)]; [by apply elem_of_nil in Hnil|].
  exists y, rank. by rewrite <- split_dunder_None.
Qed.

Lemma to_taxonomy_raises_witness :
  ValueError = UnboundLocalError
  \/ (ValueError = ValueError
      /\ exists y s,
           y ∈ TreeNode.postorder
                 (TreeNode.Node 0 None None None
                    [TreeNode.Node 1 (Some "Bacteria") (Some 1) None
                       [TreeNode.Node 2 (Some "2") (Some 0) (Some true) []]])
           /\ TreeNode.is_tip y = false /\ TreeNode.name y = Some s
           /\ ~ exists r label, s = r +:+ "__" +:+ label).
Proof.
  apply (to_taxonomy_raises
           (TreeNode.Node 0 None None None
              [TreeNode.Node 1 (Some "Bacteria") (Some 1) None
                 [TreeNode.Node 2 (Some "2") (Some 0) (Some true) []]])).
  by vm_compute.
Defined.

(** ** [select_kraken_features]: the errors *)

(** A report that stops the pipeline in the builder. *)
Definition unindented (coverage_threshold : float) (report : string * list Row)
  : Prop :=
  Exists (fun row => row_kept row /\ row_indent row = 0)
    (coverage_filter coverage_threshold report.2).

Lemma per_sample_raises coverage_threshold reports : forall fresh,
  (forall e, per_sample coverage_threshold fresh reports = Raise e ->
             e = IndexError)
  /\ (per_sample coverage_threshold fresh reports = Raise IndexError
      <-> Exists (unindented coverage_threshold) reports).
Proof.
  induction reports as [|[sample_id df] reports IH]; intros fresh.
  { split; [done|]. split; [done|]. intros H. by apply Exists_nil in H. }
  cbn [per_sample]. rewrite Exists_cons.
  destruct (_kraken_to_ncbi_tree fresh (coverage_filter coverage_threshold df))
    as [ncbi_tree|e1] eqn:E1.
  - rewrite bind_Ok.
    pose proof E1 as Hviews.
    apply TipFacts.kraken_to_ncbi_tree_views, actual_tips_views in Hviews.
    unfold _ncbi_tree_to_tips. rewrite Hviews, bind_Ok.
    destruct (IH (fresh + TreeNode.size ncbi_tree)%nat) as [IH1 IH2].
    assert (~ unindented coverage_threshold (sample_id, df)) as Hok.
    { intros Hbad. apply (kraken_raises_iff fresh) in Hbad. cbn [snd] in Hbad.
      congruence. }
    destruct (per_sample coverage_threshold _ reports) as [[rows trees]|e2] eqn:E2.
    + split; [done|]. split; [done|]. intros [?|Hex]; [done|].
      by apply IH2 in Hex.
    + rewrite bind_Raise. split.
      * intros e [= <-]. by apply IH1.
      * split; [intros [= ->]; right; by apply IH2|].
        intros [?|Hex]; [done|]. apply IH2 in Hex. congruence.
  - rewrite bind_Raise. apply kraken_raises_only in E1 as Heq. subst e1.
    split; [by intros e [= <-]|]. split; [|done].
    intros _. left. by apply (kraken_raises_iff fresh).
Qed.

Lemma table_row_labels coverage_threshold (reports : list (string * list Row))
    (table_row' : string * list (option string)) :
  table_row' ∈ omap (table_row coverage_threshold) reports ->
  exists report,
    report ∈ reports
    /\ table_row'.2
       = feature_id
           <$> leaf_rows (kept_rows (coverage_filter coverage_threshold report.2)).
Proof.
  intros H. apply list_elem_of_omap in H as (report & Hin & H).
  exists report. split; [done|]. unfold table_row in H.
  destruct (leaf_rows _); [done|]. by injection H as <-.
Qed.

(** X17. What [select_kraken_features] raises.  [IndexError] exactly when
    there is no report or a row that passes both filters has no
    indentation; [DuplicateNodeError] only from the merge of two reports
    or more; pandas' [InvalidIndexError], from the data frame of line
    40, only when the most specific classifications of some report
    repeat an identifier; otherwise the two errors of [_pad_ranks].  It
    raises neither [AttributeError], for a tip without the attribute,
    nor [MissingNodeError], which the merge handles. *)
Theorem select_kraken_features_raises (reports : list (string * list Row))
    (coverage_threshold : float) :
  (select_kraken_features reports coverage_threshold = Raise IndexError
   <-> reports = [] \/ Exists (unindented coverage_threshold) reports)
  /\ (forall e, select_kraken_features reports coverage_threshold = Raise e ->
        e = IndexError \/ e = DuplicateNodeError \/ e = InvalidIndexError
        \/ e = UnboundLocalError \/ e = ValueError)
  /\ (select_kraken_features reports coverage_threshold = Raise DuplicateNodeError ->
      (2 <= List.length reports)%nat)
  /\ (select_kraken_features reports coverage_threshold = Raise InvalidIndexError ->
      exists report,
        report ∈ reports
        /\ ~ NoDup (feature_id
                      <$> leaf_rows
                            (kept_rows
                               (coverage_filter coverage_threshold report.2)))).
Proof.
  unfold select_kraken_features.
  destruct (per_sample_raises coverage_threshold reports 0%nat) as [Hps1 Hps2].
  destruct (per_sample coverage_threshold 0 reports) as [[rows trees]|e1] eqn:E1.
  - rewrite bind_Ok.
    apply per_sample_rows in E1 as [Hrows Hlen].
    assert (~ Exists (unindented coverage_threshold) reports) as Hok.
    { intros Hex. by apply Hps2 in Hex. }
    destruct trees as [|full_tree trees].
    { destruct reports; [|done]. cbn [_combine_ncbi_trees]. rewrite bind_Raise.
      split; [split; [by left | done]|]. split; [|by split].
      intros e [= <-]. by left. }
    cbn [_combine_ncbi_trees].
    destruct (merge_trees full_tree trees) as [merged|e2] eqn:E2.
    + rewrite bind_Ok.
      destruct (DataFrame rows) as [table|e4] eqn:E4.
      * rewrite bind_Ok.
        destruct (_to_taxonomy merged) as [taxonomy|e3] eqn:E3.
        -- rewrite bind_Ok. split; [|by repeat split]. split; [done|].
           intros [->|?]; [done | contradiction].
        -- rewrite bind_Raise.
           assert (e3 = UnboundLocalError \/ e3 = ValueError) as He3.
           { unfold _to_taxonomy in E3.
             apply TaxonomyFacts.taxonomy_rows_raises in E3 as (? & ? & _ & E3).
             apply pad_ranks_raises in E3 as [?|[? _]]; auto. }
           split; [|split; [|split]].
           ++ split; [intros [= ->]; by destruct He3|].
              intros [->|?]; [done | contradiction].
           ++ intros e [= <-]. tauto.
           ++ intros [= ->]. by destruct He3.
           ++ intros [= ->]. by destruct He3.
      * rewrite bind_Raise. apply DataFrame_Raise in E4 as [-> Hex].
        split; [|split; [|split]].
        -- split; [done|]. intros [->|?]; [done | contradiction].
        -- intros e [= <-]. tauto.
        -- done.
        -- intros _. apply Exists_exists in Hex as (r & Hr & Hdup).
           rewrite Hrows in Hr.
           apply table_row_labels in Hr as (report & Hin & Heq).
           exists report. by rewrite <- Heq.
    + rewrite bind_Raise.
      pose proof (CombineFacts.merge_trees_raises _ _ _ E2) as ->.
      split; [|split; [|split]].
      * split; [done|]. intros [->|?]; [done | contradiction].
      * intros e [= <-]. tauto.
      * intros _. destruct trees as [|tree trees]; [done|].
        cbn [List.length] in Hlen. lia.
      * done.
  - rewrite bind_Raise. pose proof (Hps1 _ eq_refl) as ->.
    split; [|split; [|split]].
    + split; [|done]. intros _. right. by apply Hps2.
    + intros e [= <-]. tauto.
    + done.
    + done.
Qed.

(** X18. With one report there is nothing to merge and every rank node has a
    name with a double underscore, so [select_kraken_features] raises
    only [IndexError], for a row without indentation that passes both
    filters; or else pandas' [InvalidIndexError], when the most specific
    classifications of the report repeat an identifier; or else the
    unbound local of [_pad_ranks]. *)
Theorem select_kraken_features_one_report (sample_id : string) (df : list Row)
    (coverage_threshold : float) (e : exn) :
  select_kraken_features [(sample_id, df)] coverage_threshold = Raise e ->
  (e = IndexError /\ unindented coverage_threshold (sample_id, df))
  \/ (e = InvalidIndexError
      /\ ~ unindented coverage_threshold (sample_id, df)
      /\ ~ NoDup (feature_id
                    <$> leaf_rows (kept_rows (coverage_filter coverage_threshold df))))
  \/ (e = UnboundLocalError
      /\ ~ unindented coverage_threshold (sample_id, df)
      /\ NoDup (feature_id
                  <$> leaf_rows (kept_rows (coverage_filter coverage_threshold df)))).
Proof.
  unfold select_kraken_features. cbn [per_sample].
  destruct (_kraken_to_ncbi_tree 0 (coverage_filter coverage_threshold df))
    as [ncbi_tree|e1] eqn:E1.
  2:{ rewrite !bind_Raise. intros [= <-]. left.
      apply kraken_raises_only in E1 as Heq. subst e1. split; [done|].
      by apply (kraken_raises_iff 0). }
  assert (~ unindented coverage_threshold (sample_id, df)) as Hind.
  { intros Hbad. apply (kraken_raises_iff 0) in Hbad. cbn [snd] in Hbad.
    congruence. }
  rewrite bind_Ok. pose proof E1 as Hviews.
  apply TipFacts.kraken_to_ncbi_tree_views, actual_tips_views in Hviews.
  unfold _ncbi_tree_to_tips. rewrite Hviews. rewrite !bind_Ok.
  cbn [_combine_ncbi_trees merge_trees]. rewrite bind_Ok.
  set (labels := feature_id
                   <$> leaf_rows (kept_rows (coverage_filter coverage_threshold df))).
  assert (forall rows : list (string * list (option string)),
             rows = match labels with
                    | [] => []
                    | _ :: _ => [(sample_id, labels)]
                    end ->
             Forall (fun table_row => NoDup table_row.2) rows <-> NoDup labels)
    as Hrows.
  { intros rows ->. destruct labels as [|l labels'] eqn:El.
    - split; [intros _; constructor | constructor].
    - rewrite Forall_singleton. done. }
  destruct (DataFrame _) as [table|e4] eqn:E4.
  - apply DataFrame_Ok in E4 as [_ Hall]. apply (Hrows _ eq_refl) in Hall.
    rewrite bind_Ok.
    destruct (_to_taxonomy ncbi_tree) as [taxonomy|e3] eqn:E3; [done|].
    rewrite bind_Raise. intros [= <-]. unfold _to_taxonomy in E3.
    apply TaxonomyFacts.taxonomy_rows_raises in E3 as (node & ranks & Hin & E3).
    apply pad_ranks_raises in E3 as [?|(_ & rank & Hrank & Hnone)];
      [by right; right|].
    exfalso.
    destruct (TaxonomyFacts.to_taxonomy_from_ranks _ _ _ _ _ Hin Hrank)
      as [Hnil|(y & Hy & Htip & Hname)]; [by apply elem_of_nil in Hnil|].
    destruct (TaxonomyFacts.kraken_to_ncbi_tree_internal _ _ _ _ E1 Hy Htip)
      as [Hnone'|[row Hrow]]; [congruence|].
    rewrite Hname in Hrow. injection Hrow as ->.
    destruct (split_dunder_is_Some (lower (rank row)) (strip (name row))) as [? Hs].
    unfold rank_name in Hnone. congruence.
  - apply DataFrame_Raise in E4 as [-> Hex]. rewrite bind_Raise.
    intros [= <-]. right; left. split; [done|]. split; [done|].
    intros Hnd. apply (Hrows _ eq_refl) in Hnd.
    by apply Exists_not_Forall in Hex.
Qed.

Lemma select_kraken_features_one_report_witness :
  (InvalidIndexError = IndexError /\ unindented 0.125%float ("gut", report_twice_562))
  \/ (InvalidIndexError = InvalidIndexError
      /\ ~ unindented 0.125%float ("gut", report_twice_562)
      /\ ~ NoDup (feature_id
                    <$> leaf_rows
                          (kept_rows (coverage_filter 0.125%float report_twice_562))))
  \/ (InvalidIndexError = UnboundLocalError
      /\ ~ unindented 0.125%float ("gut", report_twice_562)
      /\ NoDup (feature_id
                  <$> leaf_rows
                        (kept_rows (coverage_filter 0.125%float report_twice_562)))).
Proof.
  apply (select_kraken_features_one_report "gut" report_twice_562 0.125%float).
  by vm_compute.
Defined.

(** ** [_kraken_to_ncbi_tree]: the parent of a rank node *)

Module ParentFacts.
Import TreeNode TreeFacts FindFacts MergeFacts.

(** The object [x] is a child of the object [p]. *)
Definition child_of (p x : nat) (ncbi_tree : t) : Prop :=
  exists m c, get p ncbi_tree = Some m /\ c ∈ children m /\ oid c = x.

(** The rows on the stack, the last first, each with its index among the
    rows kept: the pops of lines 75 to 77 and the push of line 80. *)
Fixpoint drop_deeper (indent : Z) (open : list (nat * Row)) : list (nat * Row) :=
  match open with
  | [] => []
  | (j, r) :: rest =>
      if indent <=? row_indent r then drop_deeper indent rest else open
  end.

Fixpoint open_rows_from (i : nat) (open : list (nat * Row)) (rows : list Row)
  : list (nat * Row) :=
  match rows with
  | [] => open
  | row :: rows' =>
      open_rows_from (S i) ((i, row) :: drop_deeper (row_indent row) open) rows'
  end.

Definition open_rows (rows : list Row) : list (nat * Row) :=
  open_rows_from 0 [] rows.

(** The stack entry of a row. *)
Definition entry (fresh : nat) (e : nat * Row) : Z * nat :=
  (row_indent e.2, (S fresh + 2 * e.1)%nat).

(** The object a row of indentation [indent] is appended to. *)
Definition parent_oid (fresh : nat) (open : list (nat * Row)) (indent : Z) : nat :=
  match drop_deeper indent open with
  | (j, _) :: _ => (S fresh + 2 * j)%nat
  | [] => fresh
  end.

Lemma open_rows_from_snoc rows r : forall i open,
  open_rows_from i open (rows ++ [r])
  = (i + List.length rows, r)%nat
      :: drop_deeper (row_indent r) (open_rows_from i open rows).
Proof.
  induction rows as [|r0 rows IH]; intros i open.
  - cbn. by rewrite Nat.add_0_r.
  - cbn [app open_rows_from List.length]. rewrite IH. do 2 f_equal. lia.
Qed.

Lemma open_rows_snoc rows r :
  open_rows (rows ++ [r])
  = (List.length rows, r) :: drop_deeper (row_indent r) (open_rows rows).
Proof. unfold open_rows. by rewrite open_rows_from_snoc. Qed.

Lemma drop_deeper_twice indent indent' open :
  indent <= indent' ->
  drop_deeper indent (drop_deeper indent' open) = drop_deeper indent open.
Proof.
  intros Hle. induction open as [|[j r] open IH]; [done|].
  cbn [drop_deeper]. destruct (Z.leb_spec indent' (row_indent r)).
  - rewrite IH. by rewrite (proj2 (Z.leb_le indent (row_indent r))) by lia.
  - done.
Qed.

(** The stack top after the pops is the nearest row before that is less
    indented. *)
Lemma drop_deeper_nearest rows : forall indent,
  match drop_deeper indent (open_rows rows) with
  | (j, r) :: _ =>
      rows !! j = Some r /\ row_indent r < indent
      /\ forall k r', (j < k)%nat -> rows !! k = Some r' -> indent <= row_indent r'
  | [] => forall k r', rows !! k = Some r' -> indent <= row_indent r'
  end.
Proof.
  induction rows as [|r rows IH] using rev_ind; intros indent.
  - cbn. intros k r' Hk. by rewrite lookup_nil in Hk.
  - rewrite open_rows_snoc. cbn [drop_deeper].
    destruct (Z.leb_spec indent (row_indent r)) as [Hle|Hlt].
    + rewrite drop_deeper_twice by done. specialize (IH indent).
      assert (forall k r', (rows ++ [r]) !! k = Some r' ->
                rows !! k = Some r' \/ r' = r) as Hsnoc.
      { intros k r' Hk. apply lookup_app_Some in Hk as [?|[_ Hk]]; [by left|].
        right. apply list_lookup_singleton_Some in Hk as [_ ?]. done. }
      destruct (drop_deeper indent (open_rows rows)) as [|[j rj] rest].
      * intros k r' Hk. destruct (Hsnoc _ _ Hk) as [?| ->]; [by eapply IH | done].
      * destruct IH as (Hj & Hlt & Hgap). split; [|split; [done|]].
        -- apply lookup_app_Some. by left.
        -- intros k r' Hjk Hk.
           destruct (Hsnoc _ _ Hk) as [?| ->]; [by eapply Hgap | done].
    + split; [|split; [done|]].
      * by apply list_lookup_middle.
      * intros k r' Hk Hr'. apply lookup_lt_Some in Hr'.
        rewrite length_app in Hr'. cbn [List.length] in Hr'. lia.
Qed.

Lemma unwind_entries fresh indent open : forall stack',
  unwind indent (map (entry fresh) open ++ [(0, fresh)]) = Ok stack' ->
  stack' = map (entry fresh) (drop_deeper indent open) ++ [(0, fresh)].
Proof.
  induction open as [|[j r] open IH]; intros stack'.
  - cbn. destruct (indent <=? 0); [done | by intros [= <-]].
  - cbn [map app unwind drop_deeper entry fst snd].
    destruct (indent <=? row_indent r); [apply IH | by intros [= <-]].
Qed.

Section Update.

Variables (y : nat) (f : t -> t) (extra : list t).
Hypothesis f_extends : extends_with f extra.

Lemma child_of_update p x ncbi_tree :
  p ∉ oids_in extra ->
  child_of p x ncbi_tree -> child_of p x (update y f ncbi_tree).
Proof.
  intros Hp (m & c & Hget & Hc & Hoid).
  exists (update y f m), (update y f c).
  rewrite (get_update _ _ _ f_extends) by done. rewrite Hget.
  split; [done|]. split.
  - rewrite (children_update _ _ _ f_extends). apply elem_of_app. left.
    apply list_elem_of_fmap. eauto.
  - by rewrite (oid_update _ _ _ f_extends).
Qed.

End Update.

Lemma child_of_append p node ncbi_tree :
  p ∈ oids ncbi_tree -> p ∉ oids node ->
  child_of p (oid node) (append p node ncbi_tree).
Proof.
  intros Hp Hnew. pose proof (add_child_extends node) as Hf.
  apply get_is_Some in Hp as [m Hm].
  exists (update p (add_child node) m), node. unfold append.
  rewrite (get_update _ _ _ Hf).
  2:{ unfold oids_in. cbn [map concat]. by rewrite app_nil_r. }
  rewrite Hm. split; [done|]. split; [|done].
  rewrite (children_update _ _ _ Hf), (get_oid _ _ _ Hm), decide_True by done.
  apply elem_of_app. right. by apply list_elem_of_singleton.
Qed.

(** *** The invariant of the loop on the stack and the parents *)

Record ParInv (fresh : nat) (rows : list Row) (st : Builder) : Prop := mkParInv {
  pi_inv : Inv fresh st;
  pi_next : next_oid st = (S fresh + 2 * List.length rows)%nat;
  pi_stack : stack st = map (entry fresh) (open_rows rows) ++ [(0, fresh)];
  pi_parents : forall i row,
    rows !! i = Some row ->
    child_of (parent_oid fresh (open_rows (take i rows)) (row_indent row))
      (S fresh + 2 * i) (tree st)
}.

Lemma ParInv_init fresh : ParInv fresh [] (builder_init fresh).
Proof.
  split; [apply Inv_init | cbn; lia | done |].
  intros i row Hi. by rewrite lookup_nil in Hi.
Qed.

Lemma attach_row_ParInv fresh rows st row st' :
  ParInv fresh rows st -> attach_row st row = Ok st' ->
  ParInv fresh (rows ++ [row]) st'.
Proof.
  intros [Hinv Hnext Hstack Hpar] H.
  pose proof (attach_row_Inv fresh _ _ _ Hinv H) as (Hinv' & _).
  apply attach_row_Ok in H
    as (pi & pn & below & tree1 & pi' & pn' & below' & Hst & Hmark & Hunw & ->).
  destruct Hinv as [Hoids Hnd Hroot (rest & Hrest & Hok)].
  assert ((forall x, x ∈ oids tree1 <-> x ∈ oids (tree st))
          /\ (forall p x, (p < next_oid st)%nat ->
                child_of p x (tree st) -> child_of p x tree1)) as [Hoids1 Hchild1].
  { destruct (row_indent row <=? pi).
    - apply mark_first_child_Ok in Hmark as (c & cs & _ & ->).
      split; [intros x; apply elem_of_oids_set_flag|].
      intros p x _. apply (child_of_update _ _ _ (set_is_actual_tip_extends true)).
      intros Hin. by apply elem_of_nil in Hin.
    - by subst tree1. }
  rewrite Hstack in Hunw. apply unwind_entries in Hunw as Hstack'.
  assert (pn' = parent_oid fresh (open_rows rows) (row_indent row)
          /\ pn' ∈ oids (tree st)) as [Hpn' Hpnin].
  { unfold parent_oid.
    assert (Forall (fun e => e.2 ∈ oids (tree st)) (stack st)) as Hall.
    { rewrite Hrest. apply Forall_app. split; [|by repeat constructor].
      eapply Forall_impl; [exact Hok|]. intros e [_ He].
      by apply rank_node_at_elem in He. }
    assert ((pi', pn') :: below' `suffix_of` stack st) as [k Hk].
    { rewrite Hstack, Hstack'. clear.
      induction (open_rows rows) as [|[j r] open IH]; [done|].
      cbn [drop_deeper].
      destruct (row_indent row <=? row_indent r); [|done].
      cbn [map app]. by apply suffix_cons_r. }
    rewrite Hk in Hall. apply Forall_app in Hall as [_ Hall].
    apply Forall_cons in Hall as [Hin _]. split; [|done].
    destruct (drop_deeper (row_indent row) (open_rows rows)) as [|[j r] open'];
      by injection Hstack' as _ ->. }
  split; cbn [tree stack next_oid].
  - done.
  - rewrite length_app. cbn [List.length]. lia.
  - rewrite open_rows_snoc, Hstack'. cbn [map app entry fst snd].
    by rewrite Hnext.
  - intros i row0 Hi.
    assert (forall x, x ∈ oids (new_node (next_oid st) row) ->
              (next_oid st <= x)%nat) as Hnew.
    { intros x Hx. apply oids_new_node in Hx. lia. }
    apply lookup_app_Some in Hi as [Hi|[Hlen Hi]].
    + rewrite take_app_le by (apply lookup_lt_Some in Hi; lia).
      specialize (Hpar _ _ Hi).
      assert (parent_oid fresh (open_rows (take i rows)) (row_indent row0)
              < next_oid st)%nat as Hlt.
      { destruct Hpar as (m & _ & Hget & _).
        assert (is_Some (get (parent_oid fresh (open_rows (take i rows))
                                (row_indent row0)) (tree st))) as Hsome by eauto.
        apply get_is_Some, Hoids in Hsome. lia. }
      apply (child_of_update _ _ _ (add_child_extends _)).
      * unfold oids_in. cbn [map concat]. rewrite app_nil_r.
        intros Hin. apply Hnew in Hin. lia.
      * by apply Hchild1.
    + apply list_lookup_singleton_Some in Hi as [Hi0 <-].
      assert (i = List.length rows) as -> by lia.
      rewrite take_app_length, <- Hpn', <- Hnext.
      change (next_oid st) with (oid (new_node (next_oid st) row)) at 2.
      apply child_of_append; [by apply Hoids1|].
      intros Hin. apply Hnew in Hin. apply Hoids in Hpnin. lia.
Qed.

Lemma builder_loop_ParInv fresh df : forall rows st st',
  ParInv fresh rows st -> builder_loop st df = Ok st' ->
  ParInv fresh (rows ++ kept_rows df) st'.
Proof.
  induction df as [|row df IH]; intros rows st st' HP H.
  - injection H as <-. by rewrite app_nil_r.
  - cbn [builder_loop] in H. inv_bind H. unfold kept_rows. rewrite filter_cons.
    destruct (decide (row_kept row)) as [Hk|Hk].
    + rewrite builder_step_kept in Ha by done.
      apply (attach_row_ParInv _ _ _ _ _ HP) in Ha.
      pose proof (IH (rows ++ [row]) a st' Ha H) as HP'.
      by rewrite <- app_assoc in HP'.
    + rewrite builder_step_skipped in Ha by done. injection Ha as <-.
      by apply (IH rows st st').
Qed.

Lemma kraken_to_ncbi_tree_parents fresh df ncbi_tree i row :
  _kraken_to_ncbi_tree fresh df = Ok ncbi_tree ->
  kept_rows df !! i = Some row ->
  child_of (parent_oid fresh (open_rows (take i (kept_rows df))) (row_indent row))
    (S fresh + 2 * i) ncbi_tree.
Proof.
  unfold _kraken_to_ncbi_tree. intros H Hi. inv_bind H.
  apply (builder_loop_ParInv _ _ [] _ _ (ParInv_init fresh)) in Ha.
  cbn [app] in Ha. destruct Ha as [_ _ _ Hpar]. specialize (Hpar _ _ Hi).
  unfold mark_last in H. inv_bind H. destruct a0 as [pi pn].
  destruct (children_of pn (tree a)); [by injection H as <-|].
  apply mark_first_child_Ok in H as (c & cs & _ & ->).
  apply (child_of_update _ _ _ (set_is_actual_tip_extends true)); [|done].
  intros Hin. by apply elem_of_nil in Hin.
Qed.

End ParentFacts.

(** X19. The rank node of a row hangs below the rank node of the nearest row
    before it that is less indented, and below the root when no row
    before it is less indented: the tree follows the indentation of the
    report.  The rows are those that pass the guard of line 61. *)
Theorem kraken_to_ncbi_tree_parent (fresh : nat) (df : list Row)
    (ncbi_tree : TreeNode.t) (i : nat) (row : Row) :
  _kraken_to_ncbi_tree fresh df = Ok ncbi_tree ->
  kept_rows df !! i = Some row ->
  exists p m c,
    TreeNode.get p ncbi_tree = Some m
    /\ c ∈ TreeNode.children m
    /\ TreeNode.oid c = (S fresh + 2 * i)%nat
    /\ TreeNode.name c = Some (rank_name row)
    /\ ((p = fresh /\ TreeNode.name m = None
         /\ forall k r, (k < i)%nat -> kept_rows df !! k = Some r ->
                        row_indent row <= row_indent r)
        \/ exists j r,
             (j < i)%nat /\ kept_rows df !! j = Some r
             /\ p = (S fresh + 2 * j)%nat
             /\ TreeNode.name m = Some (rank_name r)
             /\ row_indent r < row_indent row
             /\ forall k r', (j < k < i)%nat -> kept_rows df !! k = Some r' ->
                             row_indent row <= row_indent r').
Proof.
  intros H Hi.
  destruct (ParentFacts.kraken_to_ncbi_tree_parents _ _ _ _ _ H Hi)
    as (m & c & Hget & Hc & Hoid).
  destruct (kraken_to_ncbi_tree_nodes _ _ _ H) as (Hnodes & Hoids & Hnd).
  destruct (TaxonomyFacts.kraken_to_ncbi_tree_root _ _ _ H) as [Hroot Hname].
  exists (ParentFacts.parent_oid fresh
            (ParentFacts.open_rows (take i (kept_rows df))) (row_indent row)), m, c.
  split; [done|]. split; [done|]. split; [done|]. split.
  { destruct (Hnodes _ _ Hi) as (mi & _ & _ & Hmi & Hmname & _).
    assert (c ∈ TreeNode.postorder ncbi_tree) as Hcin.
    { eapply MergeFacts.postorder_trans;
        [by apply MergeFacts.postorder_child
        | by eapply CombineFacts.get_elem_of_postorder]. }
    apply (MergeFacts.get_postorder _ _ Hnd) in Hcin.
    rewrite Hoid, Hmi in Hcin. by injection Hcin as <-. }
  pose proof (ParentFacts.drop_deeper_nearest (take i (kept_rows df))
                (row_indent row)) as Hnear.
  unfold ParentFacts.parent_oid in Hget |- *.
  assert (i <= List.length (kept_rows df))%nat as Hile
    by (apply lookup_lt_Some in Hi; lia).
  destruct (ParentFacts.drop_deeper (row_indent row)
              (ParentFacts.open_rows (take i (kept_rows df)))) as [|[j r] rest].
  - left. split; [done|]. split.
    + rewrite TreeFacts.get_unfold, decide_True in Hget by done.
      by injection Hget as <-.
    + intros k r Hk Hr. apply (Hnear k). by rewrite lookup_take_lt.
  - right. destruct Hnear as (Hj & Hlt & Hgap).
    apply lookup_take_Some in Hj as [Hj Hji].
    exists j, r. split; [done|]. split; [done|]. split; [done|]. split.
    + destruct (Hnodes _ _ Hj) as (mj & _ & _ & Hmj & Hmname & _).
      rewrite Hget in Hmj. by injection Hmj as <-.
    + split; [done|]. intros k r' [Hjk Hki] Hr'. apply (Hgap k); [done|].
      by rewrite lookup_take_lt.
Qed.

Lemma kraken_to_ncbi_tree_parent_witness :
  exists p m c,
    TreeNode.get p tree_two_genera = Some m
    /\ c ∈ TreeNode.children m
    /\ TreeNode.oid c = (S 0 + 2 * 3)%nat
    /\ TreeNode.name c = Some (rank_name (mkRow "G" "    Salmonella" 590 0.5%float))
    /\ ((p = 0%nat /\ TreeNode.name m = None
         /\ forall k r, (k < 3)%nat -> kept_rows sample_two_genera !! k = Some r ->
                        row_indent (mkRow "G" "    Salmonella" 590 0.5%float)
                        <= row_indent r)
        \/ exists j r,
             (j < 3)%nat /\ kept_rows sample_two_genera !! j = Some r
             /\ p = (S 0 + 2 * j)%nat
             /\ TreeNode.name m = Some (rank_name r)
             /\ row_indent r < row_indent (mkRow "G" "    Salmonella" 590 0.5%float)
             /\ forall k r', (j < k < 3)%nat ->
                             kept_rows sample_two_genera !! k = Some r' ->
                             row_indent (mkRow "G" "    Salmonella" 590 0.5%float)
                             <= row_indent r').
Proof.
  apply (kraken_to_ncbi_tree_parent 0 sample_two_genera tree_two_genera 3);
    by vm_compute.
Defined.

(** ** [select_kraken_features]: the rows that make nodes *)

(** The loop of lines 26 to 36 appends, for each report, the tree that
    [_kraken_to_ncbi_tree] returns for the frame line 29 filtered. *)
Lemma per_sample_trees coverage_threshold reports : forall fresh rows trees,
  per_sample coverage_threshold fresh reports = Ok (rows, trees) ->
  Forall2 (fun report tree =>
             _kraken_to_ncbi_tree (TreeNode.oid tree)
               (coverage_filter coverage_threshold report.2) = Ok tree)
    reports trees.
Proof.
  induction reports as [|[sample_id df] reports IH]; intros fresh rows trees H.
  - injection H as <- <-. constructor.
  - cbn [per_sample] in H. inv_bind H. rename a into ncbi_tree.
    inv_bind H. rename a into tips. inv_bind H. destruct a as [rows' trees'].
    injection H as <- <-. constructor; [|by eapply IH].
    cbn [snd].
    by destruct (TaxonomyFacts.kraken_to_ncbi_tree_root _ _ _ Ha) as [-> _].
Qed.

(** A report with rows of every kind: skipped for their rank code, below
    the coverage threshold [0.125], and making nodes. *)
Definition reports_low_coverage : list (string * list Row) :=
  [("gut",
    [mkRow "U" "unclassified" 0 0.75%float;
     mkRow "R" "root" 1 0.75%float;
     mkRow "D" "  Bacteria" 2 0.5%float;
     mkRow "G" "    Escherichia" 561 0.0625%float;
     mkRow "S" "      Escherichia coli" 562 0.5%float;
     mkRow "G1" "    unnamed group" 7 0.5%float;
     mkRow "S1" "        Escherichia coli K-12" 83333 0.25%float])].

Definition trees_low_coverage : list TreeNode.t :=
  Eval vm_compute in
    match per_sample 0.125%float 0 reports_low_coverage with
    | Ok (_, trees) => trees
    | Raise _ => []
    end.

(** C6. In the loop of [select_kraken_features] over the reports, a row
    of a report makes a node of the tree of its sample exactly when its
    coverage reaches the threshold and its rank code is not [U], not [R]
    and not a code of several letters that does not start with [S].
    The loop makes one tree for each report, the one
    [_kraken_to_ncbi_tree] returns for the filtered frame; the rows that
    make nodes are the rows of the report that meet the condition, in
    the order of the report; the [i]-th of them has its rank node and
    identifier node as the [i]-th pair of objects of the tree, which has
    no other object than these and the root.  What
    [select_kraken_features] returns is the table of the rows of that
    loop and the merge of its trees. *)
Theorem filter_rows_make_nodes (coverage_threshold : float) (fresh : nat)
    (reports : list (string * list Row))
    (rows : list (string * list (option string))) (trees : list TreeNode.t) :
  per_sample coverage_threshold fresh reports = Ok (rows, trees) ->
  (forall row,
      contributes coverage_threshold row
      <-> (PrimFloat.leb coverage_threshold (perc_frags_covered row) = true
           /\ rank row <> "U" /\ rank row <> "R"
           /\ ~ (1 < len (rank row) /\ startswith "S" (rank row) = false)))
  /\ List.length trees = List.length reports
  /\ (forall j sample_id df,
       reports !! j = Some (sample_id, df) ->
       kept_rows (coverage_filter coverage_threshold df)
       = filter (contributes coverage_threshold) df
       /\ filter (contributes coverage_threshold) df `sublist_of` df
       /\ exists tree,
            trees !! j = Some tree
            /\ _kraken_to_ncbi_tree (TreeNode.oid tree)
                 (coverage_filter coverage_threshold df) = Ok tree
            /\ (forall i row,
                  filter (contributes coverage_threshold) df !! i = Some row ->
                  node_of_row (S (TreeNode.oid tree) + 2 * i) row tree)
            /\ (forall x,
                  x ∈ TreeFacts.oids tree
                  <-> (TreeNode.oid tree <= x
                       < S (TreeNode.oid tree)
                         + 2 * List.length
                                 (filter (contributes coverage_threshold) df))%nat)
            /\ NoDup (TreeFacts.oids tree))
  /\ (fresh = 0%nat ->
      forall table taxonomy full_tree,
        select_kraken_features reports coverage_threshold
        = Ok (table, taxonomy, full_tree) ->
        table = rows /\ _combine_ncbi_trees trees = Ok full_tree).
Proof.
  intros H. split.
  { intros row. unfold contributes, row_kept. rewrite rank_skipped_false. tauto. }
  pose proof (per_sample_trees _ _ _ _ _ H) as Htrees.
  split; [symmetry; by eapply Forall2_length|]. split.
  - intros j sample_id df Hj.
    assert (kept_rows (coverage_filter coverage_threshold df)
            = filter (contributes coverage_threshold) df) as Hkept.
    { unfold kept_rows, coverage_filter. by rewrite list_filter_filter. }
    split; [done|]. split; [apply sublist_filter|].
    destruct (Forall2_lookup_l _ _ _ _ _ Htrees Hj) as (tree & Htree & Hret).
    cbn [snd] in Hret. exists tree. split; [done|]. split; [done|].
    rewrite <- Hkept. by apply kraken_to_ncbi_tree_nodes.
  - intros -> table taxonomy full_tree Hsel.
    unfold select_kraken_features in Hsel. rewrite H, bind_Ok in Hsel.
    inv_bind Hsel. rename a into merged. inv_bind Hsel.
    apply DataFrame_Ok in Ha0 as [-> _]. inv_bind Hsel.
    by injection Hsel as <- _ <-.
Qed.

Lemma filter_rows_make_nodes_witness :
  (forall row,
      contributes 0.125%float row
      <-> (PrimFloat.leb 0.125%float (perc_frags_covered row) = true
           /\ rank row <> "U" /\ rank row <> "R"
           /\ ~ (1 < len (rank row) /\ startswith "S" (rank row) = false)))
  /\ List.length trees_low_coverage = List.length reports_low_coverage
  /\ (forall j sample_id df,
       reports_low_coverage !! j = Some (sample_id, df) ->
       kept_rows (coverage_filter 0.125%float df)
       = filter (contributes 0.125%float) df
       /\ filter (contributes 0.125%float) df `sublist_of` df
       /\ exists tree,
            trees_low_coverage !! j = Some tree
            /\ _kraken_to_ncbi_tree (TreeNode.oid tree)
                 (coverage_filter 0.125%float df) = Ok tree
            /\ (forall i row,
                  filter (contributes 0.125%float) df !! i = Some row ->
                  node_of_row (S (TreeNode.oid tree) + 2 * i) row tree)
            /\ (forall x,
                  x ∈ TreeFacts.oids tree
                  <-> (TreeNode.oid tree <= x
                       < S (TreeNode.oid tree)
                         + 2 * List.length (filter (contributes 0.125%float) df))%nat)
            /\ NoDup (TreeFacts.oids tree))
  /\ (0%nat = 0%nat ->
      forall table taxonomy full_tree,
        select_kraken_features reports_low_coverage 0.125%float
        = Ok (table, taxonomy, full_tree) ->
        table = [("gut", [Some "83333"])]
        /\ _combine_ncbi_trees trees_low_coverage = Ok full_tree).
Proof.
  apply (filter_rows_make_nodes 0.125%float 0 reports_low_coverage
           [("gut", [Some "83333"])] trees_low_coverage).
  by vm_compute.
Defined.

(** ** [_kraken_to_ncbi_tree]: rows in any order of indentation *)

(** Where line 80 appends the rank node of a row: below the node that the
    pops of lines 71 and 72 leave on top of the stack. *)
Lemma kraken_to_ncbi_tree_attached (fresh : nat) (df : list Row)
    (ncbi_tree : TreeNode.t) (i : nat) (row : Row) :
  _kraken_to_ncbi_tree fresh df = Ok ncbi_tree ->
  kept_rows df !! i = Some row ->
  exists p m c,
    TreeNode.get p ncbi_tree = Some m
    /\ c ∈ TreeNode.children m
    /\ TreeNode.oid c = (S fresh + 2 * i)%nat
    /\ TreeNode.name c = Some (rank_name row)
    /\ ((p = fresh /\ TreeNode.name m = None
         /\ forall k r, (k < i)%nat -> kept_rows df !! k = Some r ->
                        row_indent row <= row_indent r)
        \/ exists j r,
             (j < i)%nat /\ kept_rows df !! j = Some r
             /\ p = (S fresh + 2 * j)%nat
             /\ TreeNode.name m = Some (rank_name r)
             /\ row_indent r < row_indent row
             /\ forall k r', (j < k < i)%nat -> kept_rows df !! k = Some r' ->
                             row_indent row <= row_indent r').
Proof.
  intros H Hi.
  destruct (ParentFacts.kraken_to_ncbi_tree_parents _ _ _ _ _ H Hi)
    as (m & c & Hget & Hc & Hoid).
  destruct (kraken_to_ncbi_tree_nodes _ _ _ H) as (Hnodes & Hoids & Hnd).
  destruct (TaxonomyFacts.kraken_to_ncbi_tree_root _ _ _ H) as [Hroot Hname].
  exists (ParentFacts.parent_oid fresh
            (ParentFacts.open_rows (take i (kept_rows df))) (row_indent row)), m, c.
  split; [done|]. split; [done|]. split; [done|]. split.
  { destruct (Hnodes _ _ Hi) as (mi & _ & _ & Hmi & Hmname & _).
    assert (c ∈ TreeNode.postorder ncbi_tree) as Hcin.
    { eapply MergeFacts.postorder_trans;
        [by apply MergeFacts.postorder_child
        | by eapply CombineFacts.get_elem_of_postorder]. }
    apply (MergeFacts.get_postorder _ _ Hnd) in Hcin.
    rewrite Hoid, Hmi in Hcin. by injection Hcin as <-. }
  pose proof (ParentFacts.drop_deeper_nearest (take i (kept_rows df))
                (row_indent row)) as Hnear.
  unfold ParentFacts.parent_oid in Hget |- *.
  assert (i <= List.length (kept_rows df))%nat as Hile
    by (apply lookup_lt_Some in Hi; lia).
  destruct (ParentFacts.drop_deeper (row_indent row)
              (ParentFacts.open_rows (take i (kept_rows df)))) as [|[j r] rest].
  - left. split; [done|]. split.
    + rewrite TreeFacts.get_unfold, decide_True in Hget by done.
      by injection Hget as <-.
    + intros k r Hk Hr. apply (Hnear k). by rewrite lookup_take_lt.
  - right. destruct Hnear as (Hj & Hlt & Hgap).
    apply lookup_take_Some in Hj as [Hj Hji].
    exists j, r. split; [done|]. split; [done|]. split; [done|]. split.
    + destruct (Hnodes _ _ Hj) as (mj & _ & _ & Hmj & Hmname & _).
      rewrite Hget in Hmj. by injection Hmj as <-.
    + split; [done|]. intros k r' [Hjk Hki] Hr'. apply (Hgap k); [done|].
      by rewrite lookup_take_lt.
Qed.

(** Three rows, each less indented than the row before it. *)
Definition report_out_of_order : list Row :=
  [mkRow "D" "      Bacteria" 2 0.5%float;
   mkRow "G" "    Escherichia" 561 0.5%float;
   mkRow "S" "  Escherichia coli" 562 0.5%float].

(** C1, amended.  When every row that is not skipped is indented by at
    least one level, in whatever order the indentations come,
    [_kraken_to_ncbi_tree] returns a tree with an unnamed root: it raises
    nothing.  A row that is not deeper than the top of the stack pops
    the entries that are as deep as it or deeper, and its rank node is
    attached under what is left on top: the rank node of the nearest row
    before it that is less indented, all rows in between being indented
    as much or more, and the root when no row before it is less
    indented. *)
Theorem kraken_to_ncbi_tree_returns (fresh : nat) (df : list Row) :
  Forall (fun row => row_kept row -> 1 <= row_indent row) df ->
  exists tree,
    _kraken_to_ncbi_tree fresh df = Ok tree
    /\ TreeNode.oid tree = fresh /\ TreeNode.name tree = None
    /\ forall i row,
         kept_rows df !! i = Some row ->
         exists p m c,
           TreeNode.get p tree = Some m
           /\ c ∈ TreeNode.children m
           /\ TreeNode.oid c = (S fresh + 2 * i)%nat
           /\ TreeNode.name c = Some (rank_name row)
           /\ ((p = fresh /\ TreeNode.name m = None
                /\ forall k r, (k < i)%nat -> kept_rows df !! k = Some r ->
                               row_indent row <= row_indent r)
               \/ exists j r,
                    (j < i)%nat /\ kept_rows df !! j = Some r
                    /\ p = (S fresh + 2 * j)%nat
                    /\ TreeNode.name m = Some (rank_name r)
                    /\ row_indent r < row_indent row
                    /\ forall k r', (j < k < i)%nat ->
                                    kept_rows df !! k = Some r' ->
                                    row_indent row <= row_indent r').
Proof.
  intros Hall.
  assert (exists tree, _kraken_to_ncbi_tree fresh df = Ok tree) as [tree Hret].
  { unfold _kraken_to_ncbi_tree.
    destruct (builder_loop_returns fresh df (builder_init fresh)
                (Inv_init fresh) Hall) as (st & -> & Hinv).
    rewrite bind_Ok. by apply (mark_last_returns fresh). }
  exists tree. split; [done|].
  destruct (TaxonomyFacts.kraken_to_ncbi_tree_root _ _ _ Hret) as [Hoid Hname].
  split; [done|]. split; [done|].
  intros i row Hi. by apply kraken_to_ncbi_tree_attached.
Qed.

Lemma kraken_to_ncbi_tree_returns_witness :
  exists tree,
    _kraken_to_ncbi_tree 0 report_out_of_order = Ok tree
    /\ TreeNode.oid tree = 0%nat /\ TreeNode.name tree = None
    /\ forall i row,
         kept_rows report_out_of_order !! i = Some row ->
         exists p m c,
           TreeNode.get p tree = Some m
           /\ c ∈ TreeNode.children m
           /\ TreeNode.oid c = (S 0 + 2 * i)%nat
           /\ TreeNode.name c = Some (rank_name row)
           /\ ((p = 0%nat /\ TreeNode.name m = None
                /\ forall k r, (k < i)%nat ->
                               kept_rows report_out_of_order !! k = Some r ->
                               row_indent row <= row_indent r)
               \/ exists j r,
                    (j < i)%nat /\ kept_rows report_out_of_order !! j = Some r
                    /\ p = (S 0 + 2 * j)%nat
                    /\ TreeNode.name m = Some (rank_name r)
                    /\ row_indent r < row_indent row
                    /\ forall k r', (j < k < i)%nat ->
                                    kept_rows report_out_of_order !! k = Some r' ->
                                    row_indent row <= row_indent r').
Proof.
  apply (kraken_to_ncbi_tree_returns 0 report_out_of_order).
  repeat (apply Forall_cons; split; [intros _; by vm_compute|]).
  constructor.
Defined.

(** ** [_get_indentation] and the coverage filter *)

(** A run of [n] spaces. *)
Fixpoint spaces (n : nat) : string :=
  match n with
  | O => EmptyString
  | S n' => String " " (spaces n')
  end.

Lemma lstrip_space_other s :
  (forall s', s <> String " " s') -> lstrip_space s = s.
Proof.
  intros Hs. destruct s as [|c s]; [done|].
  destruct (Ascii.eqb_spec c " ") as [->|Hc]; [by destruct (Hs s)|].
  by destruct c as [[] [] [] [] [] [] [] []].
Qed.

Lemma lstrip_space_spaces n s : lstrip_space (spaces n +:+ s) = lstrip_space s.
Proof. induction n as [|n IH]; [done|]. by rewrite <- IH. Qed.

Lemma len_spaces n s : len (spaces n +:+ s) = Z.of_nat n + len s.
Proof.
  unfold len. induction n as [|n IH]; [done|].
  cbn [spaces]. rewrite append_String. cbn [String.length].
  rewrite !Nat2Z.inj_succ, IH. lia.
Qed.

(** X20. The indentation of a label is the number of its leading spaces
    divided by the width of a level, rounded down; other white space
    does not count.  The width is not zero: Python's floor division
    raises for a zero divisor. *)
Theorem get_indentation_leading_spaces (n : nat) (s : string) (indent : Z) :
  indent <> 0 ->
  (forall s', s <> String " " s') ->
  _get_indentation (spaces n +:+ s) indent = Z.of_nat n / indent.
Proof.
  intros _ Hs. unfold _get_indentation.
  rewrite lstrip_space_spaces, lstrip_space_other, len_spaces by done.
  f_equal. lia.
Qed.

Lemma get_indentation_leading_spaces_witness :
  _get_indentation (spaces 5 +:+ "Escherichia coli") 2 = Z.of_nat 5 / 2.
Proof.
  apply (get_indentation_leading_spaces 5 "Escherichia coli" 2); [done|].
  by intros s'.
Defined.

Lemma leb_nan_r (x : float) : PrimFloat.leb x nan = false.
Proof.
  rewrite leb_spec. change (Prim2SF nan) with S754_nan.
  unfold SFleb, SFcompare. by destruct (Prim2SF x).
Qed.

Lemma leb_nan_l (x : float) : PrimFloat.leb nan x = false.
Proof. rewrite leb_spec. by change (Prim2SF nan) with S754_nan. Qed.

(** X21. The coverage filter compares as IEEE 754 does: a row whose coverage
    is not a number is dropped whatever the threshold, and a threshold
    that is not a number drops every row. *)
Theorem coverage_filter_nan (coverage_threshold : float) (df : list Row) :
  Forall (fun row => perc_frags_covered row <> nan)
    (coverage_filter coverage_threshold df)
  /\ coverage_filter nan df = [].
Proof.
  unfold coverage_filter. split.
  - apply Forall_forall. intros row Hrow Hnan.
    apply list_elem_of_filter in Hrow as [Hle _].
    by rewrite Hnan, leb_nan_r in Hle.
  - induction df as [|row df IH]; [done|].
    rewrite filter_cons, decide_False; [done|]. by rewrite leb_nan_l.
Qed.

(** ** [select_kraken_features]: one report *)

Lemma leaf_rows_elem_of rows row : row ∈ leaf_rows rows -> row ∈ rows.
Proof.
  induction rows as [|r rows IH]; [done|]. cbn [leaf_rows].
  destruct (match rows with [] => true | r' :: _ => _ end).
  - intros H. apply elem_of_cons in H as [->|H]; [by apply elem_of_cons; left|].
    apply elem_of_cons. right. by apply IH.
  - intros H. apply elem_of_cons. right. by apply IH.
Qed.

(** X22. With one report [select_kraken_features] returns the tree of the
    report as [_kraken_to_ncbi_tree] built it; when a row passes both
    filters, the taxonomy has one entry for each such row, in the order
    of the rows, and every feature of the table has its entry. *)
Theorem select_kraken_features_one_report_returns (sample_id : string)
    (df : list Row) (coverage_threshold : float)
    (rows : list (string * list (option string)))
    (taxonomy : list (option string * string)) (full_tree : TreeNode.t) :
  select_kraken_features [(sample_id, df)] coverage_threshold
  = Ok (rows, taxonomy, full_tree) ->
  _kraken_to_ncbi_tree 0 (coverage_filter coverage_threshold df) = Ok full_tree
  /\ (kept_rows (coverage_filter coverage_threshold df) <> [] ->
      taxonomy.*1 = feature_id <$> kept_rows (coverage_filter coverage_threshold df))
  /\ (forall sample features feature,
        (sample, features) ∈ rows -> feature ∈ features ->
        feature ∈ taxonomy.*1).
Proof.
  unfold select_kraken_features. cbn [per_sample]. intros H.
  inv_bind H. destruct a as [rows' trees]. inv_bind Ha. rename a into ncbi_tree.
  inv_bind Ha. rename a into tips. injection Ha as <- <-.
  cbn [_combine_ncbi_trees merge_trees] in H. rewrite bind_Ok in H.
  inv_bind H. rename a into table. apply DataFrame_Ok in Ha as [-> _].
  inv_bind H. injection H as <- <- <-. rename a into taxonomy.
  pose proof (TipFacts.kraken_to_ncbi_tree_views _ _ _ Ha0) as Hviews.
  pose proof (actual_tips_views _ _ _ Hviews) as Htips.
  unfold _ncbi_tree_to_tips in Ha1. rewrite Htips in Ha1. injection Ha1 as <-.
  unfold _to_taxonomy, TreeNode.to_taxonomy in Ha.
  apply TaxonomyFacts.taxonomy_rows_names in Ha.
  rewrite TaxonomyFacts.to_taxonomy_from_tips in Ha.
  assert (kept_rows (coverage_filter coverage_threshold df) <> [] ->
          taxonomy.*1
          = feature_id <$> kept_rows (coverage_filter coverage_threshold df))
    as Htax.
  { intros Hne. rewrite Ha, TipFacts.tips_with_self_tips.
    - rewrite <- (TipFacts.views_names true _ 1), <- Hviews.
      by rewrite <- list_fmap_compose.
    - unfold TreeNode.is_tip. destruct (TreeNode.children ncbi_tree) eqn:Hcs; [|done].
      unfold TreeNode.tips in Hviews. rewrite Hcs in Hviews.
      by destruct (kept_rows (coverage_filter coverage_threshold df)). }
  split; [done|]. split; [done|].
  intros sample features feature Hin Hf.
  destruct (leaf_rows (kept_rows (coverage_filter coverage_threshold df)))
    as [|r rs] eqn:Hleaf; [by apply elem_of_nil in Hin|].
  apply list_elem_of_singleton in Hin. injection Hin as -> ->.
  change (feature ∈ feature_id <$> (r :: rs)) in Hf.
  rewrite <- Hleaf in Hf. apply list_elem_of_fmap in Hf as (row & -> & Hrow).
  apply leaf_rows_elem_of in Hrow. rewrite Htax.
  - apply list_elem_of_fmap. eauto.
  - intros Hnil. rewrite Hnil in Hrow. by apply elem_of_nil in Hrow.
Qed.

Lemma select_kraken_features_one_report_returns_witness :
  _kraken_to_ncbi_tree 0 (coverage_filter 0.125%float sample_two_genera)
  = Ok tree_two_genera
  /\ (kept_rows (coverage_filter 0.125%float sample_two_genera) <> [] ->
      [(Some "2", "d__Bacteria");
       (Some "561", "d__Bacteria;k__Bacteria;p__containing g__Escherichia;c__containing g__Escherichia;o__containing g__Escherichia;f__containing g__Escherichia;g__Escherichia");
       (Some "562", "d__Bacteria;k__Bacteria;p__containing g__Escherichia;c__containing g__Escherichia;o__containing g__Escherichia;f__containing g__Escherichia;g__Escherichia;s__Escherichia coli");
       (Some "590", "d__Bacteria;k__Bacteria;p__containing g__Salmonella;c__containing g__Salmonella;o__containing g__Salmonella;f__containing g__Salmonella;g__Salmonella")].*1
      = feature_id <$> kept_rows (coverage_filter 0.125%float sample_two_genera))
  /\ (forall sample features feature,
        (sample, features) ∈ [("gut", [Some "562"; Some "590"])] ->
        feature ∈ features ->
        feature ∈
          [(Some "2", "d__Bacteria");
           (Some "561", "d__Bacteria;k__Bacteria;p__containing g__Escherichia;c__containing g__Escherichia;o__containing g__Escherichia;f__containing g__Escherichia;g__Escherichia");
           (Some "562", "d__Bacteria;k__Bacteria;p__containing g__Escherichia;c__containing g__Escherichia;o__containing g__Escherichia;f__containing g__Escherichia;g__Escherichia;s__Escherichia coli");
           (Some "590", "d__Bacteria;k__Bacteria;p__containing g__Salmonella;c__containing g__Salmonella;o__containing g__Salmonella;f__containing g__Salmonella;g__Salmonella")].*1).
Proof.
  apply (select_kraken_features_one_report_returns "gut" sample_two_genera
           0.125%float).
  by vm_compute.
Defined.

(** ** [_to_taxonomy] of the tree of a report: the lineage of a row *)

Module LineageFacts.
Import TreeNode TreeFacts FindFacts MergeFacts.
Import ParentFacts.

(** What the name of an object with children adds to the lineage. *)
Definition rank_of_name (s : option string) : list string :=
  match s with
  | Some s => if String.eqb s "" then [] else [s]
  | None => []
  end.

Definition lineage_of (l : list (nat * option string)) : list string :=
  concat (map (fun e => rank_of_name e.2) l).

(** The objects from the root down a chain of last children, each with
    its name. *)
Inductive spine : t -> list (nat * option string) -> Prop :=
| spine_here n : spine n [(oid n, name n)]
| spine_down n cs c l :
    children n = cs ++ [c] -> spine c l -> spine n ((oid n, name n) :: l).

Lemma to_taxonomy_from_cons lineage j s l b c cs :
  to_taxonomy_from lineage (Node j s l b (c :: cs))
  = concat (map (to_taxonomy_from (lineage ++ rank_of_name s)) (c :: cs)).
Proof.
  rewrite TaxonomyFacts.to_taxonomy_from_unfold. cbn [children name].
  f_equal. f_equal. f_equal. unfold rank_of_name.
  destruct s as [s|]; [|by rewrite app_nil_r].
  destruct (String.eqb s ""); by rewrite ?app_nil_r.
Qed.

Lemma to_taxonomy_from_set_flag y n : forall lineage,
  to_taxonomy_from lineage (update y (set_is_actual_tip true) n)
  = (fun e => (update y (set_is_actual_tip true) e.1, e.2))
      <$> to_taxonomy_from lineage n.
Proof.
  induction n as [j s l b cs IH] using t_ind'. intros lineage.
  destruct cs as [|c cs].
  { assert (to_taxonomy_from lineage (Node j s l b []) = [(Node j s l b [], lineage)])
      as -> by done.
    cbn [fmap list_fmap fst snd]. rewrite update_unfold. cbn [map].
    by destruct (decide (j = y)). }
  assert (update y (set_is_actual_tip true) (Node j s l b (c :: cs))
          = Node j s l (if decide (j = y) then Some true else b)
              (map (update y (set_is_actual_tip true)) (c :: cs))) as ->.
  { rewrite update_unfold. by destruct (decide (j = y)). }
  cbn [map]. rewrite !to_taxonomy_from_cons.
  generalize (lineage ++ rank_of_name s). intros lineage'.
  change (update y (set_is_actual_tip true) c
            :: map (update y (set_is_actual_tip true)) cs)
    with (map (update y (set_is_actual_tip true)) (c :: cs)).
  revert IH. generalize (c :: cs). intros chs IH.
  induction IH as [|ch chs Hch _ IHchs]; [done|].
  cbn [map concat]. by rewrite fmap_app, Hch, IHchs.
Qed.

Lemma spine_set_flag y n l :
  spine n l -> spine (update y (set_is_actual_tip true) n) l.
Proof.
  pose proof (set_is_actual_tip_extends true) as Hf.
  induction 1 as [n|n cs c l Hcs _ IH].
  - rewrite <- (oid_update y _ _ Hf n), <- (name_update y _ _ Hf n). constructor.
  - rewrite <- (oid_update y _ _ Hf n), <- (name_update y _ _ Hf n).
    apply (spine_down _ (map (update y (set_is_actual_tip true)) cs)
             (update y (set_is_actual_tip true) c)); [|done].
    by rewrite TipFacts.children_set_flag, Hcs, map_app.
Qed.

Lemma spine_prefix n l1 l2 : spine n (l1 ++ l2) -> l1 <> [] -> spine n l1.
Proof.
  revert n. induction l1 as [|e l1 IH]; intros n H Hne; [done|].
  inversion H as [n' Hn|n' cs c l' Hcs Hc Hn]; subst.
  - destruct l1; [constructor | done].
  - destruct l1 as [|e' l1]; [constructor|].
    apply (spine_down _ cs c); [done|]. by apply IH.
Qed.

Lemma spine_oids n l : spine n l -> Forall (fun e => e.1 ∈ oids n) l.
Proof.
  induction 1 as [n|n cs c l Hcs _ IH].
  - constructor; [|constructor]. apply elem_of_oids. by left.
  - constructor; [apply elem_of_oids; by left|].
    eapply Forall_impl; [exact IH|]. intros e He. cbn beta in He.
    apply elem_of_oids. right. apply elem_of_oids_in. exists c.
    split; [|done]. rewrite Hcs. apply elem_of_app. right.
    by apply list_elem_of_singleton.
Qed.

Lemma spine_not_tip n e e' l : spine n (e :: e' :: l) -> is_tip n = false.
Proof.
  intros H. inversion H as [|n' cs c l' Hcs Hc Hn]; subst.
  unfold is_tip. rewrite Hcs. by destruct cs.
Qed.

Lemma lineage_of_app l1 l2 : lineage_of (l1 ++ l2) = lineage_of l1 ++ lineage_of l2.
Proof. unfold lineage_of. by rewrite map_app, concat_app. Qed.

(** [parent.append(x)] for the last object of the spine: the tips of [x]
    come last, with the names along the spine as their lineage. *)
Lemma spine_append x l : forall n p s,
  spine n (l ++ [(p, s)]) -> NoDup (oids n) ->
  (forall m, get p n = Some m -> is_tip m = false) ->
  spine (update p (add_child x) n) ((l ++ [(p, s)]) ++ [(oid x, name x)])
  /\ forall lineage,
       to_taxonomy_from lineage (update p (add_child x) n)
       = to_taxonomy_from lineage n
         ++ to_taxonomy_from (lineage ++ lineage_of (l ++ [(p, s)])) x.
Proof.
  induction l as [|e l IH]; intros n p s H Hnd Htip.
  - cbn [app] in *. inversion H as [n' Hn|n' cs c l' Hcs Hc Hn]; subst.
    2:{ inversion Hc. }
    assert (is_tip n = false) as Hn.
    { apply Htip. rewrite get_unfold. by rewrite decide_True. }
    destruct n as [j s0 l0 b cs]. cbn [oid name] in *.
    apply TipFacts.NoDup_oids_children in Hnd as [Hj _]. cbn [oid children] in Hj.
    rewrite update_unfold, decide_True by done.
    rewrite TipFacts.map_update_notin by done. cbn [add_child].
    split.
    + apply (spine_down (Node j s0 l0 b (cs ++ [x])) cs x); [done | constructor].
    + intros lineage. destruct cs as [|c cs]; [done|].
      change ((c :: cs) ++ [x]) with (c :: (cs ++ [x])).
      rewrite !to_taxonomy_from_cons.
      change (c :: (cs ++ [x])) with ((c :: cs) ++ [x]).
      rewrite map_app, concat_app. cbn [map concat]. rewrite app_nil_r.
      unfold lineage_of. cbn [map concat snd]. by rewrite app_nil_r.
  - cbn [app] in *. inversion H as [n' Hn|n' cs c l' Hcs Hc Hn]; subst.
    { by destruct l. }
    destruct n as [j s0 l0 b cs0]. cbn [oid name children] in *. subst cs0.
    pose proof (TipFacts.NoDup_oids_children _ Hnd) as [Hj Hcsnd].
    cbn [oid children] in Hj, Hcsnd.
    rewrite oids_in_app in Hj, Hcsnd.
    apply not_elem_of_app in Hj as [Hjcs Hjc].
    apply NoDup_app in Hcsnd as (_ & Hdisj & Hcnd).
    assert (oids_in [c] = oids c) as Hc1.
    { rewrite oids_in_cons. unfold oids_in. cbn. by rewrite app_nil_r. }
    rewrite Hc1 in Hjc, Hdisj, Hcnd.
    assert (p ∈ oids c) as Hpc.
    { apply spine_oids in Hc. rewrite Forall_app in Hc.
      destruct Hc as [_ Hp]. by inversion Hp. }
    assert (j <> p) as Hjp by (by intros ->).
    assert (p ∉ oids_in cs) as Hpcs by (intros Hin; by apply (Hdisj p)).
    rewrite update_unfold, decide_False by done.
    rewrite map_app, TipFacts.map_update_notin by done. cbn [map].
    destruct (IH c p s Hc Hcnd) as (IHc & IHt).
    { intros m Hm. apply Htip.
      rewrite get_unfold. cbn [oid children].
      rewrite decide_False by done. rewrite get_in_app.
      apply get_in_None in Hpcs. rewrite Hpcs. cbn [get_in]. by rewrite Hm. }
    split.
    + apply (spine_down (Node j s0 l0 b (cs ++ [update p (add_child x) c])) cs
               (update p (add_child x) c)); [done | exact IHc].
    + intros lineage.
      assert (forall c', to_taxonomy_from lineage (Node j s0 l0 b (cs ++ [c']))
                = concat (map (to_taxonomy_from (lineage ++ rank_of_name s0)) cs)
                  ++ to_taxonomy_from (lineage ++ rank_of_name s0) c') as Hsnoc.
      { intros c'. destruct cs as [|c0 cs].
        - change ([] ++ [c']) with [c'].
          rewrite (to_taxonomy_from_cons lineage j s0 l0 b c' []).
          cbn [map concat]. by rewrite app_nil_r.
        - change ((c0 :: cs) ++ [c']) with (c0 :: (cs ++ [c'])).
          rewrite to_taxonomy_from_cons.
          change (c0 :: (cs ++ [c'])) with ((c0 :: cs) ++ [c']).
          rewrite map_app, concat_app. cbn [map concat]. by rewrite app_nil_r. }
      assert (lineage ++ lineage_of ((j, s0) :: l ++ [(p, s)])
              = (lineage ++ rank_of_name s0) ++ lineage_of (l ++ [(p, s)])) as ->.
      { unfold lineage_of. cbn [map concat snd]. by rewrite app_assoc. }
      by rewrite !Hsnoc, IHt, <- !app_assoc.
Qed.

(** *** The lineages, row by row *)

(** The spine label of a stack entry. *)
Definition node_label (fresh : nat) (e : nat * Row) : nat * option string :=
  ((S fresh + 2 * e.1)%nat, Some (rank_name e.2)).

(** The rank names of the rows on the stack right after the row [i] was
    pushed, the bottom of the stack first: the rank path of the row. *)
Definition lineage_at (rows : list Row) (i : nat) : list string :=
  rank_name <$> (reverse (open_rows (take (S i) rows))).*2.

Definition expected (rows : list Row) : list (option string * list string) :=
  imap (fun i row => (feature_id row, lineage_at rows i)) rows.

Lemma rank_name_nonempty row : String.eqb (rank_name row) "" = false.
Proof.
  unfold rank_name. destruct (lower (rank row)) as [|c r]; [done|].
  by rewrite append_String.
Qed.

Lemma lineage_of_labels fresh l :
  lineage_of (node_label fresh <$> l) = rank_name <$> l.*2.
Proof.
  unfold lineage_of. induction l as [|e l IH]; [done|].
  cbn [fmap list_fmap map concat node_label snd rank_of_name].
  rewrite rank_name_nonempty. cbn [app]. f_equal. exact IH.
Qed.

Lemma drop_deeper_suffix indent open : drop_deeper indent open `suffix_of` open.
Proof.
  induction open as [|[j r] open IH]; [done|]. cbn [drop_deeper].
  destruct (indent <=? row_indent r); [by apply suffix_cons_r | done].
Qed.

Lemma expected_snoc rows row :
  expected (rows ++ [row])
  = expected rows
    ++ [(feature_id row, lineage_at (rows ++ [row]) (List.length rows))].
Proof.
  unfold expected. rewrite imap_app. cbn [imap]. rewrite Nat.add_0_r. f_equal.
  apply imap_ext. intros i x Hi. f_equal. unfold lineage_at.
  apply lookup_lt_Some in Hi. by rewrite take_app_le by lia.
Qed.

Lemma to_taxonomy_new_node lineage i row :
  (fun e => (name e.1, e.2)) <$> to_taxonomy_from lineage (new_node i row)
  = [(feature_id row, lineage ++ [rank_name row])].
Proof.
  unfold new_node. rewrite to_taxonomy_from_cons.
  fold (rank_name row). cbn [rank_of_name]. by rewrite rank_name_nonempty.
Qed.

(** The first row that passes the guard finds the root without a child:
    nothing is marked. *)
Lemma first_row_tree fresh (b : bool) pn tree1 :
  (if b then mark_first_child pn (Node fresh None None None []) = Ok tree1
   else tree1 = Node fresh None None None []) ->
  tree1 = Node fresh None None None [].
Proof.
  destruct b; [|done]. unfold mark_first_child, children_of.
  rewrite get_unfold. cbn [oid children get_in].
  by destruct (decide (fresh = pn)).
Qed.

(** *** The invariant of the loop on the lineages *)

Record LinInv (fresh : nat) (rows : list Row) (st : Builder) : Prop := mkLinInv {
  li_par : ParInv fresh rows st;
  li_init : rows = [] -> st = builder_init fresh;
  li_spine : spine (tree st)
               ((fresh, None) :: (node_label fresh <$> reverse (open_rows rows)));
  li_rows : rows <> [] ->
            (fun e => (name e.1, e.2)) <$> to_taxonomy (tree st) = expected rows
}.

Lemma LinInv_init fresh : LinInv fresh [] (builder_init fresh).
Proof.
  split; [apply ParInv_init | done | | done].
  apply (spine_here (Node fresh None None None [])).
Qed.

Lemma attach_row_LinInv fresh rows st row st' :
  LinInv fresh rows st -> attach_row st row = Ok st' ->
  LinInv fresh (rows ++ [row]) st'.
Proof.
  intros [HP Hinit Hspine Hexp] H.
  pose proof (attach_row_ParInv _ _ _ _ _ HP H) as HP'.
  destruct HP as [Hinv Hnext Hstack Hpar].
  apply attach_row_Ok in H
    as (pi & pn & below & tree1 & pi' & pn' & below' & Hst & Hmark & Hunw & ->).
  assert (tree1 = tree st
          \/ exists y, tree1 = update y (set_is_actual_tip true) (tree st))
    as Htree1.
  { destruct (row_indent row <=? pi); [|by left].
    apply mark_first_child_Ok in Hmark as (c & cs & _ & ->). eauto. }
  assert (spine tree1
            ((fresh, None) :: (node_label fresh <$> reverse (open_rows rows))))
    as Hspine1.
  { destruct Htree1 as [->|[y ->]]; [done | by apply spine_set_flag]. }
  assert ((fun e => (name e.1, e.2)) <$> to_taxonomy tree1
          = (fun e => (name e.1, e.2)) <$> to_taxonomy (tree st)) as Htax1.
  { destruct Htree1 as [->|[y ->]]; [done|]. unfold to_taxonomy.
    rewrite to_taxonomy_from_set_flag, <- list_fmap_compose.
    apply list_fmap_ext. intros _ e _. cbn.
    by rewrite (name_update _ _ _ (set_is_actual_tip_extends true)). }
  destruct Hinv as [Hoids Hnd Hroot (rest & Hrest & Hok)].
  assert (NoDup (oids tree1)) as Hnd1.
  { destruct Htree1 as [->|[y ->]]; [done | by apply NoDup_oids_set_flag]. }
  assert (stack_ok fresh tree1 rest) as Hok1.
  { destruct Htree1 as [->|[y ->]]; [done|].
    eapply (stack_ok_update _ _ (next_oid st));
      [apply set_is_actual_tip_extends| |done|done].
    intros x Hx. by apply elem_of_nil in Hx. }
  rewrite Hstack in Hunw. apply unwind_entries in Hunw as Hstack'.
  set (D := drop_deeper (row_indent row) (open_rows rows)) in *.
  destruct (drop_deeper_suffix (row_indent row) (open_rows rows)) as [K HK].
  fold D in HK.
  assert (spine tree1 ((fresh, None) :: (node_label fresh <$> reverse D)))
    as Hspine2.
  { rewrite HK, reverse_app, fmap_app in Hspine1.
    by apply (spine_prefix _ ((fresh, None) :: (node_label fresh <$> reverse D)))
      in Hspine1. }
  assert (oid tree1 = fresh) as Hroot1.
  { inversion Hspine2; congruence. }
  (* the last object of the spine is the parent *)
  assert (exists l s,
            (fresh, None) :: (node_label fresh <$> reverse D) = l ++ [(pn', s)]
            /\ forall m, rows <> [] -> get pn' tree1 = Some m -> is_tip m = false)
    as (l & s & Hlast & Htip).
  { destruct D as [|[j rj] D'] eqn:HD.
    - cbn [map app] in Hstack'. injection Hstack' as _ -> _.
      exists [], None. split; [done|]. intros m Hne Hm.
      rewrite get_unfold, decide_True in Hm by done. injection Hm as <-.
      assert (open_rows rows <> []) as Hopen.
      { destruct rows as [|r0 rows0] using rev_ind; [done|].
        by rewrite open_rows_snoc. }
      destruct (reverse (open_rows rows)) as [|e es] eqn:Hrev.
      { apply (f_equal reverse) in Hrev. by rewrite reverse_involutive in Hrev. }
      by apply spine_not_tip in Hspine1.
    - cbn [map app entry fst snd] in Hstack'. injection Hstack' as _ -> Hbelow.
      exists ((fresh, None) :: (node_label fresh <$> reverse D')),
        (Some (rank_name rj)).
      split; [by rewrite reverse_cons, fmap_app|].
      intros m _ Hm.
      assert (exists rest', rest = rest' ++ (row_indent rj, S fresh + 2 * j)%nat
                                      :: map (entry fresh) D') as [rest' Hrest'].
      { exists (map (entry fresh) K).
        apply (app_inv_tail [(0, fresh)]).
        by rewrite <- Hrest, Hstack, HK, map_app, <- !app_assoc. }
      rewrite Hrest' in Hok1. apply Forall_app in Hok1 as [_ Hok1].
      apply Forall_cons in Hok1 as [[_ (m' & c & cs & Hget & Hcs & _)] _].
      cbn [snd] in Hget. pose proof (eq_trans (eq_sym Hm) Hget) as Heq.
      injection Heq as ->. unfold is_tip. by rewrite Hcs. }
  assert (node_label fresh (List.length rows, row)
          = (oid (new_node (next_oid st) row), name (new_node (next_oid st) row)))
    as Hlabel.
  { unfold node_label, new_node, rank_name. cbn [oid name fst snd].
    by rewrite Hnext. }
  split; cbn [tree stack next_oid].
  - done.
  - intros Hnil. by destruct rows.
  - rewrite open_rows_snoc. fold D.
    rewrite reverse_cons, fmap_app. cbn [fmap list_fmap].
    rewrite Hlabel, app_comm_cons, Hlast. unfold append.
    rewrite Hlast in Hspine2.
    destruct (decide (rows = [])) as [Hnil|Hne].
    + (* the first row hangs below the root *)
      specialize (Hinit Hnil). subst st rows. subst D.
      cbn [builder_init tree open_rows open_rows_from drop_deeper reverse
           rev_append fmap list_fmap] in *.
      rewrite (first_row_tree _ _ _ _ Hmark) in *.
      destruct l as [|e l]; [|by destruct l].
      injection Hlast as <- <-.
      rewrite update_unfold, decide_True by done. cbn [map add_child app].
      apply (spine_down
               (Node fresh None None None
                  [new_node (next_oid (builder_init fresh)) row])
               [] (new_node (next_oid (builder_init fresh)) row));
        [done | constructor].
    + apply (spine_append _ _ _ _ _ Hspine2 Hnd1).
      intros m. by apply Htip.
  - intros _. rewrite expected_snoc. unfold append, to_taxonomy.
    rewrite Hlast in Hspine2.
    destruct (decide (rows = [])) as [Hnil|Hne].
    + specialize (Hinit Hnil). subst st rows. subst D.
      cbn [builder_init tree next_oid open_rows open_rows_from drop_deeper reverse
           rev_append fmap list_fmap] in *.
      rewrite (first_row_tree _ _ _ _ Hmark) in *.
      destruct l as [|e l]; [|by destruct l]. injection Hlast as <- <-.
      rewrite update_unfold, decide_True by done. cbn [map add_child app].
      rewrite to_taxonomy_from_cons. cbn [map concat rank_of_name].
      rewrite !app_nil_r, to_taxonomy_new_node. cbn [app List.length].
      unfold lineage_at. by cbn.
    + destruct (spine_append (new_node (next_oid st) row) _ _ _ _ Hspine2 Hnd1)
        as [_ Heq].
      { intros m. by apply Htip. }
      rewrite Heq, fmap_app, to_taxonomy_new_node. fold (to_taxonomy tree1).
      rewrite Htax1, Hexp by done. f_equal. f_equal. f_equal.
      cbn [app]. rewrite <- Hlast. unfold lineage_at.
      rewrite take_ge by (rewrite length_app; cbn [List.length]; lia).
      rewrite open_rows_snoc. fold D.
      rewrite reverse_cons, fmap_app, fmap_app. cbn [fmap list_fmap snd]. f_equal.
      unfold lineage_of. cbn [map concat snd rank_of_name app].
      apply lineage_of_labels.
Qed.

Lemma builder_loop_LinInv fresh df : forall rows st st',
  LinInv fresh rows st -> builder_loop st df = Ok st' ->
  LinInv fresh (rows ++ kept_rows df) st'.
Proof.
  induction df as [|row df IH]; intros rows st st' HL H.
  - injection H as <-. by rewrite app_nil_r.
  - cbn [builder_loop] in H. inv_bind H. unfold kept_rows. rewrite filter_cons.
    destruct (decide (row_kept row)) as [Hk|Hk].
    + rewrite builder_step_kept in Ha by done.
      apply (attach_row_LinInv _ _ _ _ _ HL) in Ha.
      pose proof (IH (rows ++ [row]) a st' Ha H) as HL'.
      by rewrite <- app_assoc in HL'.
    + rewrite builder_step_skipped in Ha by done. injection Ha as <-.
      by apply (IH rows st st').
Qed.

(** The lineages [to_taxonomy] yields for the tree of a report. *)
Lemma kraken_to_ncbi_tree_lineages fresh df ncbi_tree :
  _kraken_to_ncbi_tree fresh df = Ok ncbi_tree ->
  kept_rows df <> [] ->
  (fun e => (name e.1, e.2)) <$> to_taxonomy ncbi_tree = expected (kept_rows df).
Proof.
  unfold _kraken_to_ncbi_tree. intros H Hne. inv_bind H.
  apply (builder_loop_LinInv _ _ [] _ _ (LinInv_init fresh)) in Ha.
  cbn [app] in Ha. destruct Ha as [_ _ _ Hexp]. specialize (Hexp Hne).
  unfold mark_last in H. inv_bind H. destruct a0 as [pi pn].
  destruct (children_of pn (tree a)); [by injection H as <-|].
  apply mark_first_child_Ok in H as (c & cs & _ & ->).
  rewrite <- Hexp. unfold to_taxonomy.
  rewrite to_taxonomy_from_set_flag, <- list_fmap_compose.
  apply list_fmap_ext. intros _ e _. cbn.
  by rewrite (name_update _ _ _ (set_is_actual_tip_extends true)).
Qed.

Lemma taxonomy_rows_lookup l : forall rows i node ranks,
  taxonomy_rows l = Ok rows -> l !! i = Some (node, ranks) ->
  exists taxon, rows !! i = Some (name node, taxon)
                /\ _pad_ranks ranks = Ok taxon.
Proof.
  induction l as [|[node0 ranks0] l IH]; intros rows i node ranks H Hi; [done|].
  cbn [taxonomy_rows] in H. inv_bind H. inv_bind H. injection H as <-.
  destruct i as [|i].
  - injection Hi as -> ->. eauto.
  - cbn [lookup list_lookup]. by eapply IH.
Qed.

End LineageFacts.

(** X23. The taxon of a row.  For the tree [_kraken_to_ncbi_tree] builds from
    a report, the entry of the taxonomy at the place of a row, among the
    rows that pass the guard of line 61, has the identifier of the row as
    its feature identifier, and its taxon is [_pad_ranks] of the rank
    path of the row: the rank names of the rows on the stack right after
    the row was pushed, the least indented first. *)
Theorem to_taxonomy_of_report (fresh : nat) (df : list Row)
    (ncbi_tree : TreeNode.t) (taxonomy : list (option string * string))
    (i : nat) (row : Row) :
  _kraken_to_ncbi_tree fresh df = Ok ncbi_tree ->
  _to_taxonomy ncbi_tree = Ok taxonomy ->
  kept_rows df !! i = Some row ->
  exists taxon,
    taxonomy !! i = Some (feature_id row, taxon)
    /\ _pad_ranks
         (rank_name
            <$> (reverse (ParentFacts.open_rows (take (S i) (kept_rows df)))).*2)
       = Ok taxon.
Proof.
  intros H Htax Hi.
  assert (kept_rows df <> []) as Hne by (intros E; by rewrite E in Hi).
  pose proof (LineageFacts.kraken_to_ncbi_tree_lineages _ _ _ H Hne) as Hexp.
  apply (f_equal (fun l => l !! i)) in Hexp.
  unfold LineageFacts.expected in Hexp.
  rewrite list_lookup_fmap, list_lookup_imap, Hi in Hexp.
  destruct (TreeNode.to_taxonomy ncbi_tree !! i) as [[node ranks]|] eqn:Hnode;
    [|done].
  injection Hexp as Hname Hranks.
  destruct (LineageFacts.taxonomy_rows_lookup _ _ _ _ _ Htax Hnode)
    as (taxon & Hrow & Hpad).
  exists taxon. split; [by rewrite Hrow, Hname|]. subst ranks. exact Hpad.
Qed.

Lemma to_taxonomy_of_report_witness :
  exists taxon,
    [(Some "2", "d__Bacteria");
     (Some "561", "d__Bacteria;k__Bacteria;p__containing g__Escherichia;c__containing g__Escherichia;o__containing g__Escherichia;f__containing g__Escherichia;g__Escherichia");
     (Some "562", "d__Bacteria;k__Bacteria;p__containing g__Escherichia;c__containing g__Escherichia;o__containing g__Escherichia;f__containing g__Escherichia;g__Escherichia;s__Escherichia coli");
     (Some "590", "d__Bacteria;k__Bacteria;p__containing g__Salmonella;c__containing g__Salmonella;o__containing g__Salmonella;f__containing g__Salmonella;g__Salmonella")]
      !! 3%nat
    = Some (feature_id (mkRow "G" "    Salmonella" 590 0.5%float), taxon)
    /\ _pad_ranks
         (rank_name
            <$> (reverse (ParentFacts.open_rows
                            (take 4 (kept_rows sample_two_genera)))).*2)
       = Ok taxon.
Proof.
  apply (to_taxonomy_of_report 0 sample_two_genera tree_two_genera _ 3);
    by vm_compute.
Defined.
